(** * dmini: an INI store, its parser and its serializer

    A shallow embedding of [src/dmini.c].

    - A C string is the list of its characters before the terminating NUL;
      a nullable [char*] is an [option] of such a list.
    - The singly linked lists of sections and of pairs are Rocq lists; a
      pointer to a section (or to a pair) is its index in the list it lives
      in, and a null pointer is [None].  Functions that change the context
      through the pointer they are given return the context afterwards.
    - [Dmod_Malloc] may fail.  The outcome of every allocation request is
      read from an oracle that is threaded through the code in the order the
      C code calls the allocator; [Dmod_Free] has no effect on it.
    - [int] is a 32-bit two's complement integer in [Z]; the arithmetic of
      [dmini_get_int] and [dmini_set_int] that leaves the range wraps around.
      [size_t] lengths are natural numbers: the lengths that are added up
      belong to strings that are in memory together.
    - The [value] pointer of a set call is a [value_ptr]: the address of a
      string that the call leaves alone, or the address of a value string of
      the section that the call works on, which is what [dmini_get_string]
      hands out.  A read of memory that has been released, or through an
      address that holds no string, is a fault ([Faults]): C leaves the
      behaviour undefined, and the run ends there.
    - Reading the null [value] of a pair with [strlen] in the serializer is a
      fault of its own ([GenFault]). *)

From Stdlib Require Import List Ascii ZArith Lia Bool Arith.
From Stdlib Require String.
Import String.StringSyntax.
From Equations Require Import Equations.
Import ListNotations.

Local Open Scope Z_scope.

(* ====================================================================== *)
(** ** C strings *)
(* ====================================================================== *)

Abbreviation cstring := (list ascii).

(** String literals of the development. *)
Definition cs (s : String.string) : cstring := String.list_ascii_of_string s.
Arguments cs s%_string_scope.

Definition chr (n : nat) : ascii := ascii_of_nat n.

Definition LF : ascii := chr 10.
Definition CR : ascii := chr 13.
Definition TAB : ascii := chr 9.
Definition SPACE : ascii := chr 32.

Definition char_eq (a b : ascii) : bool := Ascii.eqb a b.

(** [strcmp(a, b) == 0] *)
Definition strcmp_eq0 (a b : cstring) : bool :=
  if list_eq_dec ascii_dec a b then true else false.

(** [strlen] *)
Definition strlen (s : cstring) : nat := length s.

(** The four characters [trim_whitespace] strips. *)
Definition is_space (c : ascii) : bool :=
  char_eq c SPACE || char_eq c TAB || char_eq c CR || char_eq c LF.

(** The two characters that end a line in [dmini_parse_string]. *)
Definition is_eol (c : ascii) : bool :=
  char_eq c LF || char_eq c CR.

(** Leading loop of [trim_whitespace]: [while (is_space( *str)) str++]. *)
Fixpoint skip_leading (str : cstring) : cstring :=
  match str with
  | [] => []
  | c :: tl => if is_space c then skip_leading tl else str
  end.

(** Trailing loop of [trim_whitespace], on the characters after [str]: [end]
    walks back from the last character while it is a space, and the NUL is
    written right after it. *)
Fixpoint strip_trailing (s : cstring) : cstring :=
  match s with
  | [] => []
  | c :: tl =>
      match strip_trailing tl with
      | [] => if is_space c then [] else [c]
      | r => c :: r
      end
  end.

(** [trim_whitespace]: the guard [end > str] keeps the first character of the
    left-trimmed string out of the trailing loop. *)
Definition trim_whitespace (str : cstring) : cstring :=
  match skip_leading str with
  | [] => []
  | c :: tl => c :: strip_trailing tl
  end.

(** [while ( *p && *p != stop) p++]: the characters passed over, and the
    string from where the scan stopped ([[]] when it reached the NUL). *)
Fixpoint scan_until (stop : ascii -> bool) (p : cstring) : cstring * cstring :=
  match p with
  | [] => ([], [])
  | c :: tl =>
      if stop c then ([], p)
      else let (passed, rest) := scan_until stop tl in (c :: passed, rest)
  end.

(* ====================================================================== *)
(** ** The allocator *)
(* ====================================================================== *)

(** One answer per call of [Dmod_Malloc], in call order; once the oracle is
    used up every further request succeeds. *)
Definition oracle := list bool.

(** What a call comes to: it returns, or it reads memory that it may not
    read, which C leaves undefined. *)
Inductive outcome (A : Type) : Type :=
| Returns (a : A)
| Faults.

Arguments Returns {A} a.
Arguments Faults {A}.

Definition Alloc (A : Type) : Type := oracle -> outcome A * oracle.

Definition ret {A} (a : A) : Alloc A := fun o => (Returns a, o).

Definition bind {A B} (m : Alloc A) (k : A -> Alloc B) : Alloc B :=
  fun o => match m o with
           | (Returns a, o') => k a o'
           | (Faults, o') => (Faults, o')
           end.

(** The run ends in a fault. *)
Definition fault {A} : Alloc A := fun o => (Faults, o).

Notation "x <- m ;; k" := (bind m (fun x => k))
  (at level 61, m at next level, right associativity).
Notation "' p <- m ;; k" := (bind m (fun x => let p := x in k))
  (at level 61, p pattern, m at next level, right associativity).

(** [Dmod_Malloc(size) != NULL] *)
Definition Dmod_Malloc : Alloc bool :=
  fun o => match o with
           | [] => (Returns true, [])
           | b :: o' => (Returns b, o')
           end.

(** No request answered by this oracle fails. *)
Definition never_fails (o : oracle) : Prop := Forall (fun b => b = true) o.

(** [string_duplicate] *)
Definition string_duplicate (str : option cstring) : Alloc (option cstring) :=
  match str with
  | None => ret None
  | Some s =>
      ok <- Dmod_Malloc ;;
      ret (if ok then Some s else None)
  end.

(* ====================================================================== *)
(** ** Data model *)
(* ====================================================================== *)

(** Status codes of [dmini.h]. *)
Definition DMINI_OK : Z := 0.
Definition DMINI_ERR_GENERAL : Z := -1.
Definition DMINI_ERR_MEMORY : Z := -2.
Definition DMINI_ERR_INVALID : Z := -3.
Definition DMINI_ERR_NOT_FOUND : Z := -4.
Definition DMINI_ERR_FILE : Z := -5.

(** [struct dmini_pair]: [key] is never null in a linked pair ([create_pair]
    refuses it), [value] can be. *)
Record dmini_pair : Type := mkPair
  { key : cstring;
    value : option cstring }.

(** [struct dmini_section]: [name] is null for the global section. *)
Record dmini_section : Type := mkSection
  { name : option cstring;
    pairs : list dmini_pair }.

(** [struct dmini_context] *)
Record dmini_context : Type := mkContext
  { sections : list dmini_section }.

(** Reading and writing through a section pointer [p] into the list of the
    context; a pointer that is null reads as nothing. *)
Definition load_section (ctx : option dmini_context) (p : option nat)
  : option dmini_section :=
  match ctx, p with
  | Some c, Some i => nth_error (sections c) i
  | _, _ => None
  end.

Fixpoint list_store {A} (l : list A) (i : nat) (x : A) : list A :=
  match l, i with
  | [], _ => []
  | _ :: tl, O => x :: tl
  | y :: tl, S j => y :: list_store tl j x
  end.

Definition store_section (ctx : option dmini_context) (p : option nat)
  (s : option dmini_section) : option dmini_context :=
  match ctx, p, s with
  | Some c, Some i, Some s' => Some (mkContext (list_store (sections c) i s'))
  | _, _, _ => ctx
  end.

(** Writing a field of the element that a pointer points to. *)
Fixpoint list_alter {A} (f : A -> A) (l : list A) (i : nat) : list A :=
  match l, i with
  | [], _ => []
  | y :: tl, O => f y :: tl
  | y :: tl, S j => y :: list_alter f tl j
  end.

(** Reading through a pair pointer. *)
Definition load_pair (section : option dmini_section) (p : option nat)
  : option dmini_pair :=
  match section, p with
  | Some s, Some j => nth_error (pairs s) j
  | _, _ => None
  end.

(* ====================================================================== *)
(** ** Helper functions *)
(* ====================================================================== *)

(** The test of the loop of [find_section]. *)
Definition section_matches (s : dmini_section) (section_name : option cstring)
  : bool :=
  match name s, section_name with
  | None, None => true
  | Some n, Some m => strcmp_eq0 n m
  | _, _ => false
  end.

Fixpoint find_section_from (l : list dmini_section)
  (section_name : option cstring) (i : nat) : option nat :=
  match l with
  | [] => None
  | s :: next =>
      if section_matches s section_name then Some i
      else find_section_from next section_name (S i)
  end.

(** [find_section]: a pointer to the first matching section. *)
Definition find_section (ctx : option dmini_context)
  (section_name : option cstring) : option nat :=
  match ctx with
  | None => None
  | Some c => find_section_from (sections c) section_name 0
  end.

Fixpoint find_pair_from (l : list dmini_pair) (k : cstring) (i : nat)
  : option nat :=
  match l with
  | [] => None
  | p :: next =>
      if strcmp_eq0 (key p) k then Some i else find_pair_from next k (S i)
  end.

(** [find_pair]: a pointer to the first pair of the section with that key. *)
Definition find_pair (section : option dmini_section) (k : option cstring)
  : option nat :=
  match section, k with
  | Some s, Some k' => find_pair_from (pairs s) k' 0
  | _, _ => None
  end.

(** [create_section]: the result of [string_duplicate] is stored unchecked. *)
Definition create_section (nm : option cstring) : Alloc (option dmini_section) :=
  ok <- Dmod_Malloc ;;
  if ok then
    n <- match nm with
         | Some _ => string_duplicate nm
         | None => ret None
         end ;;
    ret (Some (mkSection n []))
  else ret None.

(** [create_pair]: both copies are requested before either is checked. *)
Definition create_pair (k v : option cstring) : Alloc (option dmini_pair) :=
  ok <- Dmod_Malloc ;;
  if ok then
    k' <- string_duplicate k ;;
    v' <- string_duplicate v ;;
    ret (match k', v' with
         | Some kk, Some _ => Some (mkPair kk v')
         | _, _ => None
         end)
  else ret None.

(** [get_or_create_section]: the context afterwards and the pointer returned.
    A new section goes to the end of the list. *)
Definition get_or_create_section (ctx : option dmini_context)
  (section_name : option cstring) : Alloc (option dmini_context * option nat) :=
  match ctx with
  | None => ret (None, None)
  | Some c =>
      match find_section ctx section_name with
      | Some i => ret (ctx, Some i)
      | None =>
          section <- create_section section_name ;;
          match section with
          | None => ret (ctx, None)
          | Some s =>
              ret (Some (mkContext (sections c ++ [s])),
                   Some (length (sections c)))
          end
      end
  end.

(** The [value] pointer of a call that sets a pair, as far as the call can
    tell addresses apart: the address of a string that lies outside the
    value strings of the section that the call works on (a string of the
    caller's own, a buffer of the library, a value stored in another
    section), or an address in the value string of pair [j] of that section,
    [offset] characters from its start.  [ValueOf j 0] is what
    [dmini_get_string] returns for that pair. *)
Inductive value_ptr : Type :=
| Own (text : cstring)
| ValueOf (j : nat) (offset : nat).

(** The string that [string_duplicate(value)] reads at the pointer [v] in
    [section], after the value string of the pair [released] (if any) has
    been given back with [Dmod_Free]; [None] is the null pointer.  A read of
    the released string, or through an address where the section holds no
    value string, is a fault. *)
Definition read_value (section : dmini_section) (released : option nat)
  (v : option value_ptr) : Alloc (option cstring) :=
  match v with
  | None => ret None
  | Some (Own text) => ret (Some text)
  | Some (ValueOf j offset) =>
      if match released with
         | Some r => Nat.eqb j r
         | None => false
         end
      then fault
      else match nth_error (pairs section) j with
           | Some p =>
               match value p with
               | Some text =>
                   if Nat.leb offset (length text)
                   then ret (Some (skipn offset text))
                   else fault
               | None => fault
               end
           | None => fault
           end
  end.

(** [set_pair_in_section]: the status and the section afterwards ([None] for
    a null section pointer).  On the update path the old value is released
    before the new one is read and copied. *)
Definition set_pair_in_section (section : option dmini_section)
  (k : option cstring) (v : option value_ptr)
  : Alloc (Z * option dmini_section) :=
  match section, k with
  | Some s, Some _ =>
      match find_pair section k with
      | Some j =>
          (* [Dmod_Free(pair->value)], then [pair->value] gets the copy of
             the string at [value], null if there is none *)
          text <- read_value s (Some j) v ;;
          v' <- string_duplicate text ;;
          let s' := mkSection (name s)
                      (list_alter (fun p => mkPair (key p) v') (pairs s) j) in
          match v' with
          | None => ret (DMINI_ERR_MEMORY, Some s')
          | Some _ => ret (DMINI_OK, Some s')
          end
      | None =>
          (* nothing is released before [create_pair] copies the string:
             a string that is there stays there, wherever in [create_pair]
             it is read *)
          text <- read_value s None v ;;
          pair <- create_pair k text ;;
          match pair with
          | None => ret (DMINI_ERR_MEMORY, section)
          | Some p => ret (DMINI_OK, Some (mkSection (name s) (pairs s ++ [p])))
          end
      end
  | _, _ => ret (DMINI_ERR_INVALID, section)
  end.

(* ====================================================================== *)
(** ** Public API: creation, parsing *)
(* ====================================================================== *)

(** [dmini_create]: [None] is the null context. *)
Definition dmini_create : Alloc (option dmini_context) :=
  ok <- Dmod_Malloc ;;
  if ok then
    global <- create_section None ;;
    match global with
    | None => ret None
    | Some g => ret (Some (mkContext [g]))
    end
  else ret None.

(** [ctx->sections] as a section pointer. *)
Definition first_section (ctx : option dmini_context) : option nat :=
  match ctx with
  | Some c => match sections c with [] => None | _ :: _ => Some 0%nat end
  | None => None
  end.

(** After the scan for the end of the line: the terminator, if there is one,
    is overwritten with NUL and stepped over, and so is one more [\n] or [\r]
    right behind it. *)
Definition skip_terminator (next_line : cstring) : cstring :=
  match next_line with
  | [] => []
  | _ :: p =>
      match p with
      | c :: p' => if is_eol c then p' else p
      | [] => []
      end
  end.

(** What the body of the loop of [dmini_parse_string] does with one line:
    go on with the next line, or return from the function. *)
Inductive line_result : Type :=
| Continue (ctx : option dmini_context) (current_section : option nat)
| Return (code : Z) (ctx : option dmini_context).

(** The body of the loop, from [trim_whitespace(line)] on. *)
Definition parse_line (ctx : option dmini_context)
  (current_section : option nat) (raw : cstring) : Alloc line_result :=
  let line := trim_whitespace raw in
  match line with
  | [] => ret (Continue ctx current_section)
  | c :: after_c =>
      if char_eq c ";" || char_eq c "#" then ret (Continue ctx current_section)
      else if char_eq c "[" then
        let (inner, section_end) := scan_until (char_eq "]") after_c in
        match section_end with
        | _ :: _ =>
            let section_name := trim_whitespace inner in
            '(ctx', sec) <- get_or_create_section ctx (Some section_name) ;;
            match sec with
            | None => ret (Return DMINI_ERR_MEMORY ctx')
            | Some _ => ret (Continue ctx' sec)
            end
        | [] => ret (Continue ctx current_section)
        end
      else
        let (before, equals) := scan_until (char_eq "=") line in
        match equals with
        | _ :: after =>
            let k := trim_whitespace before in
            let v := trim_whitespace after in
            match k with
            | _ :: _ =>
                '(result, s') <-
                  set_pair_in_section (load_section ctx current_section)
                                      (Some k) (Some (Own v)) ;;
                let ctx' := store_section ctx current_section s' in
                if Z.eqb result DMINI_OK then ret (Continue ctx' current_section)
                else ret (Return result ctx')
            | [] => ret (Continue ctx current_section)
            end
        | [] => ret (Continue ctx current_section)
        end
  end.

Lemma scan_until_length stop p :
  (length (snd (scan_until stop p)) <= length p)%nat.
Proof.
  induction p as [|c tl IH]; simpl; [lia|].
  destruct (stop c); simpl; [lia|].
  destruct (scan_until stop tl); simpl in *; lia.
Qed.

Lemma skip_terminator_length p :
  (length (skip_terminator p) <= length p)%nat.
Proof.
  destruct p as [|a [|b p]]; simpl; try lia.
  destruct (is_eol b); simpl; lia.
Qed.

Lemma next_line_shorter c tl :
  (length (skip_terminator (snd (scan_until is_eol (c :: tl))))
   < length (c :: tl))%nat.
Proof.
  simpl. destruct (is_eol c) eqn:E.
  - simpl. destruct tl as [|b tl]; simpl; [lia|].
    destruct (is_eol b); simpl; lia.
  - pose proof (scan_until_length is_eol tl) as H.
    destruct (scan_until is_eol tl) as [l r]; simpl in *.
    pose proof (skip_terminator_length r). lia.
Qed.

(** The loop [while (line && *line)] of [dmini_parse_string]. *)
Equations parse_lines (line : cstring) (ctx : option dmini_context)
  (current_section : option nat) (o : oracle)
  : outcome (Z * option dmini_context) * oracle by wf (length line) lt :=
parse_lines [] ctx current_section o := (Returns (DMINI_OK, ctx), o);
parse_lines (c :: tl) ctx current_section o
  with parse_line ctx current_section (fst (scan_until is_eol (c :: tl))) o := {
  | (Returns (Continue ctx' current_section'), o') =>
      parse_lines (skip_terminator (snd (scan_until is_eol (c :: tl))))
                  ctx' current_section' o';
  | (Returns (Return code ctx'), o') => (Returns (code, ctx'), o');
  | (Faults, o') => (Faults, o') }.
Next Obligation. apply next_line_shorter. Qed.

(** [dmini_parse_string]: the status, and the context afterwards. *)
Definition dmini_parse_string (ctx : option dmini_context)
  (data : option cstring) : Alloc (Z * option dmini_context) :=
  match ctx, data with
  | Some _, Some _ =>
      buffer <- string_duplicate data ;;
      match buffer with
      | None => ret (DMINI_ERR_MEMORY, ctx)
      | Some b => parse_lines b ctx (first_section ctx)
      end
  | _, _ => ret (DMINI_ERR_INVALID, ctx)
  end.

(* ====================================================================== *)
(** ** Public API: serialization *)
(* ====================================================================== *)

(** What [dmini_generate_string] can do: return NULL, return a string, or
    read through the null [value] of a pair (in [strlen]), which C leaves
    undefined. *)
Inductive generated : Type :=
| GenNull
| GenString (s : cstring)
| GenFault.

(** First pass, inner loop: [buffer_size += strlen(key) + strlen(value) + 2]. *)
Fixpoint size_pairs (l : list dmini_pair) (buffer_size : nat) : option nat :=
  match l with
  | [] => Some buffer_size
  | p :: next =>
      match value p with
      | None => None
      | Some v =>
          size_pairs next (buffer_size + (strlen (key p) + strlen v + 2))
      end
  end.

(** First pass, outer loop. *)
Fixpoint size_sections (l : list dmini_section) (buffer_size : nat)
  : option nat :=
  match l with
  | [] => Some buffer_size
  | section :: next =>
      let buffer_size :=
        match name section with
        | Some n => (buffer_size + (strlen n + 3))%nat
        | None => buffer_size
        end in
      match size_pairs (pairs section) buffer_size with
      | None => None
      | Some buffer_size =>
          let buffer_size :=
            match name section, next with
            | Some _, _ :: _ => (buffer_size + 1)%nat
            | _, _ => buffer_size
            end in
          size_sections next buffer_size
      end
  end.

(** Second pass.  [out] is what has been written so far, from [buffer] up to
    [pos]: [*pos++ = c] appends [c], [memcpy(pos, s, n); pos += n] appends
    [s]. *)
Fixpoint write_pairs (l : list dmini_pair) (out : cstring) : option cstring :=
  match l with
  | [] => Some out
  | p :: next =>
      match value p with
      | None => None
      | Some v => write_pairs next ((((out ++ key p) ++ ["="%char]) ++ v) ++ [LF])
      end
  end.

Fixpoint write_sections (l : list dmini_section) (out : cstring)
  : option cstring :=
  match l with
  | [] => Some out
  | section :: next =>
      let out :=
        match name section with
        | Some n => ((out ++ ["["%char]) ++ n) ++ ["]"%char; LF]
        | None => out
        end in
      match write_pairs (pairs section) out with
      | None => None
      | Some out =>
          let out :=
            match name section, next with
            | Some _, _ :: _ => out ++ [LF]
            | _, _ => out
            end in
          write_sections next out
      end
  end.

(** [dmini_generate_string] *)
Definition dmini_generate_string (ctx : option dmini_context) : Alloc generated :=
  match ctx with
  | None => ret GenNull
  | Some c =>
      match size_sections (sections c) 0 with
      | None => ret GenFault
      | Some buffer_size =>
          ok <- Dmod_Malloc ;;
          if ok then
            ret (match write_sections (sections c) [] with
                 | Some s => GenString s
                 | None => GenFault
                 end)
          else ret GenNull
      end
  end.

(* ====================================================================== *)
(** ** Public API: accessors *)
(* ====================================================================== *)

(** [dmini_get_string]: the string at the pointer returned, [None] for the
    null pointer. *)
Definition dmini_get_string (ctx : option dmini_context)
  (section k default_value : option cstring) : option cstring :=
  match ctx, k with
  | Some _, Some _ =>
      let sec := find_section ctx section in
      match sec with
      | None => default_value
      | Some _ =>
          let pair := find_pair (load_section ctx sec) k in
          match pair with
          | None => default_value
          | Some _ =>
              match load_pair (load_section ctx sec) pair with
              | Some p => value p
              | None => None
              end
          end
      end
  | _, _ => default_value
  end.

(** The C type [int]: 32 bits, two's complement; arithmetic that leaves the
    range wraps around. *)
Definition int_wrap (z : Z) : Z := (z + 2 ^ 31) mod 2 ^ 32 - 2 ^ 31.

Definition char_code (c : ascii) : Z := Z.of_nat (nat_of_ascii c).

Definition is_digit (c : ascii) : bool :=
  (char_code "0" <=? char_code c) && (char_code c <=? char_code "9").

(** [while ( *p == ' ' || *p == '\t') p++] *)
Fixpoint skip_blanks (p : cstring) : cstring :=
  match p with
  | [] => []
  | c :: p' => if char_eq c SPACE || char_eq c TAB then skip_blanks p' else p
  end.

(** [while ( *p >= '0' && *p <= '9') { result = result * 10 + ( *p - '0'); p++; }] *)
Fixpoint convert_digits (p : cstring) (result : Z) : Z :=
  match p with
  | [] => result
  | c :: p' =>
      if is_digit c
      then convert_digits p' (int_wrap (result * 10 + (char_code c - char_code "0")))
      else result
  end.

(** [dmini_get_int] *)
Definition dmini_get_int (ctx : option dmini_context)
  (section k : option cstring) (default_value : Z) : Z :=
  match dmini_get_string ctx section k None with
  | None => default_value
  | Some v =>
      let p := skip_blanks v in
      let '(sign, p) :=
        match p with
        | c :: p' =>
            if char_eq c "-" then (-1, p')
            else if char_eq c "+" then (1, p')
            else (1, p)
        | [] => (1, p)
        end in
      int_wrap (convert_digits p 0 * sign)
  end.

(** [dmini_set_string]: the status, and the context afterwards.  [v] goes
    to [set_pair_in_section] as it comes. *)
Definition dmini_set_string (ctx : option dmini_context)
  (section k : option cstring) (v : option value_ptr)
  : Alloc (Z * option dmini_context) :=
  match ctx, k, v with
  | Some _, Some _, Some _ =>
      '(ctx', sec) <- get_or_create_section ctx section ;;
      match sec with
      | None => ret (DMINI_ERR_MEMORY, ctx')
      | Some _ =>
          '(result, s') <- set_pair_in_section (load_section ctx' sec) k v ;;
          ret (result, store_section ctx' sec s')
      end
  | _, _, _ => ret (DMINI_ERR_INVALID, ctx)
  end.

(** Conversion of an [int] to a [char]. *)
Definition char_of_int (z : Z) : ascii := ascii_of_nat (Z.to_nat (z mod 256)).

(** [do { *--p = '0' + (value % 10); value /= 10; } while (value > 0);]:
    [p] is the text from the write position to the NUL. *)
Lemma quot10_log2 v : 0 < Z.quot v 10 -> Z.log2 (Z.quot v 10) < Z.log2 v.
Proof.
  intros Hq.
  assert (Hv : 0 <= v).
  { destruct (Z_lt_dec v 0) as [Hn|]; [|lia].
    pose proof (Z.quot_opp_l (- v) 10 ltac:(lia)) as E.
    rewrite Z.opp_involutive in E.
    pose proof (Z.quot_pos (- v) 10 ltac:(lia) ltac:(lia)). lia. }
  pose proof (Z.mul_quot_le v 10 Hv ltac:(lia)) as Hle.
  assert (H2 : 2 * Z.quot v 10 <= v) by lia.
  apply Z.log2_le_mono in H2.
  rewrite Z.log2_double in H2 by assumption. lia.
Qed.

Equations render_digits (v : Z) (p : cstring) : cstring
  by wf (Z.to_nat (Z.log2 v)) lt :=
render_digits v p with Z_lt_dec 0 (Z.quot v 10) := {
  | left _ =>
      render_digits (Z.quot v 10) (char_of_int (char_code "0" + Z.rem v 10) :: p);
  | right _ => char_of_int (char_code "0" + Z.rem v 10) :: p }.
Next Obligation.
  pose proof (quot10_log2 v ltac:(assumption)).
  pose proof (Z.log2_nonneg (Z.quot v 10)). lia.
Qed.

(** [dmini_set_int]; [v] is an [int]. *)
Definition dmini_set_int (ctx : option dmini_context)
  (section k : option cstring) (v : Z) : Alloc (Z * option dmini_context) :=
  let is_negative := v <? 0 in
  let v := if is_negative then int_wrap (- v) else v in
  let p := render_digits v [] in
  let p := if is_negative then "-"%char :: p else p in
  (* [p] points into the local [buffer] *)
  dmini_set_string ctx section k (Some (Own p)).

(** [dmini_has_section] *)
Definition dmini_has_section (ctx : option dmini_context)
  (section : option cstring) : Z :=
  match ctx with
  | None => 0
  | Some _ => match find_section ctx section with Some _ => 1 | None => 0 end
  end.

(** [dmini_has_key] *)
Definition dmini_has_key (ctx : option dmini_context)
  (section k : option cstring) : Z :=
  match ctx, k with
  | Some _, Some _ =>
      let sec := find_section ctx section in
      match sec with
      | None => 0
      | Some _ =>
          match find_pair (load_section ctx sec) k with
          | Some _ => 1
          | None => 0
          end
      end
  | _, _ => 0
  end.

(** The loop of [dmini_remove_section]: the list without the first section
    whose name is not null and equal to [section]. *)
Fixpoint unlink_section (l : list dmini_section) (section : cstring)
  : option (list dmini_section) :=
  match l with
  | [] => None
  | curr :: next =>
      if match name curr with
         | Some n => strcmp_eq0 n section
         | None => false
         end
      then Some next
      else match unlink_section next section with
           | Some next' => Some (curr :: next')
           | None => None
           end
  end.

(** [dmini_remove_section] *)
Definition dmini_remove_section (ctx : option dmini_context)
  (section : option cstring) : Z * option dmini_context :=
  match ctx, section with
  | Some c, Some n =>
      match unlink_section (sections c) n with
      | Some l => (DMINI_OK, Some (mkContext l))
      | None => (DMINI_ERR_NOT_FOUND, ctx)
      end
  | _, _ => (DMINI_ERR_INVALID, ctx)
  end.

(** The loop of [dmini_remove_key]. *)
Fixpoint unlink_pair (l : list dmini_pair) (k : cstring)
  : option (list dmini_pair) :=
  match l with
  | [] => None
  | curr :: next =>
      if strcmp_eq0 (key curr) k then Some next
      else match unlink_pair next k with
           | Some next' => Some (curr :: next')
           | None => None
           end
  end.

(** [dmini_remove_key] *)
Definition dmini_remove_key (ctx : option dmini_context)
  (section k : option cstring) : Z * option dmini_context :=
  match ctx, k with
  | Some _, Some k' =>
      let sec := find_section ctx section in
      match load_section ctx sec with
      | None => (DMINI_ERR_NOT_FOUND, ctx)
      | Some s =>
          match unlink_pair (pairs s) k' with
          | Some l =>
              (DMINI_OK, store_section ctx sec (Some (mkSection (name s) l)))
          | None => (DMINI_ERR_NOT_FOUND, ctx)
          end
      end
  | _, _ => (DMINI_ERR_INVALID, ctx)
  end.

(* ====================================================================== *)
(** ** Auxiliary definitions used in the statements *)
(* ====================================================================== *)

(** Runs without allocation failure: started on an oracle that never fails,
    [m] returns [a] and leaves such an oracle. *)
Definition runs_ok {A} (m : Alloc A) (a : A) : Prop :=
  forall o, never_fails o ->
    exists o', m o = (Returns a, o') /\ never_fails o'.

(** [m] returns, whatever the allocator answers: it does not fault. *)
Definition always_returns {A} (m : Alloc A) : Prop :=
  forall o, exists a o', m o = (Returns a, o').

(** The pair list after a successful [set_pair_in_section]. *)
Fixpoint upsert_pair (l : list dmini_pair) (k v : cstring) : list dmini_pair :=
  match l with
  | [] => [mkPair k (Some v)]
  | p :: tl =>
      if strcmp_eq0 (key p) k then mkPair (key p) (Some v) :: tl
      else p :: upsert_pair tl k v
  end.

(** The section list after a successful [dmini_set_string]. *)
Fixpoint upsert_section (l : list dmini_section) (sec : option cstring)
  (k v : cstring) : list dmini_section :=
  match l with
  | [] => [mkSection sec [mkPair k (Some v)]]
  | s :: tl =>
      if section_matches s sec
      then mkSection (name s) (upsert_pair (pairs s) k v) :: tl
      else s :: upsert_section tl sec k v
  end.


(** A lookup of [k] in [section] that misses: the four ways
    [dmini_get_string] comes to return its default. *)
Inductive lookup_misses (ctx : option dmini_context)
  (section k : option cstring) : Prop :=
| miss_null_context : ctx = None -> lookup_misses ctx section k
| miss_null_key : k = None -> lookup_misses ctx section k
| miss_section : forall c,
    ctx = Some c -> ~ In section (map name (sections c)) ->
    lookup_misses ctx section k
| miss_key : forall i s k',
    find_section ctx section = Some i ->
    load_section ctx (Some i) = Some s ->
    k = Some k' -> ~ In k' (map key (pairs s)) ->
    lookup_misses ctx section k.

(** The text [dmini_get_int] converts, after the blanks and the sign. *)
Definition after_sign (v : cstring) : cstring :=
  match skip_blanks v with
  | c :: p' => if char_eq c "-" || char_eq c "+" then p' else c :: p'
  | [] => []
  end.

(** A value with no digit where [dmini_get_int] starts to convert. *)
Definition no_parseable_digits (v : cstring) : Prop :=
  match after_sign v with
  | c :: _ => is_digit c = false
  | [] => True
  end.

(** [k] is stored in [section] of [c], with the string [v] as its value. *)
Definition stored_value (c : dmini_context) (section : option cstring)
  (k v : cstring) : Prop :=
  exists i s j p,
    find_section (Some c) section = Some i /\
    load_section (Some c) (Some i) = Some s /\
    find_pair (Some s) (Some k) = Some j /\
    load_pair (Some s) (Some j) = Some p /\
    value p = Some v.

(** The pointer that [dmini_get_string] returns for [k] in [section] with a
    null default, as a later call that sets a pair in that section meets it:
    the address of [pair->value] of the pair found, for which
    [dmini_get_string] gives the string. *)
Definition returned_pointer (ctx : option dmini_context)
  (section k : option cstring) : option value_ptr :=
  match ctx, k with
  | Some _, Some _ =>
      let sec := find_section ctx section in
      match sec with
      | None => None
      | Some _ =>
          let pair := find_pair (load_section ctx sec) k in
          match pair with
          | None => None
          | Some j =>
              match load_pair (load_section ctx sec) pair with
              | Some p =>
                  match value p with
                  | Some _ => Some (ValueOf j 0)
                  | None => None
                  end
              | None => None
              end
          end
      end
  | _, _ => None
  end.

(** The calls that change a context.  The value of [OpSetString] is a
    string of the caller's own, or null. *)
Inductive operation : Type :=
| OpParseString (data : option cstring)
| OpSetString (section k v : option cstring)
| OpSetInt (section k : option cstring) (v : Z)
| OpRemoveSection (section : option cstring)
| OpRemoveKey (section k : option cstring).

Definition apply_operation (op : operation) (ctx : option dmini_context)
  : Alloc (Z * option dmini_context) :=
  match op with
  | OpParseString data => dmini_parse_string ctx data
  | OpSetString section k v => dmini_set_string ctx section k (option_map Own v)
  | OpSetInt section k v => dmini_set_int ctx section k v
  | OpRemoveSection section => ret (dmini_remove_section ctx section)
  | OpRemoveKey section k => ret (dmini_remove_key ctx section k)
  end.

(** A sequence of calls on one context; the statuses are dropped. *)
Fixpoint run_operations (ops : list operation) (ctx : option dmini_context)
  : Alloc (option dmini_context) :=
  match ops with
  | [] => ret ctx
  | op :: rest =>
      r <- apply_operation op ctx ;;
      run_operations rest (snd r)
  end.

(** The context is not null and its first section is nameless. *)
Definition has_global (ctx : option dmini_context) : Prop :=
  exists c g rest, ctx = Some c /\ sections c = g :: rest /\ name g = None.

Definition nameless (s : dmini_section) : bool :=
  match name s with
  | None => true
  | Some _ => false
  end.

(** Every pair of the context has a value string (no null [value]). *)
Definition values_stored (l : list dmini_section) : Prop :=
  Forall (fun s => Forall (fun p => value p <> None) (pairs s)) l.

(** The text of the serializer as the specification words it, section by
    section: a header line [[name]] for a named section and none for the
    global one, one line [key=value] per pair in stored order, and one blank
    line after a named section that is followed by another section. *)
Definition value_text (p : dmini_pair) : cstring :=
  match value p with
  | Some v => v
  | None => []
  end.

Definition pair_line (p : dmini_pair) : cstring :=
  key p ++ cs "=" ++ value_text p ++ [LF].

Definition header_line (s : dmini_section) : cstring :=
  match name s with
  | Some n => cs "[" ++ n ++ cs "]" ++ [LF]
  | None => []
  end.

Definition separator (s : dmini_section) (next : list dmini_section) : cstring :=
  match name s, next with
  | Some _, _ :: _ => [LF]
  | _, _ => []
  end.

Fixpoint ini_text (l : list dmini_section) : cstring :=
  match l with
  | [] => []
  | s :: next =>
      header_line s ++ concat (map pair_line (pairs s)) ++ separator s next
      ++ ini_text next
  end.

(** Lines that the parser passes over although they are neither empty nor
    comments; [line] is the line after [trim_whitespace]. *)
Inductive malformed_line : cstring -> Prop :=
| unclosed_header : forall rest,
    ~ In "]"%char rest -> malformed_line ("["%char :: rest)
| no_equals_sign : forall c rest,
    c <> "["%char -> ~ In "="%char (c :: rest) -> malformed_line (c :: rest)
| empty_key : forall c rest,
    c <> "["%char -> In "="%char (c :: rest) ->
    trim_whitespace (fst (scan_until (char_eq "=") (c :: rest))) = [] ->
    malformed_line (c :: rest).

(** A section pointer that points into the context. *)
Definition valid_pointer (ctx : option dmini_context) (p : option nat) : Prop :=
  exists s, load_section ctx p = Some s.

(** Restrictions on the strings of a model, as boolean tests. *)
Definition no_eol (s : cstring) : bool :=
  forallb (fun c => negb (is_eol c)) s.

Definition no_char (x : ascii) (s : cstring) : bool :=
  forallb (fun c => negb (char_eq x c)) s.

(** Neither the first nor the last character is white space. *)
Definition no_outer_space (s : cstring) : bool :=
  match s with [] => true | c :: _ => negb (is_space c) end &&
  match rev s with [] => true | e :: _ => negb (is_space e) end.

(** Only space and tab. *)
Definition blanks (s : cstring) : bool :=
  forallb (fun c => char_eq c SPACE || char_eq c TAB) s.

(** A key that the parser reads back as a key: not empty, no [=] in it, and
    its first character does not make the line a header or a comment. *)
Definition key_parses (k : cstring) : bool :=
  match k with
  | [] => false
  | c :: _ => negb (char_eq c "[" || char_eq c ";" || char_eq c "#")
  end && no_char "=" k.

(** A section name that the parser reads back from its header line. *)
Definition name_parses (n : cstring) : bool :=
  no_eol n && no_outer_space n && no_char "]" n.

(** The first section with that name, and the first pair with that key. *)
Fixpoint lookup_section (l : list dmini_section) (n : option cstring)
  : option dmini_section :=
  match l with
  | [] => None
  | s :: next => if section_matches s n then Some s else lookup_section next n
  end.

Fixpoint lookup_pair (l : list dmini_pair) (k : cstring) : option dmini_pair :=
  match l with
  | [] => None
  | p :: next => if strcmp_eq0 (key p) k then Some p else lookup_pair next k
  end.

(** What [get_or_create_section] returns when no allocation fails. *)
Definition section_for (c : dmini_context) (n : option cstring)
  : option dmini_context * option nat :=
  match find_section (Some c) n with
  | Some i => (Some c, Some i)
  | None => (Some (mkContext (sections c ++ [mkSection n []])),
             Some (length (sections c)))
  end.


(** The calls that populate a model in the round-trip property. *)
Definition is_setter (op : operation) : bool :=
  match op with
  | OpSetString _ _ _ | OpSetInt _ _ _ => true
  | _ => false
  end.

(** [dmini_create] followed by a sequence of calls. *)
Definition populate (ops : list operation) : Alloc (option dmini_context) :=
  ctx <- dmini_create ;;
  run_operations ops ctx.

(** [dmini_create] followed by [dmini_parse_string]. *)
Definition parse_in_new_context (text : cstring)
  : Alloc (Z * option dmini_context) :=
  ctx <- dmini_create ;;
  dmini_parse_string ctx (Some text).

(** No line break and no white space at either end. *)
Definition spec_clean (s : cstring) : bool := no_eol s && no_outer_space s.

(** The restrictions that the specification puts on the round trip: keys and
    values have no line break and no white space at their ends, values have
    no [=]. *)
Definition stated_restrictions (l : list dmini_section) : bool :=
  forallb
    (fun s =>
       forallb
         (fun p =>
            spec_clean (key p) &&
            match value p with
            | Some v => spec_clean v && no_char "=" v
            | None => true
            end)
         (pairs s))
    l.

(** What the text format asks for besides: keys that parse as keys, and
    section names that come back from a header line. *)
Definition format_restrictions (l : list dmini_section) : bool :=
  forallb
    (fun s =>
       match name s with
       | Some n => name_parses n
       | None => true
       end &&
       forallb (fun p => key_parses (key p)) (pairs s))
    l.

(** The shape of a model that [dmini_create] and successful sets build: the
    global section first, no name twice, no key twice in a section, a value
    string in every pair. *)
Definition well_formed (l : list dmini_section) : Prop :=
  (exists g rest, l = g :: rest /\ name g = None) /\
  NoDup (map name l) /\
  Forall (fun s => NoDup (map key (pairs s))) l /\
  values_stored l.

(** A pair whose line the parser reads back as that pair. *)
Definition pair_reads_back (p : dmini_pair) : Prop :=
  key_parses (key p) = true /\ no_eol (key p) = true /\
  no_outer_space (key p) = true /\
  exists v, value p = Some v /\ no_eol v = true /\ no_outer_space v = true.

(** A named section whose header and pair lines the parser reads back. *)
Definition section_reads_back (s : dmini_section) : Prop :=
  (exists n, name s = Some n /\ name_parses n = true) /\
  Forall pair_reads_back (pairs s) /\
  NoDup (map key (pairs s)).

(** A round trip that does not give the model back: [ops] build [m] without
    allocation failure, [m] meets the stated restrictions, [text] is its
    serialization, and [text] parses to [m'], which is not [m]. *)
Definition roundtrip_breaks (ops : list operation) (m : dmini_context)
  (text : cstring) (m' : dmini_context) : Prop :=
  forallb is_setter ops = true /\
  populate ops [] = (Returns (Some m), []) /\
  stated_restrictions (sections m) = true /\
  dmini_generate_string (Some m) [] = (Returns (GenString text), []) /\
  parse_in_new_context text [] = (Returns (DMINI_OK, Some m'), []) /\
  m' <> m.

(* ====================================================================== *)
(** ** Definitions for further properties *)
(* ====================================================================== *)

(** The pieces of a text between its line-break characters ([\n] and [\r]),
    every break counted: [a\r\nb] has the pieces [a], the empty one, [b]. *)
Fixpoint split_lines (t : cstring) : list cstring :=
  match t with
  | [] => [[]]
  | c :: tl =>
      if is_eol c then [] :: split_lines tl
      else match split_lines tl with
           | l :: ls => (c :: l) :: ls
           | [] => [[c]]
           end
  end.

(** The body of the parser's loop applied to a list of lines in turn, until
    one of them returns. *)
Fixpoint run_lines (ls : list cstring) (ctx : option dmini_context)
  (cur : option nat) : Alloc line_result :=
  match ls with
  | [] => ret (Continue ctx cur)
  | l :: rest =>
      r <- parse_line ctx cur l ;;
      match r with
      | Continue ctx' cur' => run_lines rest ctx' cur'
      | Return _ _ => ret r
      end
  end.

(** What [dmini_parse_string] comes to after the loop. *)
Definition line_status (r : outcome line_result)
  : outcome (Z * option dmini_context) :=
  match r with
  | Returns (Continue ctx _) => Returns (DMINI_OK, ctx)
  | Returns (Return code ctx) => Returns (code, ctx)
  | Faults => Faults
  end.

(** A line that is empty after trimming, or a comment. *)
Definition ignored_line (l : cstring) : bool :=
  match trim_whitespace l with
  | [] => true
  | c :: _ => char_eq c ";" || char_eq c "#"
  end.

(** The first pair with that key in the first section with that name. *)
Definition lookup (l : list dmini_section) (n : option cstring) (k : cstring)
  : option dmini_pair :=
  match lookup_section l n with
  | Some s => lookup_pair (pairs s) k
  | None => None
  end.

(** The decimal text that [dmini_set_int] writes for a number that is not
    negative. *)
Definition decimal (n : Z) : cstring := render_digits n [].

(** The sign in front of a number text. *)
Inductive sign : Type := NoSign | Plus | Minus.

Definition sign_text (s : sign) : cstring :=
  match s with
  | NoSign => []
  | Plus => cs "+"
  | Minus => cs "-"
  end.

Definition sign_value (s : sign) : Z :=
  match s with
  | Minus => -1
  | _ => 1
  end.

(** What one call can do to the pair list of a section; [rm] allows the
    unlinking that only [dmini_remove_key] does. *)
Inductive pairs_step (rm : bool) (l : list dmini_pair)
  : list dmini_pair -> Prop :=
| ps_same : pairs_step rm l l
| ps_value : forall j k v',
    find_pair_from l k 0 = Some j ->
    pairs_step rm l (list_alter (fun p => mkPair (key p) v') l j)
| ps_append : forall k v,
    find_pair_from l k 0 = None ->
    pairs_step rm l (l ++ [mkPair k (Some v)])
| ps_unlink : forall k l',
    rm = true -> unlink_pair l k = Some l' -> pairs_step rm l l'.

(** What one call can do to the section list of a context. *)
Inductive sections_step (rm : bool) (l : list dmini_section)
  : list dmini_section -> Prop :=
| ss_same : sections_step rm l l
| ss_append : forall n n',
    find_section_from l n 0 = None -> n' = n \/ n' = None ->
    sections_step rm l (l ++ [mkSection n' []])
| ss_store : forall i s ps',
    nth_error l i = Some s -> pairs_step rm (pairs s) ps' ->
    sections_step rm l (list_store l i (mkSection (name s) ps'))
| ss_unlink : forall n l',
    rm = true -> unlink_section l n = Some l' -> sections_step rm l l'.

Inductive sections_steps (rm : bool)
  : list dmini_section -> list dmini_section -> Prop :=
| steps_done : forall l, sections_steps rm l l
| steps_more : forall l1 l2 l3,
    sections_step rm l1 l2 -> sections_steps rm l2 l3 ->
    sections_steps rm l1 l3.

(** The context is not null and its section list comes from [l] by such
    steps. *)
Definition reached (rm : bool) (l : list dmini_section)
  (ctx : option dmini_context) : Prop :=
  exists c', ctx = Some c' /\ sections_steps rm l (sections c').

(** The calls that remove nothing. *)
Definition is_adding (op : operation) : bool :=
  match op with
  | OpRemoveSection _ | OpRemoveKey _ _ => false
  | _ => true
  end.

(** The names of the named sections, in order. *)
Definition named_names (l : list dmini_section) : list cstring :=
  flat_map (fun s => match name s with Some n => [n] | None => [] end) l.

(** [l'] has the sections of [l] at their places, with their names and with
    their keys in order, and maybe more keys after them and more sections
    after them. *)
Definition extends (l l' : list dmini_section) : Prop :=
  (exists more, map name l' = map name l ++ more) /\
  forall i s, nth_error l i = Some s ->
    exists s' more,
      nth_error l' i = Some s' /\ name s' = name s /\
      map key (pairs s') = map key (pairs s) ++ more.

(** A section list that the parser reads back from its own text: the global
    section first, pairs and named sections that read back, no name twice. *)
Definition reads_back (l : list dmini_section) : Prop :=
  exists g rest,
    l = g :: rest /\ name g = None /\
    Forall pair_reads_back (pairs g) /\ NoDup (map key (pairs g)) /\
    Forall section_reads_back rest /\ NoDup (map name l).
(* ====================================================================== *)
(** ** Basic facts: strings, pointers, the allocator *)
(* ====================================================================== *)

Lemma strcmp_eq0_true a b : strcmp_eq0 a b = true <-> a = b.
Proof.
  unfold strcmp_eq0. destruct (list_eq_dec ascii_dec a b); split; congruence.
Qed.

Lemma strcmp_eq0_refl a : strcmp_eq0 a a = true.
Proof. apply strcmp_eq0_true. reflexivity. Qed.

Lemma strcmp_eq0_false a b : strcmp_eq0 a b = false <-> a <> b.
Proof.
  unfold strcmp_eq0. destruct (list_eq_dec ascii_dec a b); split; congruence.
Qed.

Lemma char_eq_true a b : char_eq a b = true <-> a = b.
Proof. apply Ascii.eqb_eq. Qed.

Lemma char_eq_false a b : char_eq a b = false <-> a <> b.
Proof. apply Ascii.eqb_neq. Qed.

Lemma list_store_length {A} (l : list A) i x :
  length (list_store l i x) = length l.
Proof.
  revert i. induction l as [|y l IH]; intros [|i]; simpl; auto.
Qed.

Lemma list_store_app_last {A} (l : list A) y x :
  list_store (l ++ [y]) (length l) x = l ++ [x].
Proof. induction l as [|z l IH]; simpl; [reflexivity|]. now rewrite IH. Qed.

Lemma nth_error_app_last {A} (l : list A) y :
  nth_error (l ++ [y]) (length l) = Some y.
Proof. induction l as [|z l IH]; simpl; auto. Qed.

(** The pointer returned by [find_pair] points into the list, at a pair that
    has the key. *)
Lemma find_pair_from_found l k i j :
  find_pair_from l k i = Some j ->
  (i <= j)%nat /\ exists p, nth_error l (j - i) = Some p /\ key p = k.
Proof.
  revert i. induction l as [|p l IH]; intros i H; simpl in H; [discriminate|].
  destruct (strcmp_eq0 (key p) k) eqn:E.
  - inversion H; subst. split; [lia|]. rewrite Nat.sub_diag.
    exists p. split; [reflexivity|]. now apply strcmp_eq0_true.
  - apply IH in H. destruct H as [Hle [q [Hq Hk]]]. split; [lia|].
    exists q. split; [|assumption].
    replace (j - i)%nat with (S (j - S i)) by lia. exact Hq.
Qed.

Lemma find_pair_from_none l k i :
  find_pair_from l k i = None <-> ~ In k (map key l).
Proof.
  revert i. induction l as [|p l IH]; intros i; simpl.
  - tauto.
  - destruct (strcmp_eq0 (key p) k) eqn:E.
    + apply strcmp_eq0_true in E. split; [discriminate|]. tauto.
    + apply strcmp_eq0_false in E. rewrite IH. tauto.
Qed.

Lemma find_section_from_found l n i j :
  find_section_from l n i = Some j ->
  (i <= j)%nat /\
  exists s, nth_error l (j - i) = Some s /\ section_matches s n = true.
Proof.
  revert i. induction l as [|s l IH]; intros i H; simpl in H; [discriminate|].
  destruct (section_matches s n) eqn:E.
  - inversion H; subst. split; [lia|]. rewrite Nat.sub_diag.
    exists s. split; [reflexivity|assumption].
  - apply IH in H. destruct H as [Hle [q [Hq Hk]]]. split; [lia|].
    exists q. split; [|assumption].
    replace (j - i)%nat with (S (j - S i)) by lia. exact Hq.
Qed.

Lemma section_matches_name s n : section_matches s n = true <-> name s = n.
Proof.
  unfold section_matches. destruct (name s) as [a|], n as [b|];
    try (split; congruence).
  rewrite strcmp_eq0_true. split; congruence.
Qed.

Lemma find_section_from_none l n i :
  find_section_from l n i = None <-> ~ In n (map name l).
Proof.
  revert i. induction l as [|s l IH]; intros i; simpl.
  - tauto.
  - destruct (section_matches s n) eqn:E.
    + apply section_matches_name in E. split; [discriminate|]. tauto.
    + assert (name s <> n).
      { intro H. apply section_matches_name in H. congruence. }
      rewrite IH. tauto.
Qed.

Lemma runs_ok_ret {A} (a : A) : runs_ok (ret a) a.
Proof. intros o H. exists o. split; [reflexivity|assumption]. Qed.

Lemma runs_ok_bind {A B} (m : Alloc A) (k : A -> Alloc B) a b :
  runs_ok m a -> runs_ok (k a) b -> runs_ok (bind m k) b.
Proof.
  intros Hm Hk o Ho. destruct (Hm o Ho) as [o1 [E1 H1]].
  destruct (Hk o1 H1) as [o2 [E2 H2]].
  exists o2. split; [|assumption]. unfold bind. rewrite E1. exact E2.
Qed.

Lemma runs_ok_malloc : runs_ok Dmod_Malloc true.
Proof.
  intros [|b o] H; simpl.
  - exists []. split; [reflexivity|apply Forall_nil].
  - inversion H; subst. exists o. split; [reflexivity|assumption].
Qed.

Lemma runs_ok_string_duplicate s : runs_ok (string_duplicate s) s.
Proof.
  destruct s as [s|]; simpl; [|apply runs_ok_ret].
  eapply runs_ok_bind; [apply runs_ok_malloc|]. apply runs_ok_ret.
Qed.

Lemma runs_ok_create_section n :
  runs_ok (create_section n) (Some (mkSection n [])).
Proof.
  unfold create_section.
  eapply runs_ok_bind; [apply runs_ok_malloc|]. cbv beta iota.
  eapply runs_ok_bind with (a := n); [|apply runs_ok_ret].
  destruct n; [apply runs_ok_string_duplicate|apply runs_ok_ret].
Qed.

Lemma runs_ok_create_pair k v :
  runs_ok (create_pair (Some k) (Some v)) (Some (mkPair k (Some v))).
Proof.
  unfold create_pair.
  eapply runs_ok_bind; [apply runs_ok_malloc|]. cbv beta iota.
  eapply runs_ok_bind; [apply runs_ok_string_duplicate|].
  eapply runs_ok_bind; [apply runs_ok_string_duplicate|].
  apply runs_ok_ret.
Qed.

Lemma runs_ok_create : runs_ok dmini_create (Some (mkContext [mkSection None []])).
Proof.
  unfold dmini_create.
  eapply runs_ok_bind; [apply runs_ok_malloc|]. cbv beta iota.
  eapply runs_ok_bind; [apply runs_ok_create_section|]. apply runs_ok_ret.
Qed.

(** What [dmini_create] returns when it does not return NULL. *)
Lemma dmini_create_some o c o' :
  dmini_create o = (Returns (Some c), o') -> c = mkContext [mkSection None []].
Proof.
  unfold dmini_create, create_section, bind, ret, Dmod_Malloc.
  destruct o as [|[|] [|[|] o]]; simpl; intros H; inversion H; reflexivity.
Qed.

(* ====================================================================== *)
(** ** Setting a value when no allocation fails *)
(* ====================================================================== *)

Lemma upsert_pair_found l k v i j :
  find_pair_from l k i = Some j ->
  list_alter (fun p => mkPair (key p) (Some v)) l (j - i) = upsert_pair l k v.
Proof.
  revert i. induction l as [|q l IH]; intros i Hf; simpl in *; [discriminate|].
  destruct (strcmp_eq0 (key q) k) eqn:E.
  - inversion Hf; subst. rewrite Nat.sub_diag. reflexivity.
  - pose proof (find_pair_from_found _ _ _ _ Hf) as [Hle _].
    replace (j - i)%nat with (S (j - S i)) by lia. simpl.
    f_equal. now apply (IH (S i)).
Qed.

Lemma upsert_pair_missing l k v :
  find_pair_from l k 0 = None -> upsert_pair l k v = l ++ [mkPair k (Some v)].
Proof.
  generalize 0%nat. induction l as [|q l IH]; intros i H; simpl in *; [reflexivity|].
  destruct (strcmp_eq0 (key q) k); [discriminate|].
  f_equal. eapply IH; eassumption.
Qed.

(** A string that the call does not release is read as it is. *)
Lemma runs_ok_read_own s released v :
  runs_ok (read_value s released (Some (Own v))) (Some v).
Proof. apply runs_ok_ret. Qed.

Lemma runs_ok_set_pair s k v :
  runs_ok (set_pair_in_section (Some s) (Some k) (Some (Own v)))
          (DMINI_OK, Some (mkSection (name s) (upsert_pair (pairs s) k v))).
Proof.
  unfold set_pair_in_section, find_pair.
  destruct (find_pair_from (pairs s) k 0) as [j|] eqn:F.
  - eapply runs_ok_bind; [apply runs_ok_read_own|].
    eapply runs_ok_bind; [apply runs_ok_string_duplicate|]. cbv beta iota.
    pose proof (upsert_pair_found (pairs s) k v 0 j F) as U.
    rewrite Nat.sub_0_r in U. rewrite U. apply runs_ok_ret.
  - eapply runs_ok_bind; [apply runs_ok_read_own|].
    eapply runs_ok_bind; [apply runs_ok_create_pair|]. cbv beta iota.
    rewrite (upsert_pair_missing _ _ v F). apply runs_ok_ret.
Qed.

Lemma upsert_section_found l sec k v i j s :
  find_section_from l sec i = Some j -> nth_error l (j - i) = Some s ->
  list_store l (j - i) (mkSection (name s) (upsert_pair (pairs s) k v))
  = upsert_section l sec k v.
Proof.
  revert i. induction l as [|q l IH]; intros i Hf Hn; simpl in *; [discriminate|].
  destruct (section_matches q sec) eqn:E.
  - inversion Hf; subst. rewrite Nat.sub_diag in *. simpl in *.
    inversion Hn; subst. reflexivity.
  - pose proof (find_section_from_found _ _ _ _ Hf) as [Hle _].
    replace (j - i)%nat with (S (j - S i)) in * by lia. simpl in *.
    f_equal. apply (IH (S i)); assumption.
Qed.

Lemma upsert_section_missing l sec k v :
  find_section_from l sec 0 = None ->
  upsert_section l sec k v = l ++ [mkSection sec [mkPair k (Some v)]].
Proof.
  generalize 0%nat. induction l as [|q l IH]; intros i H; simpl in *; [reflexivity|].
  destruct (section_matches q sec); [discriminate|].
  f_equal. eapply IH; eassumption.
Qed.

Lemma runs_ok_get_or_create c sec :
  runs_ok (get_or_create_section (Some c) sec)
    (match find_section (Some c) sec with
     | Some i => (Some c, Some i)
     | None => (Some (mkContext (sections c ++ [mkSection sec []])),
                Some (length (sections c)))
     end).
Proof.
  unfold get_or_create_section.
  destruct (find_section (Some c) sec); [apply runs_ok_ret|].
  eapply runs_ok_bind; [apply runs_ok_create_section|]. apply runs_ok_ret.
Qed.

(** [dmini_set_string] without allocation failure. *)
Lemma runs_ok_set_string c sec k v :
  runs_ok (dmini_set_string (Some c) sec (Some k) (Some (Own v)))
          (DMINI_OK, Some (mkContext (upsert_section (sections c) sec k v))).
Proof.
  unfold dmini_set_string.
  eapply runs_ok_bind; [apply runs_ok_get_or_create|].
  unfold find_section.
  destruct (find_section_from (sections c) sec 0) as [i|] eqn:F; cbv beta iota.
  - destruct (find_section_from_found _ _ _ _ F) as [_ [s [Hs _]]].
    rewrite Nat.sub_0_r in Hs. unfold load_section. rewrite Hs.
    eapply runs_ok_bind; [apply runs_ok_set_pair|]. cbv beta iota.
    unfold store_section.
    pose proof (@upsert_section_found (sections c) sec k v 0 i s F) as U.
    rewrite Nat.sub_0_r in U. rewrite (U Hs). apply runs_ok_ret.
  - unfold load_section. cbn [sections]. rewrite nth_error_app_last.
    eapply runs_ok_bind; [apply runs_ok_set_pair|]. cbv beta iota.
    unfold store_section. cbn [sections name pairs upsert_pair].
    rewrite list_store_app_last.
    rewrite (upsert_section_missing _ _ k v F). apply runs_ok_ret.
Qed.

(* ====================================================================== *)
(** ** Calls that do not fault *)
(* ====================================================================== *)

Lemma always_returns_ret {A} (a : A) : always_returns (ret a).
Proof. intros o. exists a, o. reflexivity. Qed.

Lemma always_returns_bind {A B} (m : Alloc A) (k : A -> Alloc B) :
  always_returns m -> (forall a, always_returns (k a)) ->
  always_returns (bind m k).
Proof.
  intros Hm Hk o. destruct (Hm o) as (a & o1 & E1).
  destruct (Hk a o1) as (b & o2 & E2).
  exists b, o2. unfold bind. rewrite E1. exact E2.
Qed.

Lemma always_returns_malloc : always_returns Dmod_Malloc.
Proof. intros [|b o]; simpl; eexists; eexists; reflexivity. Qed.

Lemma always_returns_string_duplicate s : always_returns (string_duplicate s).
Proof.
  destruct s as [s|]; simpl; [|apply always_returns_ret].
  apply always_returns_bind; [apply always_returns_malloc|].
  intros ok. apply always_returns_ret.
Qed.

Lemma always_returns_create_section n : always_returns (create_section n).
Proof.
  unfold create_section.
  apply always_returns_bind; [apply always_returns_malloc|].
  intros [|]; [|apply always_returns_ret].
  apply always_returns_bind; [|intros a; apply always_returns_ret].
  destruct n; [apply always_returns_string_duplicate|apply always_returns_ret].
Qed.

Lemma always_returns_create_pair k v : always_returns (create_pair k v).
Proof.
  unfold create_pair.
  apply always_returns_bind; [apply always_returns_malloc|].
  intros [|]; [|apply always_returns_ret].
  apply always_returns_bind; [apply always_returns_string_duplicate|].
  intros k'.
  apply always_returns_bind; [apply always_returns_string_duplicate|].
  intros v'. apply always_returns_ret.
Qed.

Lemma always_returns_get_or_create ctx n :
  always_returns (get_or_create_section ctx n).
Proof.
  unfold get_or_create_section.
  destruct ctx as [c|]; [|apply always_returns_ret].
  destruct (find_section (Some c) n); [apply always_returns_ret|].
  apply always_returns_bind; [apply always_returns_create_section|].
  intros [s|]; apply always_returns_ret.
Qed.

(** A string that the call does not release, or the null pointer, is read
    without a fault. *)
Lemma read_value_own s released v :
  read_value s released (option_map Own v) = ret v.
Proof. destruct v; reflexivity. Qed.

Lemma always_returns_set_pair section k v :
  always_returns (set_pair_in_section section k (option_map Own v)).
Proof.
  unfold set_pair_in_section.
  destruct section as [s|]; [|apply always_returns_ret].
  destruct k as [k|]; [|apply always_returns_ret].
  destruct (find_pair (Some s) (Some k)) as [j|]; rewrite read_value_own.
  - apply always_returns_bind; [apply always_returns_ret|]. intros text.
    apply always_returns_bind; [apply always_returns_string_duplicate|].
    intros [v'|]; apply always_returns_ret.
  - apply always_returns_bind; [apply always_returns_ret|]. intros text.
    apply always_returns_bind; [apply always_returns_create_pair|].
    intros [p|]; apply always_returns_ret.
Qed.

Lemma always_returns_set_string ctx section k v :
  always_returns (dmini_set_string ctx section k (option_map Own v)).
Proof.
  unfold dmini_set_string.
  destruct ctx as [c|]; [|apply always_returns_ret].
  destruct k as [k|]; [|apply always_returns_ret].
  destruct v as [v|]; [|apply always_returns_ret]. cbn [option_map].
  apply always_returns_bind; [apply always_returns_get_or_create|].
  intros [ctx' [i|]]; [|apply always_returns_ret].
  apply always_returns_bind;
    [apply (always_returns_set_pair _ _ (Some v))|].
  intros [r s']. apply always_returns_ret.
Qed.

Lemma always_returns_set_int ctx section k n :
  always_returns (dmini_set_int ctx section k n).
Proof.
  unfold dmini_set_int. cbv zeta.
  match goal with
  | |- always_returns (dmini_set_string _ _ _ (Some (Own ?p))) =>
      apply (always_returns_set_string ctx section k (Some p))
  end.
Qed.

(* ====================================================================== *)
(** ** Read accessors *)
(* ====================================================================== *)

Lemma get_string_stored c section k v d :
  stored_value c section k v ->
  dmini_get_string (Some c) section (Some k) d = Some v.
Proof.
  intros (i & s & j & p & Hi & Hs & Hj & Hp & Hv).
  unfold dmini_get_string. rewrite Hi, Hs, Hj, Hp. exact Hv.
Qed.

Lemma get_string_miss ctx section k d :
  lookup_misses ctx section k -> dmini_get_string ctx section k d = d.
Proof.
  intros [H|H|c Hc Hn|i s k' Hi Hs Hk Hn]; subst.
  - reflexivity.
  - destruct ctx; reflexivity.
  - unfold dmini_get_string. destruct k; [|reflexivity].
    apply (find_section_from_none _ _ 0) in Hn.
    unfold find_section. now rewrite Hn.
  - unfold dmini_get_string. destruct ctx as [c|]; [|reflexivity].
    rewrite Hi, Hs. simpl.
    apply (find_pair_from_none _ _ 0) in Hn. now rewrite Hn.
Qed.

(** C8: the read accessors never fail.  On a lookup that misses (null
    context, null key, no such section, no such key in the section)
    [dmini_get_string] and [dmini_get_int] return the default they were
    given and [dmini_has_key] returns 0; [dmini_has_section] returns 0 on a
    null context and on a missing section.  The accessors only read the
    context: they are functions of it and return no new one. *)
Theorem read_accessors_never_fail
  (ctx : option dmini_context) (section k : option cstring) :
  lookup_misses ctx section k ->
  (forall d, dmini_get_string ctx section k d = d) /\
  (forall d, dmini_get_int ctx section k d = d) /\
  dmini_has_key ctx section k = 0 /\
  (ctx = None -> dmini_has_section ctx section = 0) /\
  (forall c, ctx = Some c -> ~ In section (map name (sections c)) ->
             dmini_has_section ctx section = 0).
Proof.
  intros H. split; [|split; [|split; [|split]]].
  - intros d. now apply get_string_miss.
  - intros d. unfold dmini_get_int. now rewrite get_string_miss.
  - destruct H as [H|H|c Hc Hn|i s k' Hi Hs Hk Hn]; subst.
    + reflexivity.
    + destruct ctx; reflexivity.
    + unfold dmini_has_key. destruct k; [|reflexivity].
      apply (find_section_from_none _ _ 0) in Hn.
      unfold find_section. now rewrite Hn.
    + unfold dmini_has_key. destruct ctx as [c|]; [|reflexivity].
      rewrite Hi, Hs. simpl.
      apply (find_pair_from_none _ _ 0) in Hn. now rewrite Hn.
  - intros ->. reflexivity.
  - intros c -> Hn. unfold dmini_has_section, find_section.
    apply (find_section_from_none _ _ 0) in Hn. now rewrite Hn.
Qed.

(** On an empty context a lookup in a section that does not exist returns
    the fallback. *)
Lemma read_accessors_never_fail_witness :
  lookup_misses (Some (mkContext [mkSection None []]))
                (Some (cs "missing_section")) (Some (cs "missing_key")) /\
  dmini_get_string (Some (mkContext [mkSection None []]))
    (Some (cs "missing_section")) (Some (cs "missing_key"))
    (Some (cs "fallback")) = Some (cs "fallback") /\
  dmini_get_int (Some (mkContext [mkSection None []]))
    (Some (cs "missing_section")) (Some (cs "missing_key")) 7 = 7.
Proof.
  assert (M : lookup_misses (Some (mkContext [mkSection None []]))
                (Some (cs "missing_section")) (Some (cs "missing_key"))).
  { eapply miss_section; [reflexivity|].
    simpl. intros [H|[]]. discriminate H. }
  split; [exact M|].
  destruct (@read_accessors_never_fail _ _ _ M) as (Hs & Hi & _).
  split; [apply Hs|apply Hi].
Defined.

Lemma convert_digits_no_digit p r :
  match p with c :: _ => is_digit c = false | [] => True end ->
  convert_digits p r = r.
Proof. destruct p as [|c p]; simpl; [reflexivity|]. now intros ->. Qed.

(** C2: when the key is stored with a string value, [dmini_get_int] returns
    what it converts from that string, whatever the default is; when the
    string has no digit after the blanks and the sign, that is 0 and not the
    default. *)
Theorem get_int_no_digits_is_zero
  (c : dmini_context) (section : option cstring) (k v : cstring) :
  stored_value c section k v ->
  (forall d d', dmini_get_int (Some c) section (Some k) d
                = dmini_get_int (Some c) section (Some k) d') /\
  (no_parseable_digits v ->
   forall d, dmini_get_int (Some c) section (Some k) d = 0).
Proof.
  intros H. split.
  - intros d d'. unfold dmini_get_int.
    now rewrite (get_string_stored _ _ _ _ None H).
  - intros Hv d. unfold dmini_get_int.
    rewrite (get_string_stored _ _ _ _ None H).
    unfold no_parseable_digits, after_sign in Hv.
    destruct (skip_blanks v) as [|a p]; [reflexivity|].
    destruct (char_eq a "-") eqn:E1; simpl in Hv.
    + rewrite (convert_digits_no_digit _ _ Hv). reflexivity.
    + destruct (char_eq a "+") eqn:E2; simpl in Hv.
      * rewrite (convert_digits_no_digit _ _ Hv). reflexivity.
      * rewrite (convert_digits_no_digit (a :: p) _ Hv). reflexivity.
Qed.

(** The value [abc] of key [k] reads as 0 although the default is 7. *)
Lemma get_int_no_digits_is_zero_witness :
  stored_value (mkContext [mkSection None [mkPair (cs "k") (Some (cs "abc"))]])
               None (cs "k") (cs "abc") /\
  no_parseable_digits (cs "abc") /\
  dmini_get_int (Some (mkContext [mkSection None [mkPair (cs "k") (Some (cs "abc"))]]))
                None (Some (cs "k")) 7 = 0.
Proof.
  assert (S : stored_value
                (mkContext [mkSection None [mkPair (cs "k") (Some (cs "abc"))]])
                None (cs "k") (cs "abc")).
  { exists 0%nat, (mkSection None [mkPair (cs "k") (Some (cs "abc"))]),
           0%nat, (mkPair (cs "k") (Some (cs "abc"))).
    repeat split; reflexivity. }
  assert (N : no_parseable_digits (cs "abc")) by reflexivity.
  split; [exact S|]. split; [exact N|].
  exact (proj2 (@get_int_no_digits_is_zero _ _ _ _ S) N 7).
Defined.

(* ====================================================================== *)
(** ** [set_pair_in_section] when the allocator fails *)
(* ====================================================================== *)

(** For a key that is not in the section yet, [create_pair] releases what it
    got before it reports the failure: the section is as it was. *)
Lemma set_pair_new_key_atomic s k v o r s' o' :
  find_pair (Some s) (Some k) = None ->
  set_pair_in_section (Some s) (Some k) v o = (Returns (r, s'), o') ->
  r <> DMINI_OK ->
  r = DMINI_ERR_MEMORY /\ s' = Some s.
Proof.
  intros F. unfold set_pair_in_section. rewrite F.
  assert (C : forall text,
             bind (create_pair (Some k) text)
               (fun pair =>
                  match pair with
                  | None => ret (DMINI_ERR_MEMORY, Some s)
                  | Some p =>
                      ret (DMINI_OK,
                           Some (mkSection (name s) (pairs s ++ [p])))
                  end) o = (Returns (r, s'), o') ->
             r <> DMINI_OK -> r = DMINI_ERR_MEMORY /\ s' = Some s).
  { intros text.
    unfold bind, create_pair, string_duplicate, bind, ret, Dmod_Malloc.
    destruct text as [text|]; destruct o as [|[|] [|[|] [|[|] o]]]; simpl;
      intros H Hr; inversion H; subst; auto; congruence. }
  destruct v as [[text|j offset]|]; unfold read_value.
  - exact (C (Some text)).
  - destruct (nth_error (pairs s) j) as [p|];
      [destruct (value p) as [text|];
       [destruct (Nat.leb offset (length text))|]|];
      try (unfold bind at 1, fault; discriminate).
    exact (C (Some (skipn offset text))).
  - exact (C None).
Qed.

(** C3 (the code departs from it): for a key that is already in the section
    [set_pair_in_section] frees the old value before it asks for the copy of
    the new one.  When that copy fails the function returns
    [DMINI_ERR_MEMORY] and the pair stays in the list with a null value: the
    old value ["a"] is lost, [dmini_get_string] then returns NULL for the
    key, and [dmini_generate_string] reads through the null pointer. *)
Theorem set_pair_update_failure_loses_value :
  let s := mkSection None [mkPair (cs "k") (Some (cs "a"))] in
  let ctx := Some (mkContext [s]) in
  set_pair_in_section (Some s) (Some (cs "k")) (Some (Own (cs "b"))) [false]
  = (Returns (DMINI_ERR_MEMORY,
              Some (mkSection None [mkPair (cs "k") None])), []) /\
  dmini_set_string ctx None (Some (cs "k")) (Some (Own (cs "b"))) [false]
  = (Returns (DMINI_ERR_MEMORY,
              Some (mkContext [mkSection None [mkPair (cs "k") None]])), []) /\
  dmini_get_string ctx None (Some (cs "k")) (Some (cs "dflt")) = Some (cs "a") /\
  dmini_get_string (Some (mkContext [mkSection None [mkPair (cs "k") None]]))
                   None (Some (cs "k")) (Some (cs "dflt")) = None /\
  dmini_generate_string
    (Some (mkContext [mkSection None [mkPair (cs "k") None]])) []
  = (Returns GenFault, []).
Proof. repeat split. Qed.

(* ====================================================================== *)
(** ** The global section stays *)
(* ====================================================================== *)

Lemma parse_lines_cons c tl ctx cur o :
  parse_lines (c :: tl) ctx cur o =
  match parse_line ctx cur (fst (scan_until is_eol (c :: tl))) o with
  | (Returns (Continue ctx' cur'), o') =>
      parse_lines (skip_terminator (snd (scan_until is_eol (c :: tl))))
                  ctx' cur' o'
  | (Returns (Return code ctx'), o') => (Returns (code, ctx'), o')
  | (Faults, o') => (Faults, o')
  end.
Proof.
  simp parse_lines.
  destruct (parse_line ctx cur (fst (scan_until is_eol (c :: tl))) o)
    as [[[ctx' cur'|code ctx']|] o']; reflexivity.
Qed.

(** The loop body passes a string of its own buffer: it does not fault. *)
Lemma always_returns_parse_line ctx cur raw :
  always_returns (parse_line ctx cur raw).
Proof.
  unfold parse_line. cbv zeta.
  destruct (trim_whitespace raw) as [|c after_c]; [apply always_returns_ret|].
  destruct (char_eq c ";" || char_eq c "#"); [apply always_returns_ret|].
  destruct (char_eq c "[").
  - destruct (scan_until (char_eq "]") after_c) as [inner [|e section_end]];
      [apply always_returns_ret|].
    apply always_returns_bind; [apply always_returns_get_or_create|].
    intros [ctx' [i|]]; apply always_returns_ret.
  - destruct (scan_until (char_eq "=") (c :: after_c)) as [before [|e after]];
      [apply always_returns_ret|].
    destruct (trim_whitespace before) as [|k0 k]; [apply always_returns_ret|].
    apply always_returns_bind;
      [apply (always_returns_set_pair _ _ (Some (trim_whitespace after)))|].
    intros [r s']. cbv zeta.
    destruct (Z.eqb r DMINI_OK); apply always_returns_ret.
Qed.

Lemma always_returns_parse_lines line : forall ctx cur,
  always_returns (parse_lines line ctx cur).
Proof.
  remember (length line) as n eqn:Hn. revert line Hn.
  induction n as [n IH] using lt_wf_ind.
  intros line Hn ctx cur o. destruct line as [|c tl].
  - simp parse_lines. eexists; eexists; reflexivity.
  - rewrite parse_lines_cons.
    destruct (always_returns_parse_line ctx cur
                (fst (scan_until is_eol (c :: tl))) o) as (r & o' & E).
    rewrite E. destruct r as [ctx' cur'|code ctx'].
    + eapply IH; [|reflexivity]. subst n. apply next_line_shorter.
    + eexists; eexists; reflexivity.
Qed.

Lemma always_returns_parse_string ctx data :
  always_returns (dmini_parse_string ctx data).
Proof.
  unfold dmini_parse_string.
  destruct ctx as [c|]; [|apply always_returns_ret].
  destruct data as [d|]; [|apply always_returns_ret].
  apply always_returns_bind; [apply always_returns_string_duplicate|].
  intros [b|]; [apply always_returns_parse_lines|apply always_returns_ret].
Qed.

Lemma always_returns_apply_operation op ctx :
  always_returns (apply_operation op ctx).
Proof.
  destruct op; simpl.
  - apply always_returns_parse_string.
  - apply always_returns_set_string.
  - apply always_returns_set_int.
  - apply always_returns_ret.
  - apply always_returns_ret.
Qed.

(** An induction principle for the loop: on the length of what is left. *)
Lemma parse_lines_ind (P : option dmini_context -> Prop) :
  (forall ctx cur raw o r o',
      P ctx -> parse_line ctx cur raw o = (Returns r, o') ->
      match r with Continue ctx' _ => P ctx' | Return _ ctx' => P ctx' end) ->
  forall line ctx cur o r o',
    P ctx -> parse_lines line ctx cur o = (Returns r, o') -> P (snd r).
Proof.
  intros Hstep line.
  remember (length line) as n eqn:Hn. revert line Hn.
  induction n as [n IH] using lt_wf_ind.
  intros line Hn ctx cur o r o' HP. destruct line as [|c tl].
  - simp parse_lines. intros H. inversion H; subst. exact HP.
  - rewrite parse_lines_cons.
    destruct (parse_line ctx cur (fst (scan_until is_eol (c :: tl))) o)
      as [[r1|] o1] eqn:E; [|discriminate].
    pose proof (Hstep _ _ _ _ _ _ HP E) as Hr.
    destruct r1 as [ctx' cur'|code ctx'].
    + eapply IH; [|reflexivity|assumption].
      subst n. apply next_line_shorter.
    + intros H. inversion H; subst. exact Hr.
Qed.

Lemma has_global_store ctx p s s' :
  has_global ctx -> load_section ctx p = Some s -> name s' = name s ->
  has_global (store_section ctx p (Some s')).
Proof.
  intros (c & g & rest & -> & Hc & Hg) Hl Hn.
  destruct p as [i|]; [|discriminate].
  simpl in *. rewrite Hc in *.
  destruct i as [|i]; simpl in *.
  - inversion Hl; subst. exists (mkContext (s' :: rest)), s', rest.
    repeat split; congruence.
  - exists (mkContext (g :: list_store rest i s')), g, (list_store rest i s').
    repeat split; assumption.
Qed.

Lemma set_pair_keeps_name s k v o r s' o' :
  set_pair_in_section (Some s) k v o = (Returns (r, s'), o') ->
  exists t, s' = Some t /\ name t = name s.
Proof.
  unfold set_pair_in_section. destruct k as [k|].
  - destruct (find_pair (Some s) (Some k)) as [j|]; unfold bind at 1;
      match goal with
      | |- context [read_value ?a ?b ?c ?d] =>
          destruct (read_value a b c d) as [[text|] o0]; [|discriminate]
      end;
      unfold bind, create_pair, string_duplicate, bind, ret, Dmod_Malloc;
      destruct text as [text|]; destruct o0 as [|[|] [|[|] [|[|] o0]]]; simpl;
      intros H; inversion H; subst; eexists; split; reflexivity.
  - intros H; inversion H; subst. eexists; split; reflexivity.
Qed.

Lemma has_global_get_or_create ctx n o ctx' p o' :
  has_global ctx ->
  get_or_create_section ctx n o = (Returns (ctx', p), o') -> has_global ctx'.
Proof.
  intros (c & g & rest & -> & Hc & Hg). unfold get_or_create_section.
  destruct (find_section (Some c) n).
  - intros H; inversion H; subst. exists c, g, rest. auto.
  - unfold bind, create_section, string_duplicate, bind, ret, Dmod_Malloc.
    destruct n as [n|]; destruct o as [|[|] [|[|] o]]; simpl;
      intros H; inversion H; subst;
      try (exists c, g, rest; auto; fail);
      (eexists; exists g; eexists; split; [reflexivity|];
       split; [simpl; rewrite Hc; reflexivity|assumption]).
Qed.

Lemma has_global_set_string ctx section k v o r ctx' o' :
  has_global ctx ->
  dmini_set_string ctx section k v o = (Returns (r, ctx'), o') ->
  has_global ctx'.
Proof.
  intros HG. unfold dmini_set_string.
  destruct HG as (c & g & rest & -> & Hc & Hg).
  assert (HG : has_global (Some c)) by (exists c, g, rest; auto).
  destruct k as [k|]; [|intros H; inversion H; subst; assumption].
  destruct v as [v|]; [|intros H; inversion H; subst; assumption].
  unfold bind at 1.
  destruct (get_or_create_section (Some c) section o)
    as [[[ctx1 sec]|] o1] eqn:E; [|discriminate].
  pose proof (has_global_get_or_create _ _ _ _ _ _ HG E) as HG1.
  destruct sec as [i|]; [|intros H; inversion H; subst; assumption].
  unfold bind.
  destruct (load_section ctx1 (Some i)) as [s|] eqn:L.
  - destruct (set_pair_in_section (Some s) (Some k) (Some v) o1)
      as [[[r1 s1]|] o2] eqn:S; [|discriminate].
    destruct (set_pair_keeps_name _ _ _ _ _ _ _ S) as (t & -> & Ht).
    intros H; inversion H; subst.
    eapply has_global_store; eassumption.
  - simpl. intros H; inversion H; subst.
    destruct ctx1; assumption.
Qed.

Lemma has_global_parse_line ctx cur raw o r o' :
  has_global ctx -> parse_line ctx cur raw o = (Returns r, o') ->
  match r with Continue ctx' _ => has_global ctx' | Return _ ctx' => has_global ctx' end.
Proof.
  intros HG. unfold parse_line. cbv zeta.
  destruct (trim_whitespace raw) as [|c after_c];
    [intros H; inversion H; subst; assumption|].
  destruct (char_eq c ";" || char_eq c "#");
    [intros H; inversion H; subst; assumption|].
  destruct (char_eq c "[").
  - destruct (scan_until (char_eq "]") after_c) as [inner [|e section_end]];
      [intros H; inversion H; subst; assumption|].
    unfold bind.
    destruct (get_or_create_section ctx (Some (trim_whitespace inner)) o)
      as [[[ctx1 sec]|] o1] eqn:E; [|discriminate].
    pose proof (has_global_get_or_create _ _ _ _ _ _ HG E) as HG1.
    destruct sec; intros H; inversion H; subst; assumption.
  - destruct (scan_until (char_eq "=") (c :: after_c)) as [before [|e after]];
      [intros H; inversion H; subst; assumption|].
    destruct (trim_whitespace before) as [|k0 k];
      [intros H; inversion H; subst; assumption|].
    unfold bind.
    destruct (load_section ctx cur) as [s|] eqn:L.
    + match goal with
      | |- context [set_pair_in_section ?a ?b ?c ?d] =>
          destruct (set_pair_in_section a b c d) as [[[r1 s1]|] o1] eqn:S;
            [|discriminate]
      end.
      destruct (set_pair_keeps_name _ _ _ _ _ _ _ S) as (t & -> & Ht).
      pose proof (has_global_store _ _ _ _ HG L Ht) as HG1.
      destruct (Z.eqb r1 DMINI_OK); intros H; inversion H; subst; assumption.
    + simpl. assert (store_section ctx cur None = ctx) as ->
        by (destruct ctx, cur; reflexivity).
      intros H; inversion H; subst; assumption.
Qed.

Lemma has_global_parse_string ctx data o r o' :
  has_global ctx ->
  dmini_parse_string ctx data o = (Returns r, o') -> has_global (snd r).
Proof.
  intros HG. unfold dmini_parse_string.
  destruct ctx as [c|]; [|intros H; inversion H; subst; assumption].
  destruct data as [d|]; [|intros H; inversion H; subst; assumption].
  unfold bind, string_duplicate, bind, ret.
  destruct (Dmod_Malloc o) as [[[|]|] o1];
    [|intros H; inversion H; subst; assumption|discriminate].
  apply parse_lines_ind; [|assumption].
  intros. eapply has_global_parse_line; eassumption.
Qed.

Lemma unlink_section_keeps_nameless l n l' :
  unlink_section l n = Some l' -> filter nameless l' = filter nameless l.
Proof.
  revert l'. induction l as [|s l IH]; intros l' H; simpl in H; [discriminate|].
  unfold nameless at 2. simpl.
  destruct (name s) as [m|] eqn:E.
  - destruct (strcmp_eq0 m n).
    + inversion H; subst. reflexivity.
    + destruct (unlink_section l n) as [l1|]; [|discriminate].
      inversion H; subst. simpl. unfold nameless at 1. rewrite E. now apply IH.
  - destruct (unlink_section l n) as [l1|]; [|discriminate].
    inversion H; subst. simpl. unfold nameless at 1. rewrite E.
    f_equal. now apply IH.
Qed.

Lemma has_global_remove_section ctx section :
  has_global ctx -> has_global (snd (dmini_remove_section ctx section)).
Proof.
  intros HG. pose proof HG as (c & g & rest & -> & Hc & Hg).
  unfold dmini_remove_section. destruct section as [n|]; [|assumption].
  rewrite Hc. simpl. rewrite Hg.
  destruct (unlink_section rest n) as [l|]; simpl; [|assumption].
  exists (mkContext (g :: l)), g, l. auto.
Qed.

Lemma has_global_remove_key ctx section k :
  has_global ctx -> has_global (snd (dmini_remove_key ctx section k)).
Proof.
  intros HG. pose proof HG as (c & g & rest & -> & Hc & Hg).
  unfold dmini_remove_key. destruct k as [k|]; [|assumption].
  destruct (load_section (Some c) (find_section (Some c) section)) as [s|] eqn:L;
    [|assumption].
  destruct (unlink_pair (pairs s) k) as [l|]; [|assumption].
  cbn [snd].
  exact (has_global_store _ _ s (mkSection (name s) l) HG L eq_refl).
Qed.

Lemma has_global_run ops : forall ctx o,
  has_global ctx ->
  exists ctx',
    fst (run_operations ops ctx o) = Returns ctx' /\ has_global ctx'.
Proof.
  induction ops as [|op ops IH]; intros ctx o HG; simpl;
    [exists ctx; auto|].
  unfold bind.
  destruct (always_returns_apply_operation op ctx o) as ([r ctx1] & o1 & E).
  rewrite E. apply IH. simpl.
  destruct op; simpl in E.
  - exact (has_global_parse_string _ _ _ _ _ HG E).
  - eapply has_global_set_string; eassumption.
  - unfold dmini_set_int in E. eapply has_global_set_string; eassumption.
  - unfold ret in E.
    pose proof (has_global_remove_section _ section HG) as H.
    replace (dmini_remove_section ctx section) with (r, ctx1) in H
      by congruence.
    exact H.
  - unfold ret in E.
    pose proof (has_global_remove_key _ section k HG) as H.
    replace (dmini_remove_key ctx section k) with (r, ctx1) in H
      by congruence.
    exact H.
Qed.

(** C4: a context made by [dmini_create] keeps its nameless global section
    as its first section through every sequence of parse, set and remove
    calls, whatever the allocator answers.  [dmini_remove_section] returns
    [DMINI_ERR_INVALID] for a null name and leaves the context alone, and
    for a name it leaves every nameless section in place. *)
Theorem global_section_stays
  (o o1 o2 : oracle) (c : dmini_context) (ops : list operation) :
  dmini_create o = (Returns (Some c), o1) ->
  exists ctx',
    fst (run_operations ops (Some c) o2) = Returns ctx' /\
    has_global ctx' /\
    dmini_has_section ctx' None = 1 /\
    dmini_remove_section ctx' None = (DMINI_ERR_INVALID, ctx') /\
    forall n, exists c' c'',
      ctx' = Some c' /\
      snd (dmini_remove_section ctx' (Some n)) = Some c'' /\
      filter nameless (sections c'') = filter nameless (sections c').
Proof.
  intros Hcreate.
  apply dmini_create_some in Hcreate. subst c.
  destruct (has_global_run ops (Some (mkContext [mkSection None []])) o2)
    as (ctx' & Erun & HG).
  { exists (mkContext [mkSection None []]).
    exists (mkSection None []), []. auto. }
  exists ctx'. split; [exact Erun|].
  split; [exact HG|].
  destruct HG as (c' & g & rest & E & Hc & Hg). rewrite E.
  split; [|split].
  - unfold dmini_has_section, find_section. rewrite Hc. simpl.
    unfold section_matches. rewrite Hg. reflexivity.
  - reflexivity.
  - intros n. exists c'. unfold dmini_remove_section.
    destruct (unlink_section (sections c') n) as [l|] eqn:U.
    + exists (mkContext l). repeat split.
      simpl. eapply unlink_section_keeps_nameless; eassumption.
    + exists c'. repeat split.
Qed.

(** A context on which a section is set, removed, and text is parsed. *)
Lemma global_section_stays_witness :
  dmini_create [] = (Returns (Some (mkContext [mkSection None []])), []) /\
  exists ctx',
    fst (run_operations
           [OpSetString (Some (cs "s")) (Some (cs "k")) (Some (cs "v"));
            OpRemoveSection (Some (cs "s"));
            OpRemoveSection None;
            OpParseString (Some (cs "[a]" ++ [LF] ++ cs "x=1"));
            OpRemoveKey (Some (cs "a")) (Some (cs "x"))]
           (Some (mkContext [mkSection None []])) [true; false])
    = Returns ctx' /\
    has_global ctx'.
Proof.
  split; [reflexivity|].
  destruct (global_section_stays [] [] [true; false] _
              [OpSetString (Some (cs "s")) (Some (cs "k")) (Some (cs "v"));
               OpRemoveSection (Some (cs "s"));
               OpRemoveSection None;
               OpParseString (Some (cs "[a]" ++ [LF] ++ cs "x=1"));
               OpRemoveKey (Some (cs "a")) (Some (cs "x"))] eq_refl)
    as (ctx' & E & HG & _).
  exists ctx'. split; [exact E|exact HG].
Defined.

(* ====================================================================== *)
(** ** Overwriting in place *)
(* ====================================================================== *)

Lemma nth_error_list_store_same {A} (l : list A) i x y :
  nth_error l i = Some y -> nth_error (list_store l i x) i = Some x.
Proof.
  revert i. induction l as [|z l IH]; intros [|i] H; simpl in *;
    try discriminate; auto.
Qed.

Lemma nth_error_list_store_other {A} (l : list A) i i' x :
  i' <> i -> nth_error (list_store l i x) i' = nth_error l i'.
Proof.
  revert i i'. induction l as [|z l IH]; intros [|i] [|i'] H; simpl;
    try reflexivity; try congruence.
  apply IH. congruence.
Qed.

Lemma list_alter_length {A} (f : A -> A) (l : list A) i :
  length (list_alter f l i) = length l.
Proof.
  revert i. induction l as [|y l IH]; intros [|i]; simpl; auto.
Qed.

Lemma nth_error_list_alter_same {A} (f : A -> A) (l : list A) i y :
  nth_error l i = Some y -> nth_error (list_alter f l i) i = Some (f y).
Proof.
  revert i. induction l as [|z l IH]; intros [|i] H; simpl in *;
    try discriminate; auto.
  now inversion H.
Qed.

Lemma nth_error_list_alter_other {A} (f : A -> A) (l : list A) i i' :
  i' <> i -> nth_error (list_alter f l i) i' = nth_error l i'.
Proof.
  revert i i'. induction l as [|z l IH]; intros [|i] [|i'] H; simpl;
    try reflexivity; try congruence.
  apply IH. congruence.
Qed.

Lemma map_list_alter {A B} (g : A -> B) (f : A -> A) (l : list A) i :
  (forall y, g (f y) = g y) -> map g (list_alter f l i) = map g l.
Proof.
  intros H. revert i. induction l as [|z l IH]; intros [|i]; simpl;
    try reflexivity.
  - now rewrite H.
  - now rewrite IH.
Qed.

Lemma upsert_pair_idempotent l k v :
  upsert_pair (upsert_pair l k v) k v = upsert_pair l k v.
Proof.
  induction l as [|p l IH]; simpl.
  - now rewrite strcmp_eq0_refl.
  - destruct (strcmp_eq0 (key p) k) eqn:E; simpl; rewrite E.
    + reflexivity.
    + now rewrite IH.
Qed.

Lemma upsert_section_idempotent l sec k v :
  upsert_section (upsert_section l sec k v) sec k v = upsert_section l sec k v.
Proof.
  induction l as [|s l IH]; simpl.
  - assert (section_matches (mkSection sec [mkPair k (Some v)]) sec = true)
      as -> by now apply section_matches_name.
    simpl. now rewrite strcmp_eq0_refl.
  - destruct (section_matches s sec) eqn:E; simpl.
    + assert (section_matches
                (mkSection (name s) (upsert_pair (pairs s) k v)) sec = true)
        as ->.
      { apply section_matches_name. simpl. now apply section_matches_name. }
      simpl. now rewrite upsert_pair_idempotent.
    + rewrite E. now rewrite IH.
Qed.

(** X15: for a value string that the call does not release (any string but
    the stored values of the section itself) and without allocation failure,
    [dmini_set_string] called again with the same arguments returns
    [DMINI_OK] and leaves the context exactly as the first call left it.
    When the key is already in the section, the call keeps the number and
    the order of the sections and of the keys of the section, puts the new
    value at the place of the old one and changes nothing else. *)
Theorem set_string_overwrites_in_place
  (c : dmini_context) (section : option cstring) (k v : cstring) :
  exists c',
    runs_ok (dmini_set_string (Some c) section (Some k) (Some (Own v)))
            (DMINI_OK, Some c') /\
    runs_ok (dmini_set_string (Some c') section (Some k) (Some (Own v)))
            (DMINI_OK, Some c') /\
    forall i s j p,
      find_section (Some c) section = Some i ->
      load_section (Some c) (Some i) = Some s ->
      find_pair (Some s) (Some k) = Some j ->
      load_pair (Some s) (Some j) = Some p ->
      length (sections c') = length (sections c) /\
      (forall i', i' <> i ->
                  nth_error (sections c') i' = nth_error (sections c) i') /\
      exists s',
        load_section (Some c') (Some i) = Some s' /\
        name s' = name s /\
        length (pairs s') = length (pairs s) /\
        map key (pairs s') = map key (pairs s) /\
        nth_error (pairs s') j = Some (mkPair (key p) (Some v)) /\
        (forall j', j' <> j ->
                    nth_error (pairs s') j' = nth_error (pairs s) j').
Proof.
  exists (mkContext (upsert_section (sections c) section k v)).
  split; [apply runs_ok_set_string|].
  split.
  - pose proof (runs_ok_set_string
                  (mkContext (upsert_section (sections c) section k v))
                  section k v) as H.
    cbn [sections] in H. now rewrite upsert_section_idempotent in H.
  - intros i s j p Hi Hs Hj Hp. cbn [sections].
    unfold find_section in Hi. simpl in Hs, Hj, Hp.
    pose proof (upsert_section_found (sections c) section k v 0 i s Hi) as U.
    rewrite Nat.sub_0_r in U. rewrite <- (U Hs).
    pose proof (upsert_pair_found (pairs s) k v 0 j Hj) as V.
    rewrite Nat.sub_0_r in V. rewrite <- V.
    split; [apply list_store_length|].
    split; [intros i' Hi'; now apply nth_error_list_store_other|].
    eexists. split; [simpl; eapply nth_error_list_store_same; eassumption|].
    cbn [name pairs].
    split; [reflexivity|].
    split; [apply list_alter_length|].
    split; [now apply map_list_alter|].
    split;
      [exact (nth_error_list_alter_same
                (fun q => mkPair (key q) (Some v)) _ _ _ Hp)|].
    intros j' Hj'. now apply nth_error_list_alter_other.
Qed.

(** Setting [b] in a section [sec] with the keys [a], [b], [c]. *)
Lemma set_string_overwrites_in_place_witness :
  let c := mkContext [mkSection None [];
                      mkSection (Some (cs "sec"))
                        [mkPair (cs "a") (Some (cs "1"));
                         mkPair (cs "b") (Some (cs "2"));
                         mkPair (cs "c") (Some (cs "3"))]] in
  exists c',
    runs_ok (dmini_set_string (Some c) (Some (cs "sec")) (Some (cs "b"))
                              (Some (Own (cs "new"))))
            (DMINI_OK, Some c') /\
    length (sections c') = length (sections c) /\
    exists s',
      load_section (Some c') (Some 1%nat) = Some s' /\
      map key (pairs s') = [cs "a"; cs "b"; cs "c"] /\
      nth_error (pairs s') 1 = Some (mkPair (cs "b") (Some (cs "new"))).
Proof.
  intros c.
  destruct (set_string_overwrites_in_place c (Some (cs "sec")) (cs "b")
              (cs "new")) as (c' & H1 & _ & H3).
  exists c'. split; [exact H1|].
  destruct (H3 1%nat
              (mkSection (Some (cs "sec"))
                 [mkPair (cs "a") (Some (cs "1"));
                  mkPair (cs "b") (Some (cs "2"));
                  mkPair (cs "c") (Some (cs "3"))])
              1%nat (mkPair (cs "b") (Some (cs "2")))
              eq_refl eq_refl eq_refl eq_refl)
    as (L & _ & s' & Hs' & _ & _ & Hk & Hv & _).
  split; [exact L|]. exists s'. split; [exact Hs'|]. split; [exact Hk|exact Hv].
Defined.

(* ====================================================================== *)
(** ** The serializer *)
(* ====================================================================== *)

(** Appends brought to one shape. *)
Ltac norm_app :=
  unfold cs; repeat (first [rewrite <- app_assoc | rewrite app_nil_r | progress simpl]).

Lemma write_pairs_text l : forall out,
  Forall (fun p => value p <> None) l ->
  write_pairs l out = Some (out ++ concat (map pair_line l)).
Proof.
  induction l as [|p l IH]; intros out H; simpl.
  - now rewrite app_nil_r.
  - inversion H as [|? ? Hp Hl]; subst.
    unfold pair_line at 1, value_text.
    destruct (value p) as [v|]; [|congruence].
    rewrite (IH _ Hl). f_equal. now norm_app.
Qed.

Lemma write_sections_text l : forall out,
  values_stored l -> write_sections l out = Some (out ++ ini_text l).
Proof.
  induction l as [|s l IH]; intros out H; simpl.
  - now rewrite app_nil_r.
  - inversion H as [|? ? Hs Hl]; subst.
    rewrite (write_pairs_text _ _ Hs).
    unfold header_line, separator, cs.
    destruct (name s) as [n|].
    + destruct l as [|s' l'].
      * simpl. f_equal. now norm_app.
      * rewrite (IH _ Hl). f_equal. now norm_app.
    + rewrite (IH _ Hl). f_equal. rewrite <- !app_assoc.
      destruct l; reflexivity.
Qed.

Lemma size_pairs_total l : forall n,
  Forall (fun p => value p <> None) l ->
  size_pairs l n = Some (n + length (concat (map pair_line l)))%nat.
Proof.
  induction l as [|p l IH]; intros n H; simpl.
  - f_equal. lia.
  - inversion H as [|? ? Hp Hl]; subst.
    unfold pair_line at 1, value_text.
    destruct (value p) as [v|]; [|congruence].
    rewrite (IH _ Hl). f_equal. unfold strlen.
    unfold cs. repeat (rewrite length_app; simpl). lia.
Qed.

(** The planning pass and the writing pass agree, from any position. *)
Lemma size_and_write_agree l : forall n out,
  values_stored l -> length out = n ->
  exists n' out',
    size_sections l n = Some n' /\ write_sections l out = Some out' /\
    length out' = n'.
Proof.
  induction l as [|s l IH]; intros n out H Hlen; simpl.
  - exists n, out. auto.
  - inversion H as [|? ? Hs Hl]; subst.
    rewrite (size_pairs_total _ _ Hs), (write_pairs_text _ _ Hs).
    apply IH; [assumption|].
    destruct (name s) as [m|]; [destruct l|]; unfold strlen;
      rewrite ?length_app; simpl; rewrite ?length_app; simpl; lia.
Qed.

(** C5: without allocation failure [dmini_generate_string] returns the text
    of the sections in stored order: for a named section the line [[name]],
    then a line [key=value] per pair in stored order, then one empty line if
    another section follows; for a nameless section its pair lines only.
    With the global section first, the text begins with its pair lines, with
    no header before and no separator after them; nothing follows the pairs of
    the last section. *)
Theorem generate_string_format (c : dmini_context) :
  values_stored (sections c) ->
  runs_ok (dmini_generate_string (Some c)) (GenString (ini_text (sections c))) /\
  (forall g rest, sections c = g :: rest -> name g = None ->
     ini_text (sections c) = concat (map pair_line (pairs g)) ++ ini_text rest) /\
  (forall before s, sections c = before ++ [s] ->
     ini_text (sections c)
     = ini_text (before ++ [mkSection (name s) []])
       ++ concat (map pair_line (pairs s))).
Proof.
  intros H. split; [|split].
  - unfold dmini_generate_string.
    destruct (size_and_write_agree (sections c) 0 [] H eq_refl)
      as (n & out & Hn & Hout & _).
    rewrite Hn.
    eapply runs_ok_bind; [apply runs_ok_malloc|]. cbv beta iota.
    rewrite (write_sections_text _ [] H). apply runs_ok_ret.
  - intros g rest -> Hg. simpl. unfold header_line, separator. rewrite Hg.
    reflexivity.
  - intros before s ->. clear H.
    induction before as [|b before IH]; simpl.
    + unfold header_line, separator. simpl.
      destruct (name s); simpl; now rewrite ?app_nil_r.
    + rewrite IH. unfold separator.
      rewrite <- !app_assoc.
      destruct before; reflexivity.
Qed.

(** The context of the test [test_generate_string]. *)
Lemma generate_string_format_witness :
  let c := mkContext [mkSection None [mkPair (cs "global") (Some (cs "value"))];
                      mkSection (Some (cs "section1"))
                        [mkPair (cs "key1") (Some (cs "value1"))];
                      mkSection (Some (cs "empty")) []] in
  values_stored (sections c) /\
  runs_ok (dmini_generate_string (Some c))
    (GenString (cs "global=value" ++ [LF] ++
                cs "[section1]" ++ [LF] ++ cs "key1=value1" ++ [LF] ++ [LF] ++
                cs "[empty]" ++ [LF])).
Proof.
  intros c.
  assert (V : values_stored (sections c)).
  { repeat constructor; simpl; discriminate. }
  split; [exact V|].
  exact (proj1 (generate_string_format c V)).
Defined.

(** C7: the length that the planning pass computes is the number of bytes
    that the writing pass writes, so the buffer of that length plus one holds
    the text and its terminator exactly; that text is what
    [dmini_generate_string] returns when the allocation succeeds. *)
Theorem planned_size_is_written_size (c : dmini_context) :
  values_stored (sections c) ->
  exists buffer_size text,
    size_sections (sections c) 0 = Some buffer_size /\
    write_sections (sections c) [] = Some text /\
    length text = buffer_size /\
    runs_ok (dmini_generate_string (Some c)) (GenString text).
Proof.
  intros H.
  destruct (size_and_write_agree (sections c) 0 [] H eq_refl)
    as (n & out & Hn & Hout & Hlen).
  exists n, out. repeat split; try assumption.
  unfold dmini_generate_string. rewrite Hn.
  eapply runs_ok_bind; [apply runs_ok_malloc|]. cbv beta iota.
  rewrite Hout. apply runs_ok_ret.
Qed.

(** 45 bytes are planned for the context of the test, and 45 are written. *)
Lemma planned_size_is_written_size_witness :
  let c := mkContext [mkSection None [mkPair (cs "global") (Some (cs "value"))];
                      mkSection (Some (cs "section1"))
                        [mkPair (cs "key1") (Some (cs "value1"))];
                      mkSection (Some (cs "empty")) []] in
  values_stored (sections c) /\
  size_sections (sections c) 0 = Some 45%nat /\
  exists text, write_sections (sections c) [] = Some text /\ length text = 45%nat.
Proof.
  intros c.
  assert (V : values_stored (sections c)).
  { repeat constructor; simpl; discriminate. }
  split; [exact V|].
  destruct (planned_size_is_written_size c V) as (n & text & Hn & Ht & Hl & _).
  assert (E : n = 45%nat) by (vm_compute in Hn; congruence).
  rewrite E in Hn, Hl.
  split; [exact Hn|]. exists text. split; [exact Ht|exact Hl].
Defined.

(* ====================================================================== *)
(** ** The parser, line by line *)
(* ====================================================================== *)

Lemma scan_until_stop stop l e rest :
  Forall (fun c => stop c = false) l -> stop e = true ->
  scan_until stop (l ++ e :: rest) = (l, e :: rest).
Proof.
  intros Hl He. induction Hl as [|c l Hc Hl IH]; simpl.
  - now rewrite He.
  - now rewrite Hc, IH.
Qed.

Lemma scan_until_end stop l :
  Forall (fun c => stop c = false) l -> scan_until stop l = (l, []).
Proof.
  intros Hl. induction Hl as [|c l Hc Hl IH]; simpl; [reflexivity|].
  now rewrite Hc, IH.
Qed.

Lemma not_in_char_eq x l :
  ~ In x l -> Forall (fun c => char_eq x c = false) l.
Proof.
  intros H. apply Forall_forall. intros c Hc.
  apply char_eq_false. intros ->. contradiction.
Qed.

Lemma scan_until_found x l :
  In x l ->
  exists before after,
    scan_until (char_eq x) l = (before, x :: after) /\ ~ In x before.
Proof.
  induction l as [|c l IH]; intros H; [contradiction|]. simpl.
  destruct (char_eq x c) eqn:E.
  - apply char_eq_true in E. subst c. exists [], l. split; [reflexivity|].
    intros [].
  - apply char_eq_false in E. destruct H as [H|H]; [congruence|].
    destruct (IH H) as (b & a & Hs & Hb). rewrite Hs.
    exists (c :: b), a. split; [reflexivity|]. intros [F|F]; auto.
Qed.

(** One turn of the loop on a text that begins with a whole line. *)
Lemma parse_lines_line l e rest ctx cur o :
  Forall (fun c => is_eol c = false) l -> is_eol e = true ->
  parse_lines (l ++ e :: rest) ctx cur o =
  match parse_line ctx cur l o with
  | (Returns (Continue ctx' cur'), o') =>
      parse_lines (skip_terminator (e :: rest)) ctx' cur' o'
  | (Returns (Return code ctx'), o') => (Returns (code, ctx'), o')
  | (Faults, o') => (Faults, o')
  end.
Proof.
  intros Hl He.
  assert (S : scan_until is_eol (l ++ e :: rest) = (l, e :: rest))
    by now apply scan_until_stop.
  destruct (l ++ e :: rest) as [|c tl] eqn:E.
  - destruct l; discriminate.
  - rewrite parse_lines_cons, S. reflexivity.
Qed.

(** A malformed line changes neither the context nor the current section
    and asks for nothing from the allocator. *)
Lemma parse_line_malformed ctx cur raw o :
  malformed_line (trim_whitespace raw) ->
  parse_line ctx cur raw o = (Returns (Continue ctx cur), o).
Proof.
  intros H. unfold parse_line. cbv zeta.
  destruct H as [rest Hr|c rest Hc He|c rest Hc He Hk].
  - simpl. rewrite (scan_until_end _ _ (not_in_char_eq _ _ Hr)). reflexivity.
  - destruct (char_eq c ";" || char_eq c "#"); [reflexivity|].
    apply char_eq_false in Hc. rewrite Hc.
    rewrite (scan_until_end _ _ (not_in_char_eq _ _ He)). reflexivity.
  - destruct (char_eq c ";" || char_eq c "#"); [reflexivity|].
    apply char_eq_false in Hc. rewrite Hc.
    destruct (scan_until_found _ _ He) as (b & a & Hs & _).
    rewrite Hs in *. simpl in Hk. rewrite Hk. reflexivity.
Qed.

Lemma valid_pointer_store c i s s' :
  nth_error (sections c) i = Some s ->
  valid_pointer (store_section (Some c) (Some i) (Some s')) (Some i).
Proof.
  intros H. exists s'. simpl. eapply nth_error_list_store_same; eassumption.
Qed.

(** Without allocation failure, and with a current section, the body of the
    loop always goes on to the next line. *)
Lemma parse_line_continues c cur raw :
  valid_pointer (Some c) cur ->
  exists c' cur',
    runs_ok (parse_line (Some c) cur raw) (Continue (Some c') cur') /\
    valid_pointer (Some c') cur'.
Proof.
  intros V. unfold parse_line. cbv zeta.
  destruct (trim_whitespace raw) as [|a after_a];
    [exists c, cur; split; [apply runs_ok_ret|assumption]|].
  destruct (char_eq a ";" || char_eq a "#");
    [exists c, cur; split; [apply runs_ok_ret|assumption]|].
  destruct (char_eq a "[").
  - destruct (scan_until (char_eq "]") after_a) as [inner [|e section_end]];
      [exists c, cur; split; [apply runs_ok_ret|assumption]|].
    pose proof (runs_ok_get_or_create c (Some (trim_whitespace inner))) as G.
    destruct (find_section (Some c) (Some (trim_whitespace inner)))
      as [i|] eqn:F.
    + exists c, (Some i). split.
      * eapply runs_ok_bind; [exact G|]. apply runs_ok_ret.
      * destruct (find_section_from_found _ _ _ _ F) as [_ [s [Hs _]]].
        rewrite Nat.sub_0_r in Hs. exists s. exact Hs.
    + eexists. eexists. split.
      * eapply runs_ok_bind; [exact G|]. apply runs_ok_ret.
      * eexists. simpl. apply nth_error_app_last.
  - destruct (scan_until (char_eq "=") (a :: after_a)) as [before [|e after]];
      [exists c, cur; split; [apply runs_ok_ret|assumption]|].
    destruct (trim_whitespace before) as [|k0 k];
      [exists c, cur; split; [apply runs_ok_ret|assumption]|].
    destruct V as [s Hs]. rewrite Hs.
    destruct cur as [i|]; [|discriminate].
    eexists. exists (Some i). split.
    + eapply runs_ok_bind; [apply runs_ok_set_pair|]. cbv beta iota.
      simpl Z.eqb. cbv iota. apply runs_ok_ret.
    + eapply valid_pointer_store. exact Hs.
Qed.

Lemma parse_lines_succeeds line : forall c cur,
  valid_pointer (Some c) cur ->
  exists c', runs_ok (parse_lines line (Some c) cur) (DMINI_OK, Some c').
Proof.
  remember (length line) as n eqn:Hn. revert line Hn.
  induction n as [n IH] using lt_wf_ind.
  intros line Hn c cur V. destruct line as [|a tl].
  - exists c. intros o Ho. exists o. simp parse_lines. auto.
  - destruct (parse_line_continues c cur (fst (scan_until is_eol (a :: tl))) V)
      as (c1 & cur1 & R1 & V1).
    destruct (IH _ ltac:(subst n; apply (next_line_shorter a tl)) _ eq_refl
                 c1 cur1 V1) as (c2 & R2).
    exists c2. intros o Ho. rewrite parse_lines_cons.
    destruct (R1 o Ho) as (o1 & E1 & Ho1). rewrite E1.
    apply R2. exact Ho1.
Qed.

(** C6: [dmini_parse_string] tolerates malformed lines.  A line that after
    trimming begins with [[] and has no []], a line with no [=], and a line
    whose key before the [=] trims to nothing leave the context and the
    current section as they are and the loop goes on with the text after the
    line terminator; and without allocation failure the function returns
    [DMINI_OK] on every text, for a context that has its global section. *)
Theorem parse_string_tolerates_malformed_lines :
  (forall ctx cur raw o,
      malformed_line (trim_whitespace raw) ->
      parse_line ctx cur raw o = (Returns (Continue ctx cur), o)) /\
  (forall ctx cur raw e rest o,
      malformed_line (trim_whitespace raw) ->
      Forall (fun c => is_eol c = false) raw -> is_eol e = true ->
      parse_lines (raw ++ e :: rest) ctx cur o
      = parse_lines (skip_terminator (e :: rest)) ctx cur o) /\
  (forall c data,
      sections c <> [] ->
      exists c',
        runs_ok (dmini_parse_string (Some c) (Some data))
                (DMINI_OK, Some c')).
Proof.
  split; [|split].
  - apply parse_line_malformed.
  - intros ctx cur raw e rest o M Hraw He.
    rewrite (parse_lines_line _ _ _ _ _ _ Hraw He).
    now rewrite (parse_line_malformed _ _ _ _ M).
  - intros c data Hc.
    assert (V : valid_pointer (Some c) (first_section (Some c))).
    { simpl. destruct (sections c) as [|g rest] eqn:E; [congruence|].
      exists g. simpl. now rewrite E. }
    destruct (parse_lines_succeeds data c _ V) as (c' & R).
    exists c'. unfold dmini_parse_string.
    eapply runs_ok_bind; [apply runs_ok_string_duplicate|]. exact R.
Qed.

(** A text with an unclosed header, a line without [=] and a line with an
    empty key around one good line: only the good line is stored. *)
Lemma parse_string_tolerates_malformed_lines_witness :
  malformed_line (trim_whitespace (cs "  [broken")) /\
  malformed_line (trim_whitespace (cs "no equals sign")) /\
  malformed_line (trim_whitespace (cs " = orphan")) /\
  parse_lines (cs "[broken" ++ [LF] ++ cs "k=v") (Some (mkContext [mkSection None []]))
              (Some 0%nat) []
  = parse_lines (cs "k=v") (Some (mkContext [mkSection None []])) (Some 0%nat) [] /\
  exists c',
    runs_ok (dmini_parse_string (Some (mkContext [mkSection None []]))
               (Some (cs "[broken" ++ [LF] ++ cs "no equals sign" ++ [CR; LF]
                      ++ cs " = orphan" ++ [LF] ++ cs "k=v")))
            (DMINI_OK, Some c').
Proof.
  assert (M1 : malformed_line (trim_whitespace (cs "  [broken"))).
  { apply unclosed_header. simpl. intros H.
    repeat (destruct H as [H|H]; [discriminate H|]). exact H. }
  assert (M2 : malformed_line (trim_whitespace (cs "no equals sign"))).
  { apply no_equals_sign; [discriminate|]. simpl. intros H.
    repeat (destruct H as [H|H]; [discriminate H|]). exact H. }
  assert (M3 : malformed_line (trim_whitespace (cs " = orphan"))).
  { apply empty_key; [discriminate|simpl; auto|reflexivity]. }
  assert (M4 : malformed_line (trim_whitespace (cs "[broken"))).
  { apply unclosed_header. simpl. intros H.
    repeat (destruct H as [H|H]; [discriminate H|]). exact H. }
  destruct parse_string_tolerates_malformed_lines as (_ & T2 & T3).
  split; [exact M1|]. split; [exact M2|]. split; [exact M3|]. split.
  - apply (T2 _ _ (cs "[broken") LF (cs "k=v") [] M4);
      [repeat constructor|reflexivity].
  - apply T3. discriminate.
Defined.

(* ====================================================================== *)
(** ** Trimming and scanning clean strings *)
(* ====================================================================== *)

Lemma is_eol_is_space c : is_eol c = true -> is_space c = true.
Proof.
  unfold is_eol, is_space.
  destruct (char_eq c LF), (char_eq c CR), (char_eq c SPACE), (char_eq c TAB);
    simpl; congruence.
Qed.

Lemma not_space_not_eol c : is_space c = false -> is_eol c = false.
Proof.
  intros H. destruct (is_eol c) eqn:E; [|reflexivity].
  apply is_eol_is_space in E. congruence.
Qed.

Lemma strip_trailing_last x e :
  is_space e = false -> strip_trailing (x ++ [e]) = x ++ [e].
Proof.
  intros He. induction x as [|c x IH]; simpl.
  - now rewrite He.
  - rewrite IH. destruct (x ++ [e]) eqn:E; [|reflexivity].
    destruct x; discriminate.
Qed.

Lemma strip_trailing_clean s :
  match rev s with [] => true | e :: _ => negb (is_space e) end = true ->
  strip_trailing s = s.
Proof.
  intros H. destruct (rev s) as [|e r] eqn:E.
  - apply (f_equal (@rev ascii)) in E. rewrite rev_involutive in E.
    now subst s.
  - apply (f_equal (@rev ascii)) in E. rewrite rev_involutive in E.
    simpl in E. subst s. apply strip_trailing_last.
    now apply negb_true_iff.
Qed.

Lemma trim_whitespace_clean s :
  no_outer_space s = true -> trim_whitespace s = s.
Proof.
  unfold no_outer_space, trim_whitespace. intros H.
  apply andb_prop in H. destruct H as [H1 H2].
  destruct s as [|c tl]; [reflexivity|].
  apply negb_true_iff in H1. simpl skip_leading. rewrite H1.
  f_equal. apply strip_trailing_clean.
  destruct tl as [|d tl]; [reflexivity|].
  simpl in *. destruct (rev tl ++ [d]) eqn:E; [destruct (rev tl); discriminate|].
  simpl in H2. exact H2.
Qed.

Lemma trim_whitespace_blanks s : blanks s = true -> trim_whitespace s = [].
Proof.
  unfold trim_whitespace. intros H.
  assert (E : skip_leading s = []).
  { induction s as [|c s IH]; [reflexivity|]. simpl in *.
    apply andb_prop in H. destruct H as [Hc Hs].
    assert (is_space c = true) as ->.
    { unfold is_space. destruct (char_eq c SPACE), (char_eq c TAB);
        simpl in *; congruence. }
    now apply IH. }
  now rewrite E.
Qed.

Lemma blanks_no_eol s : blanks s = true -> no_eol s = true.
Proof.
  unfold blanks, no_eol. intros H.
  apply forallb_forall. intros c Hc.
  pose proof (proj1 (forallb_forall _ _) H c Hc) as B.
  cbv beta in B. unfold is_eol.
  destruct (char_eq c SPACE) eqn:E1.
  - apply char_eq_true in E1. subst c. reflexivity.
  - destruct (char_eq c TAB) eqn:E2; [|discriminate B].
    apply char_eq_true in E2. subst c. reflexivity.
Qed.

Lemma no_char_not_in x s : no_char x s = true -> ~ In x s.
Proof.
  unfold no_char. intros H Hin.
  pose proof (proj1 (forallb_forall _ _) H x Hin) as B.
  apply negb_true_iff in B. apply char_eq_false in B. congruence.
Qed.

Lemma no_char_Forall x s :
  no_char x s = true -> Forall (fun c => char_eq x c = false) s.
Proof. intros H. apply not_in_char_eq. now apply no_char_not_in. Qed.

Lemma no_eol_Forall s :
  no_eol s = true -> Forall (fun c => is_eol c = false) s.
Proof.
  unfold no_eol. intros H. apply Forall_forall. intros c Hc.
  pose proof (proj1 (forallb_forall _ _) H c Hc) as B.
  now apply negb_true_iff.
Qed.

Lemma no_eol_app a b : no_eol (a ++ b) = no_eol a && no_eol b.
Proof. unfold no_eol. apply forallb_app. Qed.

Lemma no_outer_space_join a x b :
  a <> [] -> is_space x = false ->
  no_outer_space a = true -> no_outer_space b = true ->
  no_outer_space (a ++ x :: b) = true.
Proof.
  unfold no_outer_space. intros Ha Hx H1 H2.
  apply andb_prop in H1. destruct H1 as [A1 _].
  apply andb_prop in H2. destruct H2 as [_ B2].
  apply andb_true_intro. split.
  - destruct a; [congruence|]. exact A1.
  - rewrite rev_app_distr. simpl. rewrite <- app_assoc. simpl.
    destruct (rev b) as [|e r]; simpl.
    + now rewrite Hx.
    + exact B2.
Qed.

Lemma key_parses_head k :
  key_parses k = true ->
  exists c tl, k = c :: tl /\
    char_eq c "[" = false /\ char_eq c ";" = false /\ char_eq c "#" = false.
Proof.
  unfold key_parses. intros H. apply andb_prop in H. destruct H as [H _].
  destruct k as [|c tl]; [discriminate|]. exists c, tl.
  apply negb_true_iff in H.
  destruct (char_eq c "["), (char_eq c ";"), (char_eq c "#");
    simpl in H; try discriminate. auto.
Qed.

Lemma no_outer_space_head c tl :
  no_outer_space (c :: tl) = true -> is_space c = false.
Proof.
  unfold no_outer_space. intros H. apply andb_prop in H.
  destruct H as [H _]. now apply negb_true_iff.
Qed.

(** After a line terminator, a text that does not begin with another
    terminator is where the next line starts. *)
Lemma skip_terminator_next e c tl :
  is_eol c = false -> skip_terminator (e :: c :: tl) = c :: tl.
Proof. intros H. simpl. now rewrite H. Qed.

(* ====================================================================== *)
(** ** Header lines and pair lines *)
(* ====================================================================== *)

(** A header line: the current section becomes the one named by the trimmed
    text between the brackets. *)
Lemma parse_line_header c cur inner :
  no_char "]" inner = true ->
  runs_ok (parse_line (Some c) cur (cs "[" ++ inner ++ cs "]"))
          (Continue (fst (section_for c (Some (trim_whitespace inner))))
                    (snd (section_for c (Some (trim_whitespace inner))))).
Proof.
  intros Hi. unfold parse_line. cbv zeta.
  assert (T : trim_whitespace (cs "[" ++ inner ++ cs "]")
              = "["%char :: inner ++ ["]"%char]).
  { unfold trim_whitespace. simpl. f_equal. now apply strip_trailing_last. }
  rewrite T. simpl.
  rewrite (scan_until_stop (char_eq "]") inner "]" []
             (no_char_Forall _ _ Hi) eq_refl).
  eapply runs_ok_bind; [apply runs_ok_get_or_create|].
  fold (section_for c (Some (trim_whitespace inner))).
  unfold section_for.
  destruct (find_section (Some c) (Some (trim_whitespace inner)));
    apply runs_ok_ret.
Qed.

(** A pair line with a key that parses: the value is set in the current
    section. *)
Lemma parse_line_pair ctx cur s k v :
  load_section ctx cur = Some s ->
  key_parses k = true -> no_outer_space k = true -> no_outer_space v = true ->
  runs_ok (parse_line ctx cur (k ++ cs "=" ++ v))
          (Continue (store_section ctx cur
                       (Some (mkSection (name s) (upsert_pair (pairs s) k v))))
                    cur).
Proof.
  intros Hs Hk Kc Vc. unfold parse_line. cbv zeta.
  destruct (key_parses_head _ Hk) as (a & tl & -> & H1 & H2 & H3).
  assert (T : trim_whitespace ((a :: tl) ++ cs "=" ++ v)
              = (a :: tl) ++ "="%char :: v).
  { apply trim_whitespace_clean.
    apply no_outer_space_join; [discriminate|reflexivity|assumption..]. }
  rewrite T. simpl app. cbv beta iota. rewrite H2, H3. simpl orb. cbv iota.
  rewrite H1.
  change (a :: tl ++ "="%char :: v) with ((a :: tl) ++ "="%char :: v).
  unfold key_parses in Hk. apply andb_prop in Hk. destruct Hk as [_ Hk].
  rewrite (scan_until_stop (char_eq "=") (a :: tl) "=" v
             (no_char_Forall _ _ Hk) eq_refl).
  rewrite (trim_whitespace_clean _ Kc), (trim_whitespace_clean _ Vc).
  rewrite Hs.
  eapply runs_ok_bind; [apply runs_ok_set_pair|]. cbv beta iota.
  simpl Z.eqb. cbv iota. apply runs_ok_ret.
Qed.

(** The last line of a text, without a terminator. *)
Lemma parse_lines_last l ctx cur o :
  l <> [] -> Forall (fun c => is_eol c = false) l ->
  parse_lines l ctx cur o =
  match parse_line ctx cur l o with
  | (Returns (Continue ctx' _), o') => (Returns (DMINI_OK, ctx'), o')
  | (Returns (Return code ctx'), o') => (Returns (code, ctx'), o')
  | (Faults, o') => (Faults, o')
  end.
Proof.
  intros Hne Hl. destruct l as [|a tl]; [congruence|].
  rewrite parse_lines_cons, (scan_until_end _ _ Hl). simpl fst. simpl snd.
  destruct (parse_line ctx cur (a :: tl) o) as [[[ctx' cur'|code ctx']|] o'];
    [|reflexivity|reflexivity].
  simpl skip_terminator. now simp parse_lines.
Qed.

(** Setting a pair in the section that [get_or_create_section] returns is
    [upsert_section]. *)
Lemma section_for_upsert c sec k v :
  exists s,
    load_section (fst (section_for c sec)) (snd (section_for c sec)) = Some s /\
    store_section (fst (section_for c sec)) (snd (section_for c sec))
      (Some (mkSection (name s) (upsert_pair (pairs s) k v)))
    = Some (mkContext (upsert_section (sections c) sec k v)).
Proof.
  unfold section_for, find_section.
  destruct (find_section_from (sections c) sec 0) as [i|] eqn:F; cbn [fst snd].
  - destruct (find_section_from_found _ _ _ _ F) as [_ [s [Hs _]]].
    rewrite Nat.sub_0_r in Hs. exists s. split; [exact Hs|].
    unfold store_section.
    pose proof (upsert_section_found (sections c) sec k v 0 i s F) as U.
    rewrite Nat.sub_0_r in U. now rewrite (U Hs).
  - exists (mkSection sec []). split; [simpl; apply nth_error_app_last|].
    unfold store_section. cbn [sections name pairs upsert_pair].
    rewrite list_store_app_last.
    now rewrite (upsert_section_missing _ _ k v F).
Qed.

(* ====================================================================== *)
(** ** Looking up after a set *)
(* ====================================================================== *)

Lemma load_find_section l n : forall i,
  match find_section_from l n i with
  | Some j => nth_error l (j - i)
  | None => None
  end = lookup_section l n.
Proof.
  induction l as [|s l IH]; intros i; simpl; [reflexivity|].
  destruct (section_matches s n).
  - now rewrite Nat.sub_diag.
  - rewrite <- (IH (S i)).
    destruct (find_section_from l n (S i)) as [j|] eqn:F; [|reflexivity].
    destruct (find_section_from_found _ _ _ _ F) as [Hle _].
    replace (j - i)%nat with (S (j - S i)) by lia. reflexivity.
Qed.

Lemma load_find_pair l k : forall i,
  match find_pair_from l k i with
  | Some j => nth_error l (j - i)
  | None => None
  end = lookup_pair l k.
Proof.
  induction l as [|p l IH]; intros i; simpl; [reflexivity|].
  destruct (strcmp_eq0 (key p) k).
  - now rewrite Nat.sub_diag.
  - rewrite <- (IH (S i)).
    destruct (find_pair_from l k (S i)) as [j|] eqn:F; [|reflexivity].
    destruct (find_pair_from_found _ _ _ _ F) as [Hle _].
    replace (j - i)%nat with (S (j - S i)) by lia. reflexivity.
Qed.

(** [dmini_get_string] and [dmini_has_key] in terms of the two lookups. *)
Lemma get_string_lookup c section k d :
  dmini_get_string (Some c) section (Some k) d =
  match lookup_section (sections c) section with
  | None => d
  | Some s => match lookup_pair (pairs s) k with
              | None => d
              | Some p => value p
              end
  end.
Proof.
  unfold dmini_get_string, find_section.
  rewrite <- (load_find_section (sections c) section 0).
  destruct (find_section_from (sections c) section 0) as [i|] eqn:F;
    [|reflexivity].
  rewrite Nat.sub_0_r. simpl load_section.
  destruct (find_section_from_found _ _ _ _ F) as [_ [s [Hs _]]].
  rewrite Nat.sub_0_r in Hs. rewrite Hs.
  unfold find_pair, load_pair.
  rewrite <- (load_find_pair (pairs s) k 0).
  destruct (find_pair_from (pairs s) k 0) as [j|] eqn:P; [|reflexivity].
  rewrite Nat.sub_0_r.
  destruct (find_pair_from_found _ _ _ _ P) as [_ [p [Hp _]]].
  rewrite Nat.sub_0_r in Hp. now rewrite Hp.
Qed.

Lemma has_key_lookup c section k :
  dmini_has_key (Some c) section (Some k) =
  match lookup_section (sections c) section with
  | None => 0
  | Some s => match lookup_pair (pairs s) k with
              | None => 0
              | Some _ => 1
              end
  end.
Proof.
  unfold dmini_has_key, find_section.
  rewrite <- (load_find_section (sections c) section 0).
  destruct (find_section_from (sections c) section 0) as [i|] eqn:F;
    [|reflexivity].
  rewrite Nat.sub_0_r. simpl load_section.
  destruct (find_section_from_found _ _ _ _ F) as [_ [s [Hs _]]].
  rewrite Nat.sub_0_r in Hs. rewrite Hs.
  unfold find_pair.
  rewrite <- (load_find_pair (pairs s) k 0).
  destruct (find_pair_from (pairs s) k 0) as [j|] eqn:P; [|reflexivity].
  rewrite Nat.sub_0_r.
  destruct (find_pair_from_found _ _ _ _ P) as [_ [p [Hp _]]].
  rewrite Nat.sub_0_r in Hp. now rewrite Hp.
Qed.

Lemma has_section_lookup c section :
  dmini_has_section (Some c) section =
  match lookup_section (sections c) section with
  | None => 0
  | Some _ => 1
  end.
Proof.
  unfold dmini_has_section, find_section.
  rewrite <- (load_find_section (sections c) section 0).
  destruct (find_section_from (sections c) section 0) as [i|] eqn:F;
    [|reflexivity].
  destruct (find_section_from_found _ _ _ _ F) as [_ [s [Hs _]]].
  now rewrite Hs.
Qed.

Lemma lookup_pair_upsert l k v :
  exists p, lookup_pair (upsert_pair l k v) k = Some p /\ value p = Some v.
Proof.
  induction l as [|q l IH]; simpl.
  - rewrite strcmp_eq0_refl. eexists; split; reflexivity.
  - destruct (strcmp_eq0 (key q) k) eqn:E; simpl; rewrite E.
    + eexists; split; reflexivity.
    + exact IH.
Qed.

Lemma lookup_section_upsert l sec k v :
  exists s,
    lookup_section (upsert_section l sec k v) sec = Some s /\
    name s = sec /\
    exists p, lookup_pair (pairs s) k = Some p /\ value p = Some v.
Proof.
  induction l as [|q l IH]; simpl.
  - assert (section_matches (mkSection sec [mkPair k (Some v)]) sec = true)
      as -> by now apply section_matches_name.
    eexists. split; [reflexivity|]. split; [reflexivity|].
    simpl. rewrite strcmp_eq0_refl. eexists; split; reflexivity.
  - destruct (section_matches q sec) eqn:E; simpl.
    + assert (section_matches
                (mkSection (name q) (upsert_pair (pairs q) k v)) sec = true)
        as ->.
      { apply section_matches_name. simpl. now apply section_matches_name. }
      eexists. split; [reflexivity|].
      split; [simpl; now apply section_matches_name|].
      apply lookup_pair_upsert.
    + rewrite E. exact IH.
Qed.

Lemma lookup_section_upsert_other l sec k v sec' :
  sec' <> sec ->
  lookup_section (upsert_section l sec k v) sec' = lookup_section l sec'.
Proof.
  intros Hne. induction l as [|q l IH]; simpl.
  - assert (section_matches (mkSection sec [mkPair k (Some v)]) sec' = false)
      as ->; [|reflexivity].
    destruct (section_matches _ sec') eqn:E; [|reflexivity].
    apply section_matches_name in E. simpl in E. congruence.
  - destruct (section_matches q sec) eqn:E; simpl.
    + assert (N : section_matches q sec' = false).
      { destruct (section_matches q sec') eqn:E'; [|reflexivity].
        apply section_matches_name in E, E'. congruence. }
      rewrite N.
      assert (section_matches
                (mkSection (name q) (upsert_pair (pairs q) k v)) sec' = false)
        as ->; [|reflexivity].
      destruct (section_matches _ sec') eqn:E'; [|reflexivity].
      apply section_matches_name in E, E'. simpl in E'. congruence.
    + destruct (section_matches q sec'); [reflexivity|exact IH].
Qed.

(** A pair whose value pointer is null (what a failed update leaves behind)
    has no string to convert: [dmini_get_int] takes the null pointer that
    [dmini_get_string] returns for "not found". *)
Lemma get_int_null_value s k d :
  dmini_get_int (Some (mkContext [mkSection s [mkPair k None]])) s (Some k) d = d.
Proof.
  unfold dmini_get_int. rewrite get_string_lookup. simpl.
  assert (section_matches (mkSection s [mkPair k None]) s = true) as ->
    by now apply section_matches_name.
  simpl. now rewrite strcmp_eq0_refl.
Qed.

(* ====================================================================== *)
(** ** A header with nothing between the brackets *)
(* ====================================================================== *)

(** C10: a header line whose brackets enclose only blanks makes the section
    named by the empty string the current section.  That section is a named
    one, not the global section: the pair of the next line is stored in it
    and is read back with the section name [""], [dmini_has_section] finds
    the name [""], and every lookup with a null section name, like the global
    section itself, is as it was before. *)
Theorem empty_header_opens_empty_named_section
  (c : dmini_context) (ws k v : cstring) :
  has_global (Some c) ->
  blanks ws = true ->
  key_parses k = true -> no_eol k = true -> no_outer_space k = true ->
  no_eol v = true -> no_outer_space v = true ->
  exists c',
    runs_ok (dmini_parse_string (Some c)
               (Some (cs "[" ++ ws ++ cs "]" ++ [LF] ++ k ++ cs "=" ++ v)))
            (DMINI_OK, Some c') /\
    dmini_has_section (Some c') (Some []) = 1 /\
    (forall d, dmini_get_string (Some c') (Some []) (Some k) d = Some v) /\
    (exists i s,
        find_section (Some c') (Some []) = Some i /\
        load_section (Some c') (Some i) = Some s /\
        name s = Some [] /\
        find_section (Some c') None = Some 0%nat /\ i <> 0%nat) /\
    (forall k' d, dmini_get_string (Some c') None (Some k') d
                  = dmini_get_string (Some c) None (Some k') d) /\
    (forall k', dmini_has_key (Some c') None (Some k')
                = dmini_has_key (Some c) None (Some k')) /\
    nth_error (sections c') 0 = nth_error (sections c) 0.
Proof.
  intros HG Hws Hk Ke Ks Ve Vs.
  set (c' := mkContext (upsert_section (sections c) (Some []) k v)).
  exists c'.
  destruct (lookup_section_upsert (sections c) (Some []) k v)
    as (s & Ls & Ns & p & Lp & Vp).
  assert (Ls' : lookup_section (sections c') (Some []) = Some s) by exact Ls.
  assert (Hother : forall n, n = None ->
            lookup_section (sections c') n = lookup_section (sections c) n).
  { intros n ->. apply lookup_section_upsert_other. discriminate. }
  destruct HG as (c0 & g & rest & E0 & Hc & Hg). inversion E0; subst c0.
  assert (H0 : nth_error (sections c') 0 = Some g).
  { unfold c'. simpl. rewrite Hc. simpl. unfold section_matches.
    rewrite Hg. reflexivity. }
  split; [|split; [|split; [|split; [|split; [|split]]]]].
  - (* the run of the parser *)
    unfold dmini_parse_string.
    eapply runs_ok_bind; [apply runs_ok_string_duplicate|]. cbv beta iota.
    intros o Ho.
    assert (Hhdr : Forall (fun a => is_eol a = false) (cs "[" ++ ws ++ cs "]")).
    { apply no_eol_Forall. rewrite !no_eol_app.
      rewrite (blanks_no_eol _ Hws). reflexivity. }
    replace (cs "[" ++ ws ++ cs "]" ++ [LF] ++ k ++ cs "=" ++ v)
      with ((cs "[" ++ ws ++ cs "]") ++ LF :: (k ++ cs "=" ++ v))
      by (now rewrite <- !app_assoc).
    rewrite (parse_lines_line _ LF _ _ _ _ Hhdr eq_refl).
    assert (Hws' : no_char "]" ws = true).
    { unfold no_char. apply forallb_forall. intros a Ha.
      pose proof (proj1 (forallb_forall _ _) Hws a Ha) as B. cbv beta in B.
      apply negb_true_iff. apply char_eq_false. intros <-. discriminate B. }
    destruct (parse_line_header c (first_section (Some c)) ws Hws' o Ho)
      as (o1 & E1 & Ho1).
    rewrite E1. rewrite (trim_whitespace_blanks _ Hws).
    destruct (key_parses_head _ Hk) as (a & tl & Ek & _).
    assert (Ha : is_eol a = false).
    { apply not_space_not_eol. subst k.
      now apply no_outer_space_head in Ks. }
    assert (Hline : Forall (fun a => is_eol a = false) (k ++ cs "=" ++ v)).
    { apply no_eol_Forall. rewrite !no_eol_app. now rewrite Ke, Ve. }
    assert (Hne : k ++ cs "=" ++ v <> []) by (subst k; discriminate).
    assert (skip_terminator (LF :: k ++ cs "=" ++ v) = k ++ cs "=" ++ v) as ->.
    { subst k. simpl app. now apply skip_terminator_next. }
    rewrite (parse_lines_last _ _ _ _ Hne Hline).
    destruct (section_for_upsert c (Some []) k v) as (s1 & L1 & S1).
    destruct (parse_line_pair _ _ s1 k v L1 Hk Ks Vs o1 Ho1)
      as (o2 & E2 & Ho2).
    rewrite E2, S1. exists o2. split; [reflexivity|assumption].
  - rewrite has_section_lookup. unfold c'. cbn [sections].
    now rewrite Ls.
  - intros d. rewrite get_string_lookup. unfold c'. cbn [sections].
    rewrite Ls, Lp. exact Vp.
  - pose proof (load_find_section (sections c') (Some []) 0) as F.
    rewrite Ls' in F.
    destruct (find_section_from (sections c') (Some []) 0) as [i|] eqn:Fi;
      [|discriminate].
    rewrite Nat.sub_0_r in F.
    exists i, s. split; [exact Fi|]. split; [exact F|]. split; [exact Ns|].
    split.
    + unfold find_section. destruct (sections c') as [|g' r'] eqn:E;
        [discriminate|].
      simpl in H0. inversion H0; subst g'. simpl. unfold section_matches.
      rewrite Hg. reflexivity.
    + intros ->. rewrite H0 in F. inversion F; subst. congruence.
  - intros k' d. rewrite !get_string_lookup. now rewrite Hother.
  - intros k'. rewrite !has_key_lookup. now rewrite Hother.
  - rewrite H0, Hc. reflexivity.
Qed.

(** The text [[]], [x=1] on a new context. *)
Lemma empty_header_opens_empty_named_section_witness :
  exists c',
    runs_ok (dmini_parse_string (Some (mkContext [mkSection None []]))
               (Some (cs "[" ++ cs "" ++ cs "]" ++ [LF] ++ cs "x" ++ cs "=" ++ cs "1")))
            (DMINI_OK, Some c') /\
    dmini_has_section (Some c') (Some []) = 1 /\
    dmini_get_string (Some c') (Some []) (Some (cs "x")) None = Some (cs "1") /\
    dmini_get_string (Some c') None (Some (cs "x")) (Some (cs "dflt"))
    = Some (cs "dflt").
Proof.
  assert (G : has_global (Some (mkContext [mkSection None []]))).
  { exists (mkContext [mkSection None []]), (mkSection None []), [].
    repeat split. }
  destruct (empty_header_opens_empty_named_section
              (mkContext [mkSection None []]) (cs "") (cs "x") (cs "1")
              G eq_refl eq_refl eq_refl eq_refl eq_refl eq_refl)
    as (c' & R & Hs & Hg & _ & Hn & _).
  exists c'. split; [exact R|]. split; [exact Hs|]. split; [apply Hg|].
  rewrite Hn. reflexivity.
Defined.

(* ====================================================================== *)
(** ** Models built by setting values *)
(* ====================================================================== *)

Lemma lookup_section_none l n :
  lookup_section l n = None <-> ~ In n (map name l).
Proof.
  induction l as [|s l IH]; simpl; [tauto|].
  destruct (section_matches s n) eqn:E.
  - apply section_matches_name in E. split; [discriminate|tauto].
  - assert (name s <> n) by (intro H; apply section_matches_name in H; congruence).
    rewrite IH. tauto.
Qed.

Lemma lookup_pair_none l k :
  lookup_pair l k = None <-> ~ In k (map key l).
Proof.
  induction l as [|p l IH]; simpl; [tauto|].
  destruct (strcmp_eq0 (key p) k) eqn:E.
  - apply strcmp_eq0_true in E. split; [discriminate|tauto].
  - apply strcmp_eq0_false in E. rewrite IH. tauto.
Qed.

Lemma upsert_pair_keys l k v :
  map key (upsert_pair l k v)
  = match lookup_pair l k with
    | Some _ => map key l
    | None => map key l ++ [k]
    end.
Proof.
  induction l as [|p l IH]; simpl; [reflexivity|].
  destruct (strcmp_eq0 (key p) k); simpl; [reflexivity|].
  rewrite IH. destruct (lookup_pair l k); reflexivity.
Qed.

Lemma upsert_section_names l sec k v :
  map name (upsert_section l sec k v)
  = match lookup_section l sec with
    | Some _ => map name l
    | None => map name l ++ [sec]
    end.
Proof.
  induction l as [|s l IH]; simpl; [reflexivity|].
  destruct (section_matches s sec); simpl; [reflexivity|].
  rewrite IH. destruct (lookup_section l sec); reflexivity.
Qed.

Lemma NoDup_snoc {A} (l : list A) x : NoDup l -> ~ In x l -> NoDup (l ++ [x]).
Proof.
  intros Hl Hx. apply NoDup_app; [assumption|repeat constructor; intros []|].
  intros a Ha [<-|[]]. contradiction.
Qed.

Lemma upsert_pair_NoDup l k v :
  NoDup (map key l) -> NoDup (map key (upsert_pair l k v)).
Proof.
  intros H. rewrite upsert_pair_keys.
  destruct (lookup_pair l k) eqn:E; [assumption|].
  apply NoDup_snoc; [assumption|]. now apply lookup_pair_none.
Qed.

Lemma upsert_pair_values l k v :
  Forall (fun p => value p <> None) l ->
  Forall (fun p => value p <> None) (upsert_pair l k v).
Proof.
  induction 1 as [|p l Hp Hl IH]; simpl.
  - repeat constructor. discriminate.
  - destruct (strcmp_eq0 (key p) k);
      constructor; try assumption. discriminate.
Qed.

Lemma upsert_section_Forall (P : dmini_section -> Prop) l sec k v :
  (forall s, P s -> P (mkSection (name s) (upsert_pair (pairs s) k v))) ->
  P (mkSection sec [mkPair k (Some v)]) ->
  Forall P l -> Forall P (upsert_section l sec k v).
Proof.
  intros Hs Hn. induction 1 as [|s l Ps Pl IH]; simpl.
  - repeat constructor. assumption.
  - destruct (section_matches s sec); constructor; auto.
Qed.

Lemma well_formed_upsert l sec k v :
  well_formed l -> well_formed (upsert_section l sec k v).
Proof.
  intros ((g & rest & -> & Hg) & Hn & Hk & Hv).
  split; [|split; [|split]].
  - simpl. destruct (section_matches g sec); eexists; eexists;
      (split; [reflexivity|exact Hg]).
  - rewrite upsert_section_names.
    destruct (lookup_section (g :: rest) sec) eqn:E; [assumption|].
    apply NoDup_snoc; [assumption|]. now apply lookup_section_none.
  - apply upsert_section_Forall; [| |assumption].
    + intros s Hs. simpl. now apply upsert_pair_NoDup.
    + simpl. repeat constructor. intros [].
  - apply upsert_section_Forall; [| |assumption].
    + intros s Hs. simpl. now apply upsert_pair_values.
    + simpl. repeat constructor. discriminate.
Qed.

Lemma well_formed_new : well_formed [mkSection None []].
Proof.
  split; [|split; [|split]].
  - exists (mkSection None []), []. auto.
  - simpl. repeat constructor. intros [].
  - repeat constructor.
  - repeat constructor.
Qed.

(** A setter leaves a well-formed model well formed when no allocation
    fails. *)
Lemma setter_well_formed op c :
  is_setter op = true -> well_formed (sections c) ->
  exists r c',
    runs_ok (apply_operation op (Some c)) (r, Some c') /\
    well_formed (sections c').
Proof.
  intros Hop Hc. destruct op as [d|sec k v|sec k n|sec|sec k]; try discriminate.
  - simpl. destruct k as [k|]; [destruct v as [v|]|].
    + eexists. eexists. split; [apply runs_ok_set_string|].
      simpl. now apply well_formed_upsert.
    + exists DMINI_ERR_INVALID, c. split; [apply runs_ok_ret|assumption].
    + exists DMINI_ERR_INVALID, c. split; [apply runs_ok_ret|assumption].
  - simpl. unfold dmini_set_int. destruct k as [k|].
    + eexists. eexists. split; [apply runs_ok_set_string|].
      simpl. now apply well_formed_upsert.
    + exists DMINI_ERR_INVALID, c. split; [apply runs_ok_ret|assumption].
Qed.

Lemma setters_well_formed ops : forall c,
  forallb is_setter ops = true -> well_formed (sections c) ->
  exists c',
    runs_ok (run_operations ops (Some c)) (Some c') /\
    well_formed (sections c').
Proof.
  induction ops as [|op ops IH]; intros c Hops Hc; simpl.
  - exists c. split; [apply runs_ok_ret|assumption].
  - simpl in Hops. apply andb_prop in Hops. destruct Hops as [Hop Hops].
    destruct (setter_well_formed op c Hop Hc) as (r & c1 & R1 & W1).
    destruct (IH c1 Hops W1) as (c2 & R2 & W2).
    exists c2. split; [|assumption].
    eapply runs_ok_bind; [exact R1|exact R2].
Qed.

(** A model populated by setters, without allocation failure, is well
    formed. *)
Lemma populate_well_formed ops o m :
  forallb is_setter ops = true -> never_fails o ->
  fst (populate ops o) = Returns (Some m) -> well_formed (sections m).
Proof.
  intros Hops Ho Hm.
  destruct (setters_well_formed ops (mkContext [mkSection None []]) Hops
              well_formed_new) as (c' & R & W).
  assert (P : runs_ok (populate ops) (Some c')).
  { unfold populate. eapply runs_ok_bind; [apply runs_ok_create|exact R]. }
  destruct (P o Ho) as (o' & E & _). rewrite E in Hm. simpl in Hm.
  inversion Hm; subst. exact W.
Qed.

(* ====================================================================== *)
(** ** Parsing the text of the serializer *)
(* ====================================================================== *)

Lemma runs_ok_generate c :
  values_stored (sections c) ->
  runs_ok (dmini_generate_string (Some c)) (GenString (ini_text (sections c))).
Proof.
  intros H. unfold dmini_generate_string.
  destruct (size_and_write_agree (sections c) 0 [] H eq_refl)
    as (n & out & Hn & Hout & _).
  rewrite Hn.
  eapply runs_ok_bind; [apply runs_ok_malloc|]. cbv beta iota.
  rewrite (write_sections_text _ [] H). apply runs_ok_ret.
Qed.

Lemma pair_reads_back_line p :
  pair_reads_back p ->
  exists k v a tl,
    p = mkPair k (Some v) /\ k = a :: tl /\ is_eol a = false /\
    pair_line p = (k ++ cs "=" ++ v) ++ [LF] /\
    Forall (fun c => is_eol c = false) (k ++ cs "=" ++ v) /\
    key_parses k = true /\ no_outer_space k = true /\
    no_outer_space v = true.
Proof.
  intros (Hk & Ke & Ks & v & Hv & Ve & Vs).
  destruct p as [k v']. simpl in *. subst v'.
  destruct (key_parses_head _ Hk) as (a & tl & Ek & _).
  exists k, v, a, tl. split; [reflexivity|]. split; [exact Ek|].
  split.
  { apply not_space_not_eol. subst k. now apply no_outer_space_head in Ks. }
  split.
  { unfold pair_line, value_text. simpl. now rewrite <- !app_assoc. }
  split.
  { apply no_eol_Forall. rewrite no_eol_app, Ke. exact Ve. }
  auto.
Qed.

(** The pair lines of one section, read into the current section, which is
    the last one of the list and already holds the pairs [qs]. *)
Lemma parse_pair_lines ps : forall done nm qs rest r,
  Forall pair_reads_back ps ->
  NoDup (map key (qs ++ ps)) ->
  runs_ok (parse_lines (skip_terminator (LF :: rest))
             (Some (mkContext (done ++ [mkSection nm (qs ++ ps)])))
             (Some (length done))) r ->
  runs_ok (parse_lines (skip_terminator (LF :: concat (map pair_line ps) ++ rest))
             (Some (mkContext (done ++ [mkSection nm qs])))
             (Some (length done))) r.
Proof.
  induction ps as [|p ps IH]; intros done nm qs rest r Hps Hnd Hrest.
  - rewrite app_nil_r in Hrest. exact Hrest.
  - inversion Hps as [|? ? Hp Hps']; subst.
    destruct (pair_reads_back_line p Hp)
      as (k & v & a & tl & Ep & Ek & Ha & El & Hl & Kp & Ks & Vs).
    assert (Etext : concat (map pair_line (p :: ps)) ++ rest
                    = (k ++ cs "=" ++ v) ++
                      LF :: (concat (map pair_line ps) ++ rest)).
    { simpl concat. rewrite El. now rewrite <- !app_assoc. }
    rewrite Etext.
    assert (skip_terminator
              (LF :: (k ++ cs "=" ++ v) ++ LF :: concat (map pair_line ps) ++ rest)
            = (k ++ cs "=" ++ v) ++ LF :: concat (map pair_line ps) ++ rest) as ->.
    { rewrite Ek. simpl app. now apply skip_terminator_next. }
    intros o Ho.
    rewrite (parse_lines_line _ LF _ _ _ _ Hl eq_refl).
    assert (L : load_section (Some (mkContext (done ++ [mkSection nm qs])))
                  (Some (length done)) = Some (mkSection nm qs))
      by (simpl; apply nth_error_app_last).
    destruct (parse_line_pair _ _ _ k v L Kp Ks Vs o Ho) as (o1 & E1 & Ho1).
    rewrite E1. cbn [store_section sections name pairs].
    rewrite list_store_app_last.
    assert (Hk : ~ In k (map key qs)).
    { rewrite map_app in Hnd. subst p. simpl in Hnd.
      apply NoDup_remove_2 in Hnd. intros F. apply Hnd.
      apply in_or_app. now left. }
    rewrite (upsert_pair_missing qs k v
               (proj2 (find_pair_from_none qs k 0) Hk)).
    rewrite <- Ep.
    apply (IH done nm (qs ++ [p]) rest r Hps'); [| |exact Ho1].
    + now rewrite <- app_assoc.
    + now rewrite <- app_assoc.
Qed.

Lemma ini_text_starts l s :
  section_reads_back s ->
  skip_terminator (LF :: ini_text (s :: l)) = ini_text (s :: l).
Proof.
  intros ((n & Hn & _) & _). simpl. unfold header_line. rewrite Hn. reflexivity.
Qed.

(** The named sections, read after the sections [done]. *)
Lemma parse_section_texts ss : forall done cur,
  Forall section_reads_back ss ->
  NoDup (map name (done ++ ss)) ->
  runs_ok (parse_lines (ini_text ss) (Some (mkContext done)) cur)
          (DMINI_OK, Some (mkContext (done ++ ss))).
Proof.
  induction ss as [|s next IH]; intros done cur Hss Hnd.
  - rewrite app_nil_r. simpl. intros o Ho. exists o.
    simp parse_lines. auto.
  - inversion Hss as [|? ? Hs Hnext]; subst.
    destruct Hs as ((n & Hn & Np) & Hps & Hkeys).
    unfold name_parses in Np. apply andb_prop in Np. destruct Np as [Np N3].
    apply andb_prop in Np. destruct Np as [N1 N2].
    assert (Es : s = mkSection (Some n) (pairs s))
      by (destruct s; simpl in *; congruence).
    assert (Etext : ini_text (s :: next)
                    = (cs "[" ++ n ++ cs "]") ++
                      LF :: (concat (map pair_line (pairs s)) ++
                             separator s next ++ ini_text next)).
    { simpl ini_text. unfold header_line. rewrite Hn.
      now rewrite <- !app_assoc. }
    rewrite Etext.
    assert (Hhdr : Forall (fun a => is_eol a = false) (cs "[" ++ n ++ cs "]")).
    { apply no_eol_Forall. rewrite !no_eol_app. now rewrite N1. }
    assert (Hnew : find_section (Some (mkContext done)) (Some n) = None).
    { apply find_section_from_none. rewrite map_app in Hnd. simpl in Hnd.
      rewrite Hn in Hnd. apply NoDup_remove_2 in Hnd. intros F. apply Hnd.
      apply in_or_app. now left. }
    intros o Ho.
    rewrite (parse_lines_line _ LF _ _ _ _ Hhdr eq_refl).
    destruct (parse_line_header (mkContext done) cur n N3 o Ho)
      as (o1 & E1 & Ho1).
    rewrite E1. rewrite (trim_whitespace_clean _ N2).
    unfold section_for. rewrite Hnew. cbn [fst snd sections].
    revert o1 Ho1 E1. intros o1 Ho1 _. revert o1 Ho1.
    change (runs_ok
              (parse_lines
                 (skip_terminator
                    (LF :: concat (map pair_line (pairs s)) ++
                           separator s next ++ ini_text next))
                 (Some (mkContext (done ++ [mkSection (Some n) []])))
                 (Some (length done)))
              (DMINI_OK, Some (mkContext (done ++ s :: next)))).
    apply parse_pair_lines; [exact Hps|exact Hkeys|].
    simpl app. rewrite <- Es.
    destruct next as [|s' next'].
    + unfold separator. rewrite Hn. simpl.
      intros o2 Ho2. exists o2. simp parse_lines. auto.
    + unfold separator. rewrite Hn.
      assert (skip_terminator (LF :: [LF] ++ ini_text (s' :: next'))
              = ini_text (s' :: next')) as -> by reflexivity.
      replace (done ++ s :: s' :: next') with ((done ++ [s]) ++ s' :: next')
        by (now rewrite <- app_assoc).
      apply IH; [exact Hnext|]. now rewrite <- app_assoc.
Qed.

(** A well-formed model that meets the restrictions, as the sections the
    parser reads back. *)
Lemma restrictions_read_back l :
  well_formed l -> stated_restrictions l = true ->
  format_restrictions l = true ->
  exists g rest,
    l = g :: rest /\ name g = None /\
    Forall pair_reads_back (pairs g) /\ NoDup (map key (pairs g)) /\
    Forall section_reads_back rest.
Proof.
  intros ((g & rest & -> & Hg) & Hn & Hk & Hv) Hst Hfm.
  assert (P : forall s, In s (g :: rest) ->
                        Forall pair_reads_back (pairs s)).
  { intros s Hs. apply Forall_forall. intros p Hp.
    pose proof (proj1 (forallb_forall _ _) Hst s Hs) as A. cbv beta in A.
    pose proof (proj1 (forallb_forall _ _) A p Hp) as A1. cbv beta in A1.
    pose proof (proj1 (forallb_forall _ _) Hfm s Hs) as B. cbv beta in B.
    apply andb_prop in B. destruct B as [_ B].
    pose proof (proj1 (forallb_forall _ _) B p Hp) as B1. cbv beta in B1.
    pose proof (proj1 (Forall_forall _ _)
                  (proj1 (Forall_forall _ _) Hv s Hs) p Hp) as V.
    cbv beta in V.
    apply andb_prop in A1. destruct A1 as [Ak Av].
    unfold spec_clean in Ak. apply andb_prop in Ak. destruct Ak as [Ak1 Ak2].
    destruct (value p) as [v|] eqn:E; [|congruence].
    apply andb_prop in Av. destruct Av as [Av _].
    unfold spec_clean in Av. apply andb_prop in Av. destruct Av as [Av1 Av2].
    repeat split; try assumption. exists v. auto. }
  exists g, rest. split; [reflexivity|]. split; [exact Hg|].
  split; [apply P; now left|].
  split; [inversion Hk; assumption|].
  apply Forall_forall. intros s Hs.
  assert (Hs' : In s (g :: rest)) by now right.
  split; [|split].
  - pose proof (proj1 (forallb_forall _ _) Hfm s Hs') as B. cbv beta in B.
    apply andb_prop in B. destruct B as [B _].
    destruct (name s) as [n|] eqn:E.
    + exists n. auto.
    + exfalso. simpl in Hn. rewrite Hg in Hn. inversion Hn as [|? ? Hnot _].
      apply Hnot. rewrite <- E. now apply in_map.
  - now apply P.
  - exact (proj1 (Forall_forall _ _) Hk s Hs').
Qed.

Lemma text_starts_line ps rest :
  Forall pair_reads_back ps ->
  skip_terminator (LF :: rest) = rest ->
  skip_terminator (LF :: concat (map pair_line ps) ++ rest)
  = concat (map pair_line ps) ++ rest.
Proof.
  intros Hps Hrest. destruct ps as [|p ps]; [exact Hrest|].
  inversion Hps as [|? ? Hp _]; subst.
  destruct (pair_reads_back_line p Hp) as (k & v & a & tl & _ & Ek & Ha & El & _).
  simpl concat. rewrite El, Ek. simpl app. now apply skip_terminator_next.
Qed.

(** The text of a model that reads back, parsed in a new context. *)
Lemma parse_ini_text g rest :
  name g = None ->
  Forall pair_reads_back (pairs g) -> NoDup (map key (pairs g)) ->
  Forall section_reads_back rest -> NoDup (map name (g :: rest)) ->
  runs_ok (parse_in_new_context (ini_text (g :: rest)))
          (DMINI_OK, Some (mkContext (g :: rest))).
Proof.
  intros Hg Hps Hkeys Hrest Hnd. unfold parse_in_new_context.
  eapply runs_ok_bind; [apply runs_ok_create|].
  unfold dmini_parse_string.
  eapply runs_ok_bind; [apply runs_ok_string_duplicate|]. cbv beta iota.
  simpl first_section. simpl ini_text. unfold header_line, separator.
  rewrite Hg. simpl app.
  assert (Eg : g = mkSection None (pairs g))
    by (destruct g; simpl in *; congruence).
  assert (Hr : skip_terminator (LF :: ini_text rest) = ini_text rest).
  { destruct rest as [|s l]; [reflexivity|].
    inversion Hrest; subst. now apply ini_text_starts. }
  rewrite <- (text_starts_line (pairs g) (ini_text rest) Hps Hr).
  apply (parse_pair_lines (pairs g) [] None [] (ini_text rest)
           (DMINI_OK, Some (mkContext (g :: rest))) Hps Hkeys).
  rewrite Hr. simpl app. rewrite <- Eg.
  apply (parse_section_texts rest [g] (Some 0%nat) Hrest Hnd).
Qed.

(** C1, as stated, fails: the restrictions of the specification leave room
    for a key with an [=] in it, for an empty key, for a key that begins a
    comment or a header, and for section names that the header line does not
    give back. *)
Lemma roundtrip_as_stated_counterexample :
  roundtrip_breaks
    [OpSetString None (Some (cs "a=b")) (Some (cs "c"))]
    (mkContext [mkSection None [mkPair (cs "a=b") (Some (cs "c"))]])
    (cs "a=b=c" ++ [LF])
    (mkContext [mkSection None [mkPair (cs "a") (Some (cs "b=c"))]]) /\
  roundtrip_breaks
    [OpSetString None (Some (cs "")) (Some (cs "v"))]
    (mkContext [mkSection None [mkPair (cs "") (Some (cs "v"))]])
    (cs "=v" ++ [LF])
    (mkContext [mkSection None []]) /\
  roundtrip_breaks
    [OpSetInt None (Some (cs "#n")) 5]
    (mkContext [mkSection None [mkPair (cs "#n") (Some (cs "5"))]])
    (cs "#n=5" ++ [LF])
    (mkContext [mkSection None []]) /\
  roundtrip_breaks
    [OpSetString (Some (cs "s]x")) (Some (cs "k")) (Some (cs "v"))]
    (mkContext [mkSection None [];
                mkSection (Some (cs "s]x")) [mkPair (cs "k") (Some (cs "v"))]])
    (cs "[s]x]" ++ [LF] ++ cs "k=v" ++ [LF])
    (mkContext [mkSection None [];
                mkSection (Some (cs "s")) [mkPair (cs "k") (Some (cs "v"))]]) /\
  roundtrip_breaks
    [OpSetString (Some (cs " s")) (Some (cs "k")) (Some (cs "v"))]
    (mkContext [mkSection None [];
                mkSection (Some (cs " s")) [mkPair (cs "k") (Some (cs "v"))]])
    (cs "[ s]" ++ [LF] ++ cs "k=v" ++ [LF])
    (mkContext [mkSection None [];
                mkSection (Some (cs "s")) [mkPair (cs "k") (Some (cs "v"))]]).
Proof.
  repeat split; try reflexivity; vm_compute; intros H; discriminate H.
Qed.

(** C1, amended: a model built by [dmini_create] and calls of
    [dmini_set_string] and [dmini_set_int] without allocation failure, whose
    keys and values meet the stated restrictions, whose keys moreover are not
    empty, have no [=] and do not begin with [[], [;] or [#], and whose
    section names have no line break, no []] and no white space at their
    ends, is given back by [dmini_parse_string], in a new context, from the
    text of [dmini_generate_string]: same sections, keys and values in the
    same order. *)
Theorem roundtrip_generate_parse
  (ops : list operation) (o : oracle) (m : dmini_context) :
  forallb is_setter ops = true ->
  never_fails o ->
  fst (populate ops o) = Returns (Some m) ->
  stated_restrictions (sections m) = true ->
  format_restrictions (sections m) = true ->
  exists text,
    runs_ok (dmini_generate_string (Some m)) (GenString text) /\
    runs_ok (parse_in_new_context text) (DMINI_OK, Some m).
Proof.
  intros Hops Ho Hm Hst Hfm.
  pose proof (populate_well_formed ops o m Hops Ho Hm) as W.
  exists (ini_text (sections m)). split.
  - apply runs_ok_generate. apply W.
  - destruct (restrictions_read_back _ W Hst Hfm)
      as (g & rest & E & Hg & Hps & Hk & Hrest).
    destruct W as (_ & Hnd & _).
    destruct m as [l]. simpl in *. subst l.
    now apply parse_ini_text.
Qed.

(** A model like the ones of the tests [test_set_get] and
    [test_generate_string]: a global key, three named sections (one named by
    the empty string), an empty value, two numbers, and a key set twice. *)
Lemma roundtrip_generate_parse_witness :
  let ops :=
    [OpSetString None (Some (cs "global")) (Some (cs "value"));
     OpSetString (Some (cs "database")) (Some (cs "host")) (Some (cs "localhost"));
     OpSetInt (Some (cs "database")) (Some (cs "port")) 5432;
     OpSetString (Some (cs "")) (Some (cs "empty value")) (Some (cs ""));
     OpSetInt (Some (cs "limits")) (Some (cs "low")) (-2147483648);
     OpSetString (Some (cs "database")) (Some (cs "host")) (Some (cs "db.local"))] in
  exists m text,
    fst (populate ops []) = Returns (Some m) /\
    length (sections m) = 4%nat /\
    runs_ok (dmini_generate_string (Some m)) (GenString text) /\
    runs_ok (parse_in_new_context text) (DMINI_OK, Some m).
Proof.
  intros ops.
  destruct (fst (populate ops [])) as [[m|]|] eqn:E;
    [|discriminate E|discriminate E].
  assert (L : length (sections m) = 4%nat).
  { vm_compute in E. inversion E. reflexivity. }
  assert (S : stated_restrictions (sections m) = true).
  { vm_compute in E. inversion E. reflexivity. }
  assert (F : format_restrictions (sections m) = true).
  { vm_compute in E. inversion E. reflexivity. }
  destruct (roundtrip_generate_parse ops [] m eq_refl (Forall_nil _) E S F)
    as (text & G & P).
  exists m, text. split; [reflexivity|]. split; [exact L|].
  split; [exact G|exact P].
Defined.

(* ====================================================================== *)
(** ** What [trim_whitespace] removes *)
(* ====================================================================== *)

Lemma skip_leading_spaces ws s :
  forallb is_space ws = true -> skip_leading (ws ++ s) = skip_leading s.
Proof.
  induction ws as [|c ws IH]; intros H; simpl in *; [reflexivity|].
  apply andb_prop in H. destruct H as [Hc Hws]. rewrite Hc. now apply IH.
Qed.

Lemma strip_trailing_all_spaces ws :
  forallb is_space ws = true -> strip_trailing ws = [].
Proof.
  induction ws as [|c ws IH]; intros H; simpl in *; [reflexivity|].
  apply andb_prop in H. destruct H as [Hc Hws]. rewrite (IH Hws). now rewrite Hc.
Qed.

Lemma strip_trailing_spaces s ws :
  forallb is_space ws = true -> strip_trailing (s ++ ws) = strip_trailing s.
Proof.
  intros H. induction s as [|c s IH]; simpl.
  - now apply strip_trailing_all_spaces.
  - now rewrite IH.
Qed.

Lemma strip_trailing_keeps a e y :
  is_space e = false ->
  strip_trailing (a ++ e :: y) = a ++ e :: strip_trailing y.
Proof.
  intros He. induction a as [|c a IH]; simpl.
  - destruct (strip_trailing y); [now rewrite He|reflexivity].
  - rewrite IH. destruct (a ++ e :: strip_trailing y) eqn:E; [|reflexivity].
    destruct a; discriminate.
Qed.

Lemma skip_leading_split s :
  exists ws, forallb is_space ws = true /\ s = ws ++ skip_leading s /\
             match skip_leading s with
             | [] => True
             | c :: _ => is_space c = false
             end.
Proof.
  induction s as [|c s IH]; simpl.
  - exists []. auto.
  - destruct (is_space c) eqn:E.
    + destruct IH as (ws & Hws & Hs & Hh). exists (c :: ws). simpl.
      rewrite E, Hws. split; [reflexivity|]. split; [congruence|exact Hh].
    + exists []. auto.
Qed.

Lemma strip_trailing_split s :
  exists ws, forallb is_space ws = true /\ s = strip_trailing s ++ ws /\
             match rev (strip_trailing s) with
             | [] => True
             | e :: _ => is_space e = false
             end.
Proof.
  induction s as [|c s IH]; simpl.
  - exists []. auto.
  - destruct IH as (ws & Hws & Hs & Hl).
    destruct (strip_trailing s) as [|d r] eqn:E.
    + destruct (is_space c) eqn:Ec.
      * exists (c :: ws). simpl. rewrite Ec, Hws. simpl in Hs. subst s. auto.
      * exists ws. simpl in *. subst s. rewrite Ec. auto.
    + exists ws. split; [exact Hws|]. split; [simpl in *; congruence|].
      simpl in *. destruct (rev r ++ [d]) eqn:E'; [destruct (rev r); discriminate|].
      simpl. exact Hl.
Qed.

Lemma no_outer_space_trim s : no_outer_space (trim_whitespace s) = true.
Proof.
  unfold trim_whitespace.
  destruct (skip_leading_split s) as (ws & _ & _ & Hh).
  destruct (skip_leading s) as [|c tl]; [reflexivity|].
  destruct (strip_trailing_split tl) as (ws' & _ & _ & Hl).
  unfold no_outer_space. rewrite Hh. simpl.
  destruct (rev (strip_trailing tl)) as [|e r]; simpl.
  - now rewrite Hh.
  - now rewrite Hl.
Qed.

Lemma skip_leading_all_spaces ws :
  forallb is_space ws = true -> skip_leading ws = [].
Proof.
  intros H. rewrite <- (app_nil_r ws). now rewrite (skip_leading_spaces _ _ H).
Qed.

Lemma trim_whitespace_padded ws1 s ws2 :
  forallb is_space ws1 = true -> forallb is_space ws2 = true ->
  trim_whitespace (ws1 ++ s ++ ws2) = trim_whitespace s.
Proof.
  intros H1 H2. unfold trim_whitespace. rewrite (skip_leading_spaces _ _ H1).
  destruct (skip_leading_split s) as (ws & Hws & Hs & Hh).
  remember (skip_leading s) as t eqn:Ht.
  assert (E : skip_leading (s ++ ws2)
              = match t with [] => [] | _ :: _ => t ++ ws2 end).
  { rewrite Hs, <- app_assoc, (skip_leading_spaces _ _ Hws).
    destruct t as [|c tl]; simpl.
    - now apply skip_leading_all_spaces.
    - now rewrite Hh. }
  rewrite E. destruct t as [|c tl]; [reflexivity|].
  simpl. now rewrite (strip_trailing_spaces _ _ H2).
Qed.

(** X1: [trim_whitespace] takes off white space (space, tab, CR, LF) at both
    ends and nothing else: the string is the result between two runs of
    white space, and the result neither begins nor ends with white space;
    trimming again changes nothing. *)
Theorem trim_whitespace_spec (s : cstring) :
  (exists ws1 ws2,
      forallb is_space ws1 = true /\ forallb is_space ws2 = true /\
      s = ws1 ++ trim_whitespace s ++ ws2) /\
  no_outer_space (trim_whitespace s) = true /\
  trim_whitespace (trim_whitespace s) = trim_whitespace s.
Proof.
  split; [|split].
  - unfold trim_whitespace.
    destruct (skip_leading_split s) as (ws1 & H1 & Hs & _).
    destruct (skip_leading s) as [|c tl].
    + exists ws1, []. repeat split; auto.
    + destruct (strip_trailing_split tl) as (ws2 & H2 & Ht & _).
      exists ws1, ws2. repeat split; auto.
      rewrite Hs at 1. f_equal. simpl. f_equal. exact Ht.
  - apply no_outer_space_trim.
  - apply trim_whitespace_clean. apply no_outer_space_trim.
Qed.

(* ====================================================================== *)
(** ** White space around keys, values and headers *)
(* ====================================================================== *)

Lemma is_space_not_equals ws :
  forallb is_space ws = true -> Forall (fun c => char_eq "=" c = false) ws.
Proof.
  intros H. apply Forall_forall. intros c Hc.
  pose proof (proj1 (forallb_forall _ _) H c Hc) as B. cbv beta in B.
  apply char_eq_false. intros <-. discriminate B.
Qed.

Lemma trim_whitespace_strip_trailing x :
  trim_whitespace (strip_trailing x) = trim_whitespace x.
Proof.
  destruct (strip_trailing_split x) as (ws & Hws & Hx & _).
  rewrite Hx at 2.
  exact (eq_sym (trim_whitespace_padded [] (strip_trailing x) ws eq_refl Hws)).
Qed.

(** The body of the loop on a line that has an [=] and is neither a comment
    nor a header. *)
Lemma parse_line_pair_case ctx cur raw a tl before after :
  trim_whitespace raw = a :: tl ->
  char_eq a ";" = false -> char_eq a "#" = false -> char_eq a "[" = false ->
  scan_until (char_eq "=") (a :: tl) = (before, "="%char :: after) ->
  parse_line ctx cur raw =
  match trim_whitespace before with
  | _ :: _ =>
      '(result, s') <-
        set_pair_in_section (load_section ctx cur)
          (Some (trim_whitespace before))
          (Some (Own (trim_whitespace after))) ;;
      let ctx' := store_section ctx cur s' in
      if Z.eqb result DMINI_OK then ret (Continue ctx' cur)
      else ret (Return result ctx')
  | [] => ret (Continue ctx cur)
  end.
Proof.
  intros T H1 H2 H3 S. unfold parse_line. cbv zeta.
  rewrite T, H1, H2, H3. simpl orb. cbv iota. rewrite S. reflexivity.
Qed.

(** The body of the loop on a header line with its closing bracket. *)
Lemma parse_line_header_case ctx cur raw tl inner e section_end :
  trim_whitespace raw = "["%char :: tl ->
  scan_until (char_eq "]") tl = (inner, e :: section_end) ->
  parse_line ctx cur raw =
  ('(ctx', sec) <- get_or_create_section ctx (Some (trim_whitespace inner)) ;;
   match sec with
   | None => ret (Return DMINI_ERR_MEMORY ctx')
   | Some _ => ret (Continue ctx' sec)
   end).
Proof.
  intros T S. unfold parse_line. cbv zeta. rewrite T. simpl. rewrite S.
  reflexivity.
Qed.

(** X2: white space around the key, around the [=] and around the value of a
    pair line changes nothing, nor does white space before a header line or
    any text after its closing bracket: the line does what the bare line
    [key=value], or [[name]], does. *)
Theorem parse_line_ignores_padding
  (ctx : option dmini_context) (cur : option nat) :
  (forall k v ws1 ws2 ws3 ws4,
      forallb is_space ws1 = true -> forallb is_space ws2 = true ->
      forallb is_space ws3 = true -> forallb is_space ws4 = true ->
      key_parses k = true -> no_outer_space k = true ->
      no_outer_space v = true ->
      parse_line ctx cur (ws1 ++ k ++ ws2 ++ cs "=" ++ ws3 ++ v ++ ws4)
      = parse_line ctx cur (k ++ cs "=" ++ v)) /\
  (forall inner ws1 junk,
      forallb is_space ws1 = true -> no_char "]" inner = true ->
      parse_line ctx cur (ws1 ++ cs "[" ++ inner ++ cs "]" ++ junk)
      = parse_line ctx cur (cs "[" ++ inner ++ cs "]")).
Proof.
  split.
  - intros k v ws1 ws2 ws3 ws4 H1 H2 H3 H4 Hk Ks Vs.
    destruct (key_parses_head _ Hk) as (a & tl & Ek & B1 & B2 & B3).
    pose proof (no_outer_space_head a tl ltac:(now rewrite <- Ek)) as Ha.
    unfold key_parses in Hk. apply andb_prop in Hk. destruct Hk as [_ Hk].
    assert (TL : trim_whitespace (ws1 ++ k ++ ws2 ++ cs "=" ++ ws3 ++ v ++ ws4)
                 = a :: (tl ++ ws2) ++ "="%char :: strip_trailing (ws3 ++ v)).
    { replace (ws1 ++ k ++ ws2 ++ cs "=" ++ ws3 ++ v ++ ws4)
        with (ws1 ++ (k ++ ws2 ++ cs "=" ++ ws3 ++ v) ++ ws4)
        by (now rewrite <- !app_assoc).
      rewrite (trim_whitespace_padded _ _ _ H1 H4). subst k.
      unfold trim_whitespace. simpl. rewrite Ha. f_equal.
      rewrite app_assoc. now apply strip_trailing_keeps. }
    assert (SL : scan_until (char_eq "=")
                   (a :: (tl ++ ws2) ++ "="%char :: strip_trailing (ws3 ++ v))
                 = (k ++ ws2, "="%char :: strip_trailing (ws3 ++ v))).
    { subst k.
      apply (scan_until_stop (char_eq "=") ((a :: tl) ++ ws2) "=" _);
        [|reflexivity].
      apply Forall_app. split;
        [now apply no_char_Forall|now apply is_space_not_equals]. }
    assert (TR : trim_whitespace (k ++ cs "=" ++ v) = a :: tl ++ "="%char :: v).
    { rewrite trim_whitespace_clean; [now subst k|].
      apply no_outer_space_join; [subst k; discriminate|reflexivity|
                                  assumption..]. }
    assert (SR : scan_until (char_eq "=") (a :: tl ++ "="%char :: v)
                 = (k, "="%char :: v)).
    { subst k.
      apply (scan_until_stop (char_eq "=") (a :: tl) "=" v); [|reflexivity].
      now apply no_char_Forall. }
    rewrite (parse_line_pair_case _ _ _ _ _ _ _ TL B2 B3 B1 SL).
    rewrite (parse_line_pair_case _ _ _ _ _ _ _ TR B2 B3 B1 SR).
    pose proof (trim_whitespace_padded [] k ws2 eq_refl H2) as Tk.
    simpl app in Tk. rewrite Tk.
    rewrite trim_whitespace_strip_trailing.
    pose proof (trim_whitespace_padded ws3 v [] H3 eq_refl) as Tv.
    rewrite app_nil_r in Tv. rewrite Tv.
    reflexivity.
  - intros inner ws1 junk H1 Hi.
    assert (TL : trim_whitespace (ws1 ++ cs "[" ++ inner ++ cs "]" ++ junk)
                 = "["%char :: inner ++ "]"%char :: strip_trailing junk).
    { replace (ws1 ++ cs "[" ++ inner ++ cs "]" ++ junk)
        with (ws1 ++ (cs "[" ++ inner ++ cs "]" ++ junk) ++ [])
        by (now rewrite app_nil_r).
      rewrite (trim_whitespace_padded ws1 _ [] H1 eq_refl).
      unfold trim_whitespace. simpl. f_equal.
      now apply strip_trailing_keeps. }
    assert (TR : trim_whitespace (cs "[" ++ inner ++ cs "]")
                 = "["%char :: inner ++ ["]"%char]).
    { unfold trim_whitespace. simpl. f_equal. now apply strip_trailing_last. }
    rewrite (parse_line_header_case _ _ _ _ inner "]" (strip_trailing junk) TL
               (scan_until_stop (char_eq "]") inner "]" _
                  (no_char_Forall _ _ Hi) eq_refl)).
    rewrite (parse_line_header_case _ _ _ _ inner "]" [] TR
               (scan_until_stop (char_eq "]") inner "]" _
                  (no_char_Forall _ _ Hi) eq_refl)).
    reflexivity.
Qed.

(** The line of the test [test_comments_whitespace] and a header with a
    trailing remark. *)
Lemma parse_line_ignores_padding_witness :
  parse_line (Some (mkContext [mkSection None []])) (Some 0%nat)
             (cs "  " ++ cs "key1" ++ cs "  " ++ cs "=" ++ cs "  " ++
              cs "value1" ++ cs "  ")
  = parse_line (Some (mkContext [mkSection None []])) (Some 0%nat)
               (cs "key1" ++ cs "=" ++ cs "value1") /\
  parse_line (Some (mkContext [mkSection None []])) (Some 0%nat)
             (cs "  " ++ cs "[" ++ cs "  section1  " ++ cs "]" ++ cs " ; remark")
  = parse_line (Some (mkContext [mkSection None []])) (Some 0%nat)
               (cs "[" ++ cs "  section1  " ++ cs "]").
Proof.
  destruct (parse_line_ignores_padding
              (Some (mkContext [mkSection None []])) (Some 0%nat)) as [P H].
  split.
  - apply P; reflexivity.
  - apply H; reflexivity.
Defined.

(* ====================================================================== *)
(** ** The text as a list of lines *)
(* ====================================================================== *)

Lemma split_lines_scan t :
  split_lines t =
  match snd (scan_until is_eol t) with
  | [] => [fst (scan_until is_eol t)]
  | _ :: r => fst (scan_until is_eol t) :: split_lines r
  end.
Proof.
  induction t as [|c tl IH]; simpl; [reflexivity|].
  destruct (is_eol c); simpl; [reflexivity|].
  rewrite IH. destruct (scan_until is_eol tl) as [l [|e r]]; reflexivity.
Qed.

Lemma parse_line_ignored ctx cur l o :
  ignored_line l = true ->
  parse_line ctx cur l o = (Returns (Continue ctx cur), o).
Proof.
  unfold ignored_line, parse_line. cbv zeta.
  destruct (trim_whitespace l) as [|c tl]; [reflexivity|].
  now intros ->.
Qed.

Lemma run_lines_empty_first ls ctx cur o :
  run_lines ([] :: ls) ctx cur o = run_lines ls ctx cur o.
Proof. reflexivity. Qed.

(** After the terminator, and one more break character if there is one, the
    lines left are the same but for an empty one. *)
Lemma run_lines_skip_terminator e r ctx cur o :
  run_lines (split_lines (skip_terminator (e :: r))) ctx cur o
  = run_lines (split_lines r) ctx cur o.
Proof.
  destruct r as [|c r']; [reflexivity|]. unfold skip_terminator.
  destruct (is_eol c) eqn:E; [|reflexivity].
  cbn [split_lines]. now rewrite E.
Qed.

(** The loop, as a run of its body over the lines of the text. *)
Lemma parse_lines_run_lines t :
  forall ctx cur o,
    parse_lines t ctx cur o
    = (line_status (fst (run_lines (split_lines t) ctx cur o)),
       snd (run_lines (split_lines t) ctx cur o)).
Proof.
  remember (length t) as n eqn:Hn. revert t Hn.
  induction n as [n IH] using lt_wf_ind.
  intros t Hn ctx cur o. destruct t as [|c tl].
  - simp parse_lines. reflexivity.
  - rewrite parse_lines_cons, split_lines_scan.
    pose proof (next_line_shorter c tl) as Hlt.
    destruct (scan_until is_eol (c :: tl)) as [l r] eqn:S. simpl fst in *.
    simpl snd in *.
    destruct r as [|e r'].
    + simpl run_lines. unfold bind.
      destruct (parse_line ctx cur l o) as [[[ctx' cur'|code ctx']|] o'];
        [|reflexivity|reflexivity].
      simpl. now simp parse_lines.
    + cbn [run_lines]. unfold bind at 1 2.
      destruct (parse_line ctx cur l o) as [[[ctx' cur'|code ctx']|] o'];
        [|reflexivity|reflexivity].
      rewrite (IH _ ltac:(subst n; exact Hlt) _ eq_refl).
      now rewrite run_lines_skip_terminator.
Qed.

(** X3: [dmini_parse_string] copies the text and then does, in turn, what the
    body of its loop does on each piece of the text between line-break
    characters, until a line makes it return; so [\n], [\r], [\r\n] and runs
    of them all separate lines (the second character that the loop steps over
    only spares it an empty line).  When the copy of the text cannot be
    allocated the call returns [DMINI_ERR_MEMORY] and the context is as it
    was. *)
Theorem parse_string_by_line (c : dmini_context) (t : cstring) (o : oracle) :
  dmini_parse_string (Some c) (Some t) (true :: o)
  = (line_status
       (fst (run_lines (split_lines t) (Some c) (first_section (Some c)) o)),
     snd (run_lines (split_lines t) (Some c) (first_section (Some c)) o)) /\
  dmini_parse_string (Some c) (Some t) (false :: o)
  = (Returns (DMINI_ERR_MEMORY, Some c), o).
Proof.
  unfold dmini_parse_string, string_duplicate, bind, Dmod_Malloc, ret.
  cbv beta iota. split; [|reflexivity].
  apply parse_lines_run_lines.
Qed.

Lemma run_lines_filter ls : forall ctx cur o,
  run_lines (filter (fun l => negb (ignored_line l)) ls) ctx cur o
  = run_lines ls ctx cur o.
Proof.
  induction ls as [|l ls IH]; intros ctx cur o; simpl; [reflexivity|].
  destruct (ignored_line l) eqn:E; simpl.
  - unfold bind. rewrite (parse_line_ignored _ _ _ _ E). apply IH.
  - unfold bind.
    destruct (parse_line ctx cur l o) as [[[ctx' cur'|code ctx']|] o'];
      [apply IH|reflexivity|reflexivity].
Qed.

(** X4: only the lines that are neither blank nor comments count.  Two texts
    whose pieces between line breaks are the same once the pieces that trim
    to nothing or begin with [;] or [#] are left out give the same status,
    the same context and the same calls to the allocator; so comment lines,
    blank lines and the kind of line break make no difference. *)
Theorem parse_string_ignores_comments_and_blanks
  (ctx : option dmini_context) (t t' : cstring) (o : oracle) :
  filter (fun l => negb (ignored_line l)) (split_lines t)
  = filter (fun l => negb (ignored_line l)) (split_lines t') ->
  dmini_parse_string ctx (Some t) o = dmini_parse_string ctx (Some t') o.
Proof.
  intros H. unfold dmini_parse_string. destruct ctx as [c|]; [|reflexivity].
  unfold bind, string_duplicate, bind, ret.
  destruct (Dmod_Malloc o) as [[[|]|] o1]; [|reflexivity|reflexivity].
  rewrite !parse_lines_run_lines.
  rewrite <- (run_lines_filter (split_lines t)).
  rewrite <- (run_lines_filter (split_lines t')).
  now rewrite H.
Qed.

(** The text of [test_comments_whitespace] with DOS line ends, and the same
    text without its comments and blank lines. *)
Lemma parse_string_ignores_comments_and_blanks_witness :
  dmini_parse_string (Some (mkContext [mkSection None []]))
    (Some (cs "; Comment line" ++ [CR; LF] ++ cs "  key1  =  value1  " ++ [CR; LF] ++
           cs "# Another comment" ++ [CR; LF] ++ [CR; LF] ++
           cs "[  section1  ]" ++ [CR; LF] ++ cs "  key2 = value2  " ++ [CR; LF]))
    []
  = dmini_parse_string (Some (mkContext [mkSection None []]))
      (Some (cs "  key1  =  value1  " ++ [LF] ++
             cs "[  section1  ]" ++ [LF] ++ cs "  key2 = value2  "))
      [].
Proof.
  apply parse_string_ignores_comments_and_blanks. reflexivity.
Defined.

(* ====================================================================== *)
(** ** Reading back what was set *)
(* ====================================================================== *)

Lemma get_string_by_lookup c section k d :
  dmini_get_string (Some c) section (Some k) d =
  match lookup (sections c) section k with
  | Some p => value p
  | None => d
  end.
Proof.
  rewrite get_string_lookup. unfold lookup.
  destruct (lookup_section (sections c) section); reflexivity.
Qed.

Lemma has_key_by_lookup c section k :
  dmini_has_key (Some c) section (Some k) =
  match lookup (sections c) section k with
  | Some _ => 1
  | None => 0
  end.
Proof.
  rewrite has_key_lookup. unfold lookup.
  destruct (lookup_section (sections c) section); reflexivity.
Qed.

Lemma name_eq_dec (a b : option cstring) : a = b \/ a <> b.
Proof.
  destruct a as [a|], b as [b|]; try (right; discriminate); [|now left].
  destruct (list_eq_dec ascii_dec a b) as [->|H]; [now left|].
  right. congruence.
Qed.

Lemma lookup_pair_upsert_other l k v k' :
  k' <> k -> lookup_pair (upsert_pair l k v) k' = lookup_pair l k'.
Proof.
  intros Hne. induction l as [|p l IH]; simpl.
  - destruct (strcmp_eq0 k k') eqn:E; [|reflexivity].
    apply strcmp_eq0_true in E. congruence.
  - destruct (strcmp_eq0 (key p) k) eqn:E; simpl.
    + apply strcmp_eq0_true in E.
      destruct (strcmp_eq0 (key p) k') eqn:E'; [|reflexivity].
      apply strcmp_eq0_true in E'. congruence.
    + destruct (strcmp_eq0 (key p) k'); [reflexivity|exact IH].
Qed.

Lemma lookup_upsert_other_key l sec k v k' :
  k' <> k ->
  lookup (upsert_section l sec k v) sec k' = lookup l sec k'.
Proof.
  intros Hne. unfold lookup. induction l as [|s l IH]; simpl.
  - assert (section_matches (mkSection sec [mkPair k (Some v)]) sec = true)
      as -> by now apply section_matches_name.
    simpl. destruct (strcmp_eq0 k k') eqn:E; [|reflexivity].
    apply strcmp_eq0_true in E. congruence.
  - destruct (section_matches s sec) eqn:E; simpl.
    + assert (section_matches
                (mkSection (name s) (upsert_pair (pairs s) k v)) sec = true)
        as ->.
      { apply section_matches_name. simpl. now apply section_matches_name. }
      simpl. now apply lookup_pair_upsert_other.
    + rewrite E. exact IH.
Qed.

(** X5: what [dmini_set_string] stores, for a value string that the call
    does not release (any string but the stored values of the section
    itself) and when no allocation fails, is what [dmini_get_string] returns
    for that section and key afterwards, and [dmini_has_key] and
    [dmini_has_section] find them; for every other section or key the two
    lookups return what they returned before. *)
Theorem set_string_then_get
  (c : dmini_context) (section : option cstring) (k v : cstring) :
  exists c',
    runs_ok (dmini_set_string (Some c) section (Some k) (Some (Own v)))
            (DMINI_OK, Some c') /\
    (forall d, dmini_get_string (Some c') section (Some k) d = Some v) /\
    dmini_has_key (Some c') section (Some k) = 1 /\
    dmini_has_section (Some c') section = 1 /\
    (forall section' k' d,
        section' <> section \/ k' <> k ->
        dmini_get_string (Some c') section' (Some k') d
        = dmini_get_string (Some c) section' (Some k') d) /\
    (forall section' k',
        section' <> section \/ k' <> k ->
        dmini_has_key (Some c') section' (Some k')
        = dmini_has_key (Some c) section' (Some k')).
Proof.
  exists (mkContext (upsert_section (sections c) section k v)).
  destruct (lookup_section_upsert (sections c) section k v)
    as (s & Ls & Ns & p & Lp & Vp).
  assert (Hother : forall section' k',
             section' <> section \/ k' <> k ->
             lookup (upsert_section (sections c) section k v) section' k'
             = lookup (sections c) section' k').
  { intros section' k' H.
    destruct (name_eq_dec section' section) as [->|Hs].
    - destruct H as [H|H]; [congruence|].
      now apply lookup_upsert_other_key.
    - unfold lookup. now rewrite lookup_section_upsert_other. }
  split; [apply runs_ok_set_string|].
  split; [|split; [|split; [|split]]].
  - intros d. rewrite get_string_lookup. cbn [sections]. now rewrite Ls, Lp.
  - rewrite has_key_lookup. cbn [sections]. now rewrite Ls, Lp.
  - rewrite has_section_lookup. cbn [sections]. now rewrite Ls.
  - intros section' k' d H. rewrite !get_string_by_lookup. cbn [sections].
    now rewrite (Hother _ _ H).
  - intros section' k' H. rewrite !has_key_by_lookup. cbn [sections].
    now rewrite (Hother _ _ H).
Qed.

(* ====================================================================== *)
(** ** Parsing a pair is setting it *)
(* ====================================================================== *)

Lemma upsert_section_global g rest k v :
  name g = None ->
  upsert_section (g :: rest) None k v
  = mkSection (name g) (upsert_pair (pairs g) k v) :: rest.
Proof.
  intros Hg. simpl. unfold section_matches. now rewrite Hg.
Qed.

Lemma pair_line_facts k v :
  key_parses k = true -> no_eol k = true -> no_outer_space k = true ->
  no_eol v = true ->
  k ++ cs "=" ++ v <> [] /\
  Forall (fun a => is_eol a = false) (k ++ cs "=" ++ v) /\
  skip_terminator (LF :: k ++ cs "=" ++ v) = k ++ cs "=" ++ v.
Proof.
  intros Hk Ke Ks Ve.
  destruct (key_parses_head _ Hk) as (a & tl & Ek & _). subst k.
  split; [discriminate|]. split.
  - apply no_eol_Forall. rewrite !no_eol_app. now rewrite Ke, Ve.
  - simpl app. apply skip_terminator_next. apply not_space_not_eol.
    now apply no_outer_space_head in Ks.
Qed.

(** X6: a text with one pair line, alone or under a header line, does to a
    context what [dmini_set_string] does with the key, the value (in a
    string of the caller's own) and the section name (null without a header,
    the trimmed text between the brackets with one), when no allocation
    fails. *)
Theorem parse_pair_is_set_string
  (c : dmini_context) (inner k v : cstring) :
  has_global (Some c) ->
  no_char "]" inner = true -> no_eol inner = true ->
  key_parses k = true -> no_eol k = true -> no_outer_space k = true ->
  no_eol v = true -> no_outer_space v = true ->
  (exists c',
      runs_ok (dmini_set_string (Some c) None (Some k) (Some (Own v)))
              (DMINI_OK, Some c') /\
      runs_ok (dmini_parse_string (Some c) (Some (k ++ cs "=" ++ v)))
              (DMINI_OK, Some c')) /\
  (exists c',
      runs_ok (dmini_set_string (Some c) (Some (trim_whitespace inner))
                                (Some k) (Some (Own v)))
              (DMINI_OK, Some c') /\
      runs_ok (dmini_parse_string (Some c)
                 (Some (cs "[" ++ inner ++ cs "]" ++ [LF] ++ k ++ cs "=" ++ v)))
              (DMINI_OK, Some c')).
Proof.
  intros HG Hi Ie Hk Ke Ks Ve Vs.
  destruct (pair_line_facts k v Hk Ke Ks Ve) as (Hne & Hline & Hskip).
  split.
  - exists (mkContext (upsert_section (sections c) None k v)).
    split; [apply runs_ok_set_string|].
    destruct HG as (c0 & g & rest & E0 & Hc & Hg). inversion E0; subst c0.
    unfold dmini_parse_string.
    eapply runs_ok_bind; [apply runs_ok_string_duplicate|]. cbv beta iota.
    intros o Ho. rewrite (parse_lines_last _ _ _ _ Hne Hline).
    assert (L : load_section (Some c) (first_section (Some c)) = Some g)
      by (simpl; now rewrite Hc).
    destruct (parse_line_pair _ _ g k v L Hk Ks Vs o Ho) as (o1 & E1 & Ho1).
    rewrite E1. exists o1. split; [|assumption].
    simpl. rewrite Hc. simpl. unfold section_matches. now rewrite Hg.
  - exists (mkContext (upsert_section (sections c)
                         (Some (trim_whitespace inner)) k v)).
    split; [apply runs_ok_set_string|].
    unfold dmini_parse_string.
    eapply runs_ok_bind; [apply runs_ok_string_duplicate|]. cbv beta iota.
    intros o Ho.
    assert (Hhdr : Forall (fun a => is_eol a = false)
                     (cs "[" ++ inner ++ cs "]")).
    { apply no_eol_Forall. rewrite !no_eol_app. now rewrite Ie. }
    replace (cs "[" ++ inner ++ cs "]" ++ [LF] ++ k ++ cs "=" ++ v)
      with ((cs "[" ++ inner ++ cs "]") ++ LF :: (k ++ cs "=" ++ v))
      by (now rewrite <- !app_assoc).
    rewrite (parse_lines_line _ LF _ _ _ _ Hhdr eq_refl).
    destruct (parse_line_header c (first_section (Some c)) inner Hi o Ho)
      as (o1 & E1 & Ho1).
    rewrite E1, Hskip.
    rewrite (parse_lines_last _ _ _ _ Hne Hline).
    destruct (section_for_upsert c (Some (trim_whitespace inner)) k v)
      as (s1 & L1 & S1).
    destruct (parse_line_pair _ _ s1 k v L1 Hk Ks Vs o1 Ho1)
      as (o2 & E2 & Ho2).
    rewrite E2, S1. exists o2. split; [reflexivity|assumption].
Qed.

(** The first lines of the test [test_parse_string]. *)
Lemma parse_pair_is_set_string_witness :
  exists c',
    runs_ok (dmini_set_string (Some (mkContext [mkSection None []]))
               (Some (cs "section1")) (Some (cs "key1"))
               (Some (Own (cs "value1"))))
            (DMINI_OK, Some c') /\
    runs_ok (dmini_parse_string (Some (mkContext [mkSection None []]))
               (Some (cs "[" ++ cs " section1 " ++ cs "]" ++ [LF] ++
                      cs "key1" ++ cs "=" ++ cs "value1")))
            (DMINI_OK, Some c').
Proof.
  assert (G : has_global (Some (mkContext [mkSection None []]))).
  { exists (mkContext [mkSection None []]), (mkSection None []), [].
    repeat split. }
  exact (proj2 (parse_pair_is_set_string
                  (mkContext [mkSection None []]) (cs " section1 ")
                  (cs "key1") (cs "value1")
                  G eq_refl eq_refl eq_refl eq_refl eq_refl eq_refl eq_refl)).
Defined.

(* ====================================================================== *)
(** ** A section whose name could not be copied *)
(* ====================================================================== *)

Lemma lookup_section_app_none l x n :
  lookup_section l n = None ->
  lookup_section (l ++ [x]) n = if section_matches x n then Some x else None.
Proof.
  induction l as [|s l IH]; simpl; [reflexivity|].
  destruct (section_matches s n); [discriminate|exact IH].
Qed.

Lemma lookup_section_app_some l x n s :
  lookup_section l n = Some s -> lookup_section (l ++ [x]) n = Some s.
Proof.
  induction l as [|q l IH]; simpl; [discriminate|].
  destruct (section_matches q n); [auto|exact IH].
Qed.

(** X7: [create_section] links the new section even when the copy of its
    name fails.  When [dmini_set_string] names a section that is not there
    and only that copy fails, the call still returns [DMINI_OK]: the pair
    goes into a second nameless section at the end of the list, where no
    lookup finds it, neither under the name that was given nor under the null
    name, which goes on to mean the global section. *)
Theorem set_string_name_copy_failure
  (c : dmini_context) (n k v : cstring) :
  has_global (Some c) ->
  ~ In (Some n) (map name (sections c)) ->
  let c' := mkContext (sections c ++ [mkSection None [mkPair k (Some v)]]) in
  runs_ok (fun o => dmini_set_string (Some c) (Some n) (Some k)
                      (Some (Own v)) (true :: false :: o))
          (DMINI_OK, Some c') /\
  dmini_has_section (Some c') (Some n) = 0 /\
  (forall d, dmini_get_string (Some c') (Some n) (Some k) d = d) /\
  (forall d, dmini_get_string (Some c') None (Some k) d
             = dmini_get_string (Some c) None (Some k) d).
Proof.
  intros HG Hn c'.
  assert (F : find_section_from (sections c) (Some n) 0 = None)
    by now apply find_section_from_none.
  assert (Ln : lookup_section (sections c') (Some n) = None).
  { unfold c'. cbn [sections].
    rewrite lookup_section_app_none by now apply lookup_section_none.
    reflexivity. }
  split; [|split; [|split]].
  - intros o Ho. unfold dmini_set_string, get_or_create_section, find_section.
    rewrite F. unfold bind at 1. unfold bind at 1.
    unfold create_section, bind, string_duplicate, bind, ret, Dmod_Malloc.
    cbn [load_section sections]. rewrite nth_error_app_last.
    unfold set_pair_in_section, find_pair. cbn [pairs find_pair_from].
    unfold read_value. unfold bind.
    change (ret (Some v) o) with (Returns (Some v), o). cbv iota.
    destruct (runs_ok_create_pair k v o Ho) as (o1 & E1 & Ho1).
    rewrite E1. exists o1. split; [|assumption].
    unfold ret, store_section. cbn [sections name pairs].
    now rewrite list_store_app_last.
  - rewrite has_section_lookup. now rewrite Ln.
  - intros d. rewrite get_string_lookup. now rewrite Ln.
  - intros d. rewrite !get_string_lookup.
    destruct HG as (c0 & g & rest & E0 & Hc & Hg). inversion E0; subst c0.
    assert (Lg : lookup_section (sections c) None = Some g).
    { rewrite Hc. simpl. unfold section_matches. now rewrite Hg. }
    unfold c'. cbn [sections].
    now rewrite (lookup_section_app_some _ _ _ _ Lg), Lg.
Qed.

(** A new context, the name [database], and an allocator that fails once. *)
Lemma set_string_name_copy_failure_witness :
  dmini_set_string (Some (mkContext [mkSection None []]))
    (Some (cs "database")) (Some (cs "host")) (Some (Own (cs "localhost")))
    [true; false]
  = (Returns
       (DMINI_OK,
        Some (mkContext [mkSection None [];
                         mkSection None
                           [mkPair (cs "host") (Some (cs "localhost"))]])),
     []) /\
  dmini_get_string
    (Some (mkContext [mkSection None [];
                      mkSection None [mkPair (cs "host") (Some (cs "localhost"))]]))
    (Some (cs "database")) (Some (cs "host")) None = None.
Proof.
  assert (G : has_global (Some (mkContext [mkSection None []]))).
  { exists (mkContext [mkSection None []]), (mkSection None []), [].
    repeat split. }
  assert (N : ~ In (Some (cs "database"))
                (map name (sections (mkContext [mkSection None []])))).
  { simpl. intros [H|[]]. discriminate H. }
  destruct (set_string_name_copy_failure
              (mkContext [mkSection None []]) (cs "database") (cs "host")
              (cs "localhost") G N) as (R & _ & H & _).
  split; [reflexivity|]. apply H.
Defined.

(* ====================================================================== *)
(** ** Integers as decimal text *)
(* ====================================================================== *)

Lemma render_digits_step v p :
  render_digits v p =
  if Z_lt_dec 0 (Z.quot v 10)
  then render_digits (Z.quot v 10)
         (char_of_int (char_code "0" + Z.rem v 10) :: p)
  else char_of_int (char_code "0" + Z.rem v 10) :: p.
Proof.
  rewrite render_digits_equation_1.
  destruct (Z_lt_dec 0 (Z.quot v 10)).
  - apply render_digits_clause_1_equation_1.
  - apply render_digits_clause_1_equation_2.
Qed.

Lemma quot10_smaller v : 0 < Z.quot v 10 -> 0 <= Z.quot v 10 < v.
Proof.
  intros Hq.
  assert (Hv : 0 <= v).
  { destruct (Z_lt_dec v 0) as [Hn|]; [|lia].
    pose proof (Z.quot_opp_l (- v) 10 ltac:(lia)) as E.
    rewrite Z.opp_involutive in E.
    pose proof (Z.quot_pos (- v) 10 ltac:(lia) ltac:(lia)). lia. }
  pose proof (Z.mul_quot_le v 10 Hv ltac:(lia)). lia.
Qed.

(** Induction on the numbers that [render_digits] goes through. *)
Lemma quot10_ind (P : Z -> Prop) :
  (forall v, (0 < Z.quot v 10 -> P (Z.quot v 10)) -> P v) -> forall v, P v.
Proof.
  intros H v. remember (Z.to_nat v) as n eqn:Hn. revert v Hn.
  induction n as [n IH] using lt_wf_ind. intros v Hn. apply H. intros Hq.
  pose proof (quot10_smaller v Hq).
  apply (IH (Z.to_nat (Z.quot v 10))); [lia|reflexivity].
Qed.

Lemma render_digits_app v : forall p, render_digits v p = decimal v ++ p.
Proof.
  unfold decimal. induction v as [v IH] using quot10_ind. intros p.
  rewrite (render_digits_step v p), (render_digits_step v []).
  destruct (Z_lt_dec 0 (Z.quot v 10)) as [Hq|Hq]; [|reflexivity].
  rewrite (IH Hq (_ :: p)), (IH Hq [_]). now rewrite <- app_assoc.
Qed.

Lemma decimal_unfold v :
  decimal v =
  if Z_lt_dec 0 (Z.quot v 10)
  then decimal (Z.quot v 10) ++ [char_of_int (char_code "0" + Z.rem v 10)]
  else [char_of_int (char_code "0" + Z.rem v 10)].
Proof.
  unfold decimal at 1. rewrite render_digits_step.
  destruct (Z_lt_dec 0 (Z.quot v 10)); [|reflexivity].
  apply render_digits_app.
Qed.

Lemma digit_char d :
  0 <= d <= 9 ->
  is_digit (char_of_int (char_code "0" + d)) = true /\
  char_code (char_of_int (char_code "0" + d)) - char_code "0" = d /\
  char_eq (char_of_int (char_code "0" + d)) SPACE = false /\
  char_eq (char_of_int (char_code "0" + d)) TAB = false /\
  char_eq (char_of_int (char_code "0" + d)) "-" = false /\
  char_eq (char_of_int (char_code "0" + d)) "+" = false.
Proof.
  intros H.
  assert (E : d = 0 \/ d = 1 \/ d = 2 \/ d = 3 \/ d = 4 \/ d = 5 \/ d = 6 \/
              d = 7 \/ d = 8 \/ d = 9) by lia.
  repeat (destruct E as [->|E]; [repeat split|]). subst d. repeat split.
Qed.

Lemma int_wrap_in_range z : - 2 ^ 31 <= z < 2 ^ 31 -> int_wrap z = z.
Proof.
  intros H. unfold int_wrap. rewrite Z.mod_small; lia.
Qed.

Lemma convert_digits_app l : forall p r,
  forallb is_digit l = true ->
  convert_digits (l ++ p) r = convert_digits p (convert_digits l r).
Proof.
  induction l as [|c l IH]; intros p r H; simpl in *; [reflexivity|].
  apply andb_prop in H. destruct H as [Hc Hl]. rewrite Hc. now apply IH.
Qed.

Lemma decimal_digits v :
  0 <= v < 2 ^ 31 ->
  forallb is_digit (decimal v) = true /\ convert_digits (decimal v) 0 = v /\
  exists c tl, decimal v = c :: tl /\ is_digit c = true.
Proof.
  induction v as [v IH] using quot10_ind. intros Hv.
  assert (Hr : 0 <= Z.rem v 10 <= 9).
  { pose proof (Z.rem_bound_pos v 10 ltac:(lia) ltac:(lia)). lia. }
  destruct (digit_char _ Hr) as (D1 & D2 & _).
  pose proof (Z.quot_rem' v 10) as Eq.
  rewrite decimal_unfold.
  destruct (Z_lt_dec 0 (Z.quot v 10)) as [Hq|Hq].
  - pose proof (quot10_smaller v Hq) as Hs.
    destruct (IH Hq ltac:(lia)) as (A1 & A2 & c & tl & A3 & A4).
    split; [|split].
    + rewrite forallb_app, A1. cbn [forallb andb]. now rewrite D1.
    + rewrite (convert_digits_app _ _ _ A1), A2. cbn [convert_digits].
      rewrite D1, D2.
      replace (Z.quot v 10 * 10 + Z.rem v 10) with v by lia.
      apply int_wrap_in_range. lia.
    + exists c, (tl ++ [char_of_int (char_code "0" + Z.rem v 10)]).
      rewrite A3. auto.
  - assert (Z.quot v 10 = 0).
    { pose proof (Z.quot_pos v 10 ltac:(lia) ltac:(lia)). lia. }
    split; [|split].
    + cbn [forallb]. now rewrite D1.
    + cbn [convert_digits]. rewrite D1, D2.
      replace (0 * 10 + Z.rem v 10) with v by lia.
      apply int_wrap_in_range. lia.
    + eexists. eexists. split; [reflexivity|exact D1].
Qed.

Lemma is_digit_not_blank_or_sign c :
  is_digit c = true ->
  char_eq c SPACE = false /\ char_eq c TAB = false /\
  char_eq c "-" = false /\ char_eq c "+" = false.
Proof.
  intros H. repeat split; apply char_eq_false; intros ->; discriminate H.
Qed.

Lemma skip_blanks_blanks ws rest :
  blanks ws = true ->
  match rest with
  | [] => True
  | c :: _ => char_eq c SPACE = false /\ char_eq c TAB = false
  end ->
  skip_blanks (ws ++ rest) = rest.
Proof.
  intros H Hr. induction ws as [|c ws IH]; simpl in *.
  - destruct rest as [|c tl]; [reflexivity|]. simpl.
    destruct Hr as [-> ->]. reflexivity.
  - apply andb_prop in H. destruct H as [Hc Hws]. rewrite Hc. now apply IH.
Qed.

(** The conversion of [dmini_get_int] on blanks, a sign, a decimal number
    and text that does not go on with a digit. *)
Lemma convert_number_text ws s n junk :
  blanks ws = true -> 0 <= n < 2 ^ 31 ->
  match junk with [] => True | c :: _ => is_digit c = false end ->
  (let p := skip_blanks (ws ++ sign_text s ++ decimal n ++ junk) in
   let '(sg, q) :=
     match p with
     | c :: p' =>
         if char_eq c "-" then (-1, p')
         else if char_eq c "+" then (1, p')
         else (1, p)
     | [] => (1, p)
     end in
   int_wrap (convert_digits q 0 * sg)) = sign_value s * n.
Proof.
  intros Hws Hn Hj.
  destruct (decimal_digits n Hn) as (A1 & A2 & c & tl & A3 & A4).
  destruct (is_digit_not_blank_or_sign c A4) as (B1 & B2 & B3 & B4).
  assert (C : convert_digits (decimal n ++ junk) 0 = n).
  { rewrite (convert_digits_app _ _ _ A1), A2.
    now apply convert_digits_no_digit. }
  assert (S : skip_blanks (ws ++ sign_text s ++ decimal n ++ junk)
              = sign_text s ++ decimal n ++ junk).
  { apply skip_blanks_blanks; [assumption|].
    destruct s; simpl; [rewrite A3; simpl; auto|split; reflexivity..]. }
  cbv zeta. rewrite S.
  destruct s; simpl sign_text; simpl app.
  - rewrite A3 in *. simpl app in *. cbv beta iota. rewrite B3, B4.
    cbv beta iota. rewrite C. unfold sign_value.
    rewrite int_wrap_in_range by lia. lia.
  - cbn [app]. cbv beta iota. change (char_eq "+" "-") with false.
    change (char_eq "+" "+") with true. cbv beta iota. rewrite C.
    unfold sign_value. rewrite int_wrap_in_range by lia. lia.
  - cbn [app]. cbv beta iota. change (char_eq "-" "-") with true.
    cbv beta iota. rewrite C. unfold sign_value.
    rewrite int_wrap_in_range by lia. lia.
Qed.

(** X9: [dmini_get_int] reads blanks (spaces and tabs), then an optional
    sign, then decimal digits, and ignores whatever follows the digits: for a
    stored value made of blanks, a sign or none, the decimal text of a number
    [n] below 2^31 and any text that does not begin with a digit, it returns
    [n], or [-n] after a minus sign, whatever the default is. *)
Theorem get_int_reads_number
  (c : dmini_context) (section : option cstring) (k : cstring)
  (ws : cstring) (s : sign) (n : Z) (junk : cstring) (d : Z) :
  blanks ws = true -> 0 <= n < 2 ^ 31 ->
  match junk with [] => True | a :: _ => is_digit a = false end ->
  stored_value c section k (ws ++ sign_text s ++ decimal n ++ junk) ->
  dmini_get_int (Some c) section (Some k) d = sign_value s * n.
Proof.
  intros Hws Hn Hj Hst. unfold dmini_get_int.
  rewrite (get_string_stored _ _ _ _ None Hst).
  exact (convert_number_text ws s n junk Hws Hn Hj).
Qed.

(** The value [ -42 apples] (after a tab and a space) reads as -42. *)
Lemma get_int_reads_number_witness :
  dmini_get_int
    (Some (mkContext [mkSection None
                        [mkPair (cs "count")
                           (Some ([TAB; SPACE] ++ cs "-" ++ cs "42" ++ cs " apples"))]]))
    None (Some (cs "count")) 7 = -42.
Proof.
  apply (get_int_reads_number
           (mkContext [mkSection None
                         [mkPair (cs "count")
                            (Some ([TAB; SPACE] ++ cs "-" ++ cs "42" ++ cs " apples"))]])
           None (cs "count") [TAB; SPACE] Minus 42 (cs " apples") 7).
  - reflexivity.
  - lia.
  - reflexivity.
  - exists 0%nat, (mkSection None
                     [mkPair (cs "count")
                        (Some ([TAB; SPACE] ++ cs "-" ++ cs "42" ++ cs " apples"))]),
           0%nat, (mkPair (cs "count")
                     (Some ([TAB; SPACE] ++ cs "-" ++ cs "42" ++ cs " apples"))).
    repeat split; reflexivity.
Defined.

(** X8: an [int] written with [dmini_set_int] is read back by
    [dmini_get_int], for every value above the least one (whose negation
    does not fit an [int]), when no allocation fails. *)
Theorem set_int_then_get_int
  (c : dmini_context) (section : option cstring) (k : cstring) (n d : Z) :
  - 2 ^ 31 < n < 2 ^ 31 ->
  exists c',
    runs_ok (dmini_set_int (Some c) section (Some k) n) (DMINI_OK, Some c') /\
    dmini_get_int (Some c') section (Some k) d = n.
Proof.
  intros Hn. unfold dmini_set_int. cbv zeta.
  assert (G : forall text,
             (let p := skip_blanks text in
              let '(sg, q) :=
                match p with
                | a :: p' =>
                    if char_eq a "-" then (-1, p')
                    else if char_eq a "+" then (1, p')
                    else (1, p)
                | [] => (1, p)
                end in
              int_wrap (convert_digits q 0 * sg)) = n ->
             exists c',
               runs_ok (dmini_set_string (Some c) section (Some k)
                         (Some (Own text)))
                       (DMINI_OK, Some c') /\
               dmini_get_int (Some c') section (Some k) d = n).
  { intros text Ht.
    exists (mkContext (upsert_section (sections c) section k text)).
    split; [apply runs_ok_set_string|].
    destruct (lookup_section_upsert (sections c) section k text)
      as (s & Ls & Ns & p & Lp & Vp).
    unfold dmini_get_int. rewrite get_string_lookup. cbn [sections].
    rewrite Ls, Lp, Vp. exact Ht. }
  destruct (n <? 0) eqn:E; apply G.
  - apply Z.ltb_lt in E. rewrite (int_wrap_in_range (- n)) by lia.
    pose proof (convert_number_text [] Minus (- n) [] eq_refl
                  ltac:(lia) I) as H.
    rewrite app_nil_r in H.
    transitivity (sign_value Minus * - n); [exact H|unfold sign_value; lia].
  - apply Z.ltb_ge in E.
    pose proof (convert_number_text [] NoSign n [] eq_refl ltac:(lia) I) as H.
    rewrite app_nil_r in H.
    transitivity (sign_value NoSign * n); [exact H|unfold sign_value; lia].
Qed.

(** The port number of the test [test_set_get]. *)
Lemma set_int_then_get_int_witness :
  exists c',
    runs_ok (dmini_set_int (Some (mkContext [mkSection None []]))
               (Some (cs "database")) (Some (cs "port")) 5432)
            (DMINI_OK, Some c') /\
    dmini_get_int (Some c') (Some (cs "database")) (Some (cs "port")) 0 = 5432.
Proof.
  apply set_int_then_get_int. lia.
Defined.

(* ====================================================================== *)
(** ** Removing keys and sections *)
(* ====================================================================== *)

Lemma lookup_section_app a b n :
  lookup_section (a ++ b) n =
  match lookup_section a n with
  | Some s => Some s
  | None => lookup_section b n
  end.
Proof.
  induction a as [|s a IH]; simpl; [reflexivity|].
  destruct (section_matches s n); [reflexivity|exact IH].
Qed.

Lemma lookup_pair_app a b k :
  lookup_pair (a ++ b) k =
  match lookup_pair a k with
  | Some p => Some p
  | None => lookup_pair b k
  end.
Proof.
  induction a as [|p a IH]; simpl; [reflexivity|].
  destruct (strcmp_eq0 (key p) k); [reflexivity|exact IH].
Qed.

(** What the loop of [dmini_remove_key] unlinks: the first pair with the
    key. *)
Lemma unlink_pair_some l k l' :
  unlink_pair l k = Some l' ->
  exists a p b, l = a ++ p :: b /\ l' = a ++ b /\ key p = k /\
                ~ In k (map key a).
Proof.
  revert l'. induction l as [|q l IH]; intros l' H; simpl in H; [discriminate|].
  destruct (strcmp_eq0 (key q) k) eqn:E.
  - inversion H; subst. apply strcmp_eq0_true in E.
    exists [], q, l'. repeat split; auto.
  - destruct (unlink_pair l k) as [l1|]; [|discriminate]. inversion H; subst.
    destruct (IH l1 eq_refl) as (a & p & b & -> & -> & Hp & Ha).
    exists (q :: a), p, b. repeat split; auto.
    apply strcmp_eq0_false in E. simpl. intros [F|F]; auto.
Qed.

Lemma unlink_pair_none l k :
  unlink_pair l k = None <-> lookup_pair l k = None.
Proof.
  induction l as [|q l IH]; simpl; [tauto|].
  destruct (strcmp_eq0 (key q) k); [split; discriminate|].
  destruct (unlink_pair l k); split; intros H; try discriminate;
    try reflexivity.
  - apply IH in H. discriminate.
  - now apply IH.
Qed.

(** What the loop of [dmini_remove_section] unlinks: the first section with
    the name. *)
Lemma unlink_section_some l n l' :
  unlink_section l n = Some l' ->
  exists a s b, l = a ++ s :: b /\ l' = a ++ b /\ name s = Some n /\
                ~ In (Some n) (map name a).
Proof.
  revert l'. induction l as [|q l IH]; intros l' H; simpl in H; [discriminate|].
  destruct (match name q with Some m => strcmp_eq0 m n | None => false end)
    eqn:E.
  - inversion H; subst. exists [], q, l'. repeat split; auto.
    destruct (name q) as [m|]; [|discriminate].
    apply strcmp_eq0_true in E. now subst.
  - destruct (unlink_section l n) as [l1|]; [|discriminate].
    inversion H; subst.
    destruct (IH l1 eq_refl) as (a & s & b & -> & -> & Hs & Ha).
    exists (q :: a), s, b. repeat split; auto.
    simpl. intros [F|F]; auto. rewrite F in E.
    now rewrite strcmp_eq0_refl in E.
Qed.

Lemma unlink_section_none l n :
  unlink_section l n = None <-> lookup_section l (Some n) = None.
Proof.
  induction l as [|q l IH]; simpl; [tauto|].
  unfold section_matches.
  destruct (name q) as [m|].
  - destruct (strcmp_eq0 m n); [split; discriminate|].
    destruct (unlink_section l n); split; intros H; try discriminate;
      try reflexivity.
    + apply IH in H. discriminate.
    + now apply IH.
  - destruct (unlink_section l n); split; intros H; try discriminate;
      try reflexivity.
    + apply IH in H. discriminate.
    + now apply IH.
Qed.

(** Looking up after a store through the pointer that [find_section]
    returned for [sec]. *)
Lemma lookup_section_store l sec s' : forall i j s,
  find_section_from l sec i = Some j -> nth_error l (j - i) = Some s ->
  name s' = name s ->
  lookup_section (list_store l (j - i) s') sec = Some s' /\
  forall n, n <> sec ->
            lookup_section (list_store l (j - i) s') n = lookup_section l n.
Proof.
  induction l as [|q l IH]; intros i j s Hf Hn Hs; simpl in Hf; [discriminate|].
  destruct (section_matches q sec) eqn:E.
  - inversion Hf; subst. rewrite Nat.sub_diag in *. simpl in *.
    inversion Hn; subst.
    assert (M : section_matches s' sec = true).
    { apply section_matches_name. rewrite Hs. now apply section_matches_name. }
    rewrite M. split; [reflexivity|]. intros n Hne.
    assert (section_matches s' n = false) as ->.
    { destruct (section_matches s' n) eqn:F; [|reflexivity].
      apply section_matches_name in F, M. congruence. }
    assert (section_matches s n = false) as ->; [|reflexivity].
    destruct (section_matches s n) eqn:F; [|reflexivity].
    apply section_matches_name in F, E. congruence.
  - destruct (find_section_from_found _ _ _ _ Hf) as [Hle _].
    replace (j - i)%nat with (S (j - S i)) in * by lia. simpl in *.
    rewrite E. destruct (IH (S i) j s Hf Hn Hs) as [A B].
    split; [exact A|]. intros n Hne.
    destruct (section_matches q n); [reflexivity|now apply B].
Qed.

Lemma remove_key_found c section k s l' :
  lookup_section (sections c) section = Some s ->
  unlink_pair (pairs s) k = Some l' ->
  exists c',
    dmini_remove_key (Some c) section (Some k) = (DMINI_OK, Some c') /\
    length (sections c') = length (sections c) /\
    lookup_section (sections c') section = Some (mkSection (name s) l') /\
    forall n, n <> section ->
              lookup_section (sections c') n = lookup_section (sections c) n.
Proof.
  intros Ls U. unfold dmini_remove_key, find_section.
  pose proof (load_find_section (sections c) section 0) as F.
  rewrite Ls in F.
  destruct (find_section_from (sections c) section 0) as [i|] eqn:Fi;
    [|discriminate].
  rewrite Nat.sub_0_r in F. simpl load_section. rewrite F, U.
  eexists. split; [reflexivity|]. cbn [sections].
  split; [apply list_store_length|].
  pose proof (lookup_section_store (sections c) section
                (mkSection (name s) l') 0 i s Fi) as L.
  rewrite Nat.sub_0_r in L. exact (L F eq_refl).
Qed.

(** X10: [dmini_remove_key] returns [DMINI_ERR_NOT_FOUND] and leaves the
    context as it is when [dmini_has_key] does not find the key.  When it
    does, the call returns [DMINI_OK], the sections keep their number and
    names, and every lookup for another section or another key gives what it
    gave before; the key itself is gone when the section did not hold it
    twice. *)
Theorem remove_key_behaviour
  (c : dmini_context) (section : option cstring) (k : cstring) :
  (dmini_has_key (Some c) section (Some k) = 0 ->
   dmini_remove_key (Some c) section (Some k)
   = (DMINI_ERR_NOT_FOUND, Some c)) /\
  (dmini_has_key (Some c) section (Some k) = 1 ->
   exists c',
     dmini_remove_key (Some c) section (Some k) = (DMINI_OK, Some c') /\
     length (sections c') = length (sections c) /\
     dmini_has_section (Some c') section = 1 /\
     (forall section' k' d,
         section' <> section \/ k' <> k ->
         dmini_get_string (Some c') section' (Some k') d
         = dmini_get_string (Some c) section' (Some k') d) /\
     (forall section' k',
         section' <> section \/ k' <> k ->
         dmini_has_key (Some c') section' (Some k')
         = dmini_has_key (Some c) section' (Some k')) /\
     (Forall (fun s => NoDup (map key (pairs s))) (sections c) ->
      dmini_has_key (Some c') section (Some k) = 0 /\
      forall d, dmini_get_string (Some c') section (Some k) d = d)).
Proof.
  split.
  - rewrite has_key_lookup. intros H. unfold dmini_remove_key, find_section.
    rewrite <- (load_find_section (sections c) section 0) in H.
    destruct (find_section_from (sections c) section 0) as [i|] eqn:Fi;
      [|reflexivity].
    rewrite Nat.sub_0_r in H. simpl load_section.
    destruct (nth_error (sections c) i) as [s|]; [|reflexivity].
    destruct (lookup_pair (pairs s) k) eqn:L; [discriminate|].
    apply unlink_pair_none in L. now rewrite L.
  - rewrite has_key_lookup. intros H.
    destruct (lookup_section (sections c) section) as [s|] eqn:Ls;
      [|discriminate].
    destruct (unlink_pair (pairs s) k) as [l'|] eqn:U.
    2:{ apply unlink_pair_none in U. rewrite U in H. discriminate. }
    destruct (remove_key_found c section k s l' Ls U)
      as (c' & R & Hlen & Lsame & Lother).
    destruct (unlink_pair_some _ _ _ U) as (a & p & b & Ea & Eb & Hp & Ha).
    assert (Hl : forall k', k' <> k ->
                   lookup_pair l' k' = lookup_pair (pairs s) k').
    { intros k' Hne. rewrite Ea, Eb, !lookup_pair_app. simpl.
      assert (strcmp_eq0 (key p) k' = false) as ->; [|reflexivity].
      apply strcmp_eq0_false. congruence. }
    assert (Hlk : forall section' k',
               section' <> section \/ k' <> k ->
               lookup (sections c') section' k' = lookup (sections c) section' k').
    { intros section' k' Hd. unfold lookup.
      destruct (name_eq_dec section' section) as [->|Hs].
      - destruct Hd as [Hd|Hd]; [congruence|].
        rewrite Lsame, Ls. simpl. now apply Hl.
      - now rewrite Lother. }
    exists c'. split; [exact R|]. split; [exact Hlen|].
    split; [rewrite has_section_lookup; now rewrite Lsame|].
    split; [|split; [|]].
    + intros section' k' d Hd. rewrite !get_string_by_lookup.
      now rewrite (Hlk _ _ Hd).
    + intros section' k' Hd. rewrite !has_key_by_lookup.
      now rewrite (Hlk _ _ Hd).
    + intros Hnd.
      assert (Hs : NoDup (map key (pairs s))).
      { assert (In s (sections c)) as Hin.
        { clear -Ls. induction (sections c) as [|q l IH]; simpl in *;
            [discriminate|].
          destruct (section_matches q section); [inversion Ls; auto|auto]. }
        exact (proj1 (Forall_forall _ _) Hnd s Hin). }
      assert (Hgone : lookup_pair l' k = None).
      { apply lookup_pair_none. rewrite Ea, map_app in Hs. simpl in Hs.
        apply NoDup_remove_2 in Hs. rewrite Hp in Hs.
        now rewrite Eb, map_app. }
      split.
      * rewrite has_key_lookup, Lsame. simpl. now rewrite Hgone.
      * intros d. rewrite get_string_lookup, Lsame. simpl. now rewrite Hgone.
Qed.

(** The test [test_remove]: of two keys, one is removed and the other
    stays. *)
Lemma remove_key_behaviour_witness :
  let c := mkContext [mkSection None [];
                      mkSection (Some (cs "section1"))
                        [mkPair (cs "key1") (Some (cs "value1"));
                         mkPair (cs "key2") (Some (cs "value2"))]] in
  exists c',
    dmini_remove_key (Some c) (Some (cs "section1")) (Some (cs "key1"))
    = (DMINI_OK, Some c') /\
    dmini_has_key (Some c') (Some (cs "section1")) (Some (cs "key1")) = 0 /\
    dmini_has_key (Some c') (Some (cs "section1")) (Some (cs "key2")) = 1.
Proof.
  intros c.
  destruct (proj2 (remove_key_behaviour c (Some (cs "section1")) (cs "key1"))
              eq_refl) as (c' & R & _ & _ & _ & Hk & Hgone).
  exists c'. split; [exact R|]. split.
  - apply Hgone. repeat constructor; simpl; intuition discriminate.
  - rewrite (Hk (Some (cs "section1")) (cs "key2")); [reflexivity|].
    right. discriminate.
Defined.

(** X11: [dmini_remove_section] returns [DMINI_ERR_NOT_FOUND] and leaves the
    context as it is when no section has the name.  Otherwise it returns
    [DMINI_OK] and takes out the first section with the name, with all its
    pairs; the other sections stay in their order, lookups under any other
    name give what they gave before, and the name is gone, with every key
    under it, when no later section bears it. *)
Theorem remove_section_behaviour (c : dmini_context) (n : cstring) :
  (dmini_has_section (Some c) (Some n) = 0 ->
   dmini_remove_section (Some c) (Some n) = (DMINI_ERR_NOT_FOUND, Some c)) /\
  (dmini_has_section (Some c) (Some n) = 1 ->
   exists c' before s after,
     dmini_remove_section (Some c) (Some n) = (DMINI_OK, Some c') /\
     sections c = before ++ s :: after /\
     sections c' = before ++ after /\
     name s = Some n /\ ~ In (Some n) (map name before) /\
     (forall section' k' d,
         section' <> Some n ->
         dmini_get_string (Some c') section' (Some k') d
         = dmini_get_string (Some c) section' (Some k') d) /\
     (~ In (Some n) (map name after) ->
      dmini_has_section (Some c') (Some n) = 0 /\
      forall k', dmini_has_key (Some c') (Some n) (Some k') = 0)).
Proof.
  split.
  - rewrite has_section_lookup. intros H. unfold dmini_remove_section.
    destruct (lookup_section (sections c) (Some n)) eqn:L; [discriminate|].
    apply unlink_section_none in L. now rewrite L.
  - rewrite has_section_lookup. intros H. unfold dmini_remove_section.
    destruct (unlink_section (sections c) n) as [l'|] eqn:U.
    2:{ apply unlink_section_none in U. rewrite U in H. discriminate. }
    destruct (unlink_section_some _ _ _ U) as (a & s & b & Ea & Eb & Hs & Ha).
    exists (mkContext l'), a, s, b. cbn [sections].
    split; [reflexivity|]. split; [exact Ea|]. split; [exact Eb|].
    split; [exact Hs|]. split; [exact Ha|]. split.
    + intros section' k' d Hne. rewrite !get_string_lookup. cbn [sections].
      rewrite Ea, Eb, !lookup_section_app. simpl.
      assert (section_matches s section' = false) as ->; [|reflexivity].
      destruct (section_matches s section') eqn:F; [|reflexivity].
      apply section_matches_name in F. congruence.
    + intros Hb.
      assert (L : lookup_section l' (Some n) = None).
      { apply lookup_section_none. rewrite Eb, map_app. intros F.
        apply in_app_or in F. tauto. }
      split.
      * rewrite has_section_lookup. cbn [sections]. now rewrite L.
      * intros k'. rewrite has_key_lookup. cbn [sections]. now rewrite L.
Qed.

(** The test [test_remove]: the section goes, with its keys. *)
Lemma remove_section_behaviour_witness :
  let c := mkContext [mkSection None [];
                      mkSection (Some (cs "section1"))
                        [mkPair (cs "key2") (Some (cs "value2"))]] in
  exists c',
    dmini_remove_section (Some c) (Some (cs "section1")) = (DMINI_OK, Some c') /\
    dmini_has_section (Some c') (Some (cs "section1")) = 0 /\
    dmini_has_key (Some c') (Some (cs "section1")) (Some (cs "key2")) = 0.
Proof.
  intros c.
  destruct (proj2 (remove_section_behaviour c (cs "section1")) eq_refl)
    as (c' & a & s & b & R & Ea & Eb & _ & _ & _ & Hgone).
  exists c'. split; [exact R|].
  assert (Hb : ~ In (Some (cs "section1")) (map name b)).
  { assert (E : map name (sections c') = [None]).
    { vm_compute in R. inversion R. reflexivity. }
    rewrite Eb, map_app in E. intros F.
    assert (In (Some (cs "section1")) (map name a ++ map name b))
      by (apply in_or_app; now right).
    rewrite E in H. destruct H as [H|[]]. discriminate H. }
  destruct (Hgone Hb) as [H1 H2]. split; [exact H1|apply H2].
Defined.

(* ====================================================================== *)
(** ** What a call can do to the model, whatever the allocator answers *)
(* ====================================================================== *)

Lemma sections_steps_trans rm l1 l2 l3 :
  sections_steps rm l1 l2 -> sections_steps rm l2 l3 ->
  sections_steps rm l1 l3.
Proof.
  induction 1 as [|a b c Hab Hbc IH]; intros H; [exact H|].
  eapply steps_more; [exact Hab|]. now apply IH.
Qed.

Lemma sections_steps_one rm l l' :
  sections_step rm l l' -> sections_steps rm l l'.
Proof. intros H. eapply steps_more; [exact H|apply steps_done]. Qed.

Lemma pairs_step_weaken l l' : pairs_step false l l' -> pairs_step true l l'.
Proof.
  intros [| j k v' H | k v H | k l1 H U]; try (now constructor).
  - now apply ps_value with (k := k).
  - discriminate.
Qed.

Lemma sections_step_weaken l l' :
  sections_step false l l' -> sections_step true l l'.
Proof.
  intros [| n n' H Hn | i s ps' H P | n l1 H U].
  - constructor.
  - now apply ss_append with (n := n).
  - apply ss_store; [exact H|now apply pairs_step_weaken].
  - discriminate.
Qed.

Lemma sections_steps_weaken l l' :
  sections_steps false l l' -> sections_steps true l l'.
Proof.
  induction 1 as [|a b c Hab Hbc IH]; [constructor|].
  eapply steps_more; [apply sections_step_weaken; exact Hab|exact IH].
Qed.

Lemma reached_step rm l ctx c' l' :
  reached rm l ctx -> ctx = Some c' -> sections_step rm (sections c') l' ->
  reached rm l (Some (mkContext l')).
Proof.
  intros (c0 & E & S) -> H. inversion E; subst c0.
  exists (mkContext l'). split; [reflexivity|].
  eapply sections_steps_trans; [exact S|]. now apply sections_steps_one.
Qed.

Lemma reached_weaken l ctx : reached false l ctx -> reached true l ctx.
Proof.
  intros (c' & E & S). exists c'. split; [exact E|].
  now apply sections_steps_weaken.
Qed.

(** [set_pair_in_section], for every answer of the allocator, when it
    returns. *)
Lemma set_pair_step rm s k v o r s' o' :
  set_pair_in_section (Some s) k v o = (Returns (r, s'), o') ->
  exists ps', s' = Some (mkSection (name s) ps') /\
              pairs_step rm (pairs s) ps'.
Proof.
  assert (Es : Some s = Some (mkSection (name s) (pairs s)))
    by (destruct s; reflexivity).
  unfold set_pair_in_section. destruct k as [k|].
  - unfold find_pair. destruct (find_pair_from (pairs s) k 0) as [j|] eqn:F.
    + unfold bind at 1.
      destruct (read_value s (Some j) v o) as [[text|] o0]; [|discriminate].
      unfold bind, string_duplicate, bind, ret, Dmod_Malloc.
      destruct text as [text|]; destruct o0 as [|[|] o0]; simpl;
        intros H; inversion H; subst; eexists;
        (split; [reflexivity|eapply ps_value; exact F]).
    + unfold bind at 1.
      destruct (read_value s None v o) as [[text|] o0]; [|discriminate].
      unfold bind, create_pair, string_duplicate, bind, ret, Dmod_Malloc.
      destruct text as [text|]; destruct o0 as [|[|] [|[|] [|[|] o0]]]; simpl;
        intros H; inversion H; subst;
        try (exists (pairs s); split; [exact Es|constructor]; fail);
        (eexists; split; [reflexivity|now apply ps_append]).
  - intros H. inversion H; subst. exists (pairs s).
    split; [exact Es|constructor].
Qed.

(** [get_or_create_section], for every answer of the allocator. *)
Lemma get_or_create_step rm c n o ctx' p o' :
  get_or_create_section (Some c) n o = (Returns (ctx', p), o') ->
  exists c', ctx' = Some c' /\ sections_step rm (sections c) (sections c').
Proof.
  unfold get_or_create_section, find_section.
  destruct (find_section_from (sections c) n 0) as [i|] eqn:F.
  - intros H. inversion H; subst. exists c. split; [reflexivity|constructor].
  - unfold bind, create_section, string_duplicate, bind, ret, Dmod_Malloc.
    destruct n as [n|]; destruct o as [|[|] [|[|] o]]; simpl;
      intros H; inversion H; subst;
      try (exists c; split; [reflexivity|constructor]; fail);
      (eexists; split; [reflexivity|];
       cbn [sections]; eapply ss_append; [exact F|auto]).
Qed.

(** A [set_pair_in_section] through a section pointer, and the store. *)
Lemma set_pair_store_step rm c cur k v o r s' o' :
  set_pair_in_section (load_section (Some c) cur) k v o
  = (Returns (r, s'), o') ->
  exists c', store_section (Some c) cur s' = Some c' /\
             sections_step rm (sections c) (sections c').
Proof.
  destruct (load_section (Some c) cur) as [s|] eqn:L.
  - intros H. destruct (set_pair_step rm _ _ _ _ _ _ _ H) as (ps' & -> & P).
    destruct cur as [i|]; [|discriminate]. simpl in L.
    eexists. split; [reflexivity|]. cbn [sections]. now apply ss_store.
  - unfold set_pair_in_section. intros H. inversion H; subst.
    exists c. split; [destruct cur; reflexivity|constructor].
Qed.

Lemma parse_line_step rm l ctx cur raw o r o' :
  reached rm l ctx -> parse_line ctx cur raw o = (Returns r, o') ->
  match r with
  | Continue ctx' _ => reached rm l ctx'
  | Return _ ctx' => reached rm l ctx'
  end.
Proof.
  intros HR. pose proof HR as (c & -> & S). unfold parse_line. cbv zeta.
  destruct (trim_whitespace raw) as [|a after_a];
    [intros H; inversion H; subst; assumption|].
  destruct (char_eq a ";" || char_eq a "#");
    [intros H; inversion H; subst; assumption|].
  destruct (char_eq a "[").
  - destruct (scan_until (char_eq "]") after_a) as [inner [|e section_end]];
      [intros H; inversion H; subst; assumption|].
    unfold bind.
    destruct (get_or_create_section (Some c) (Some (trim_whitespace inner)) o)
      as [[[ctx1 sec]|] o1] eqn:E; [|discriminate].
    destruct (get_or_create_step rm _ _ _ _ _ _ E) as (c1 & -> & S1).
    pose proof (reached_step _ _ _ _ _ HR eq_refl S1) as R1.
    destruct c1 as [l1]. cbn [sections] in R1.
    destruct sec; intros H; inversion H; subst; exact R1.
  - destruct (scan_until (char_eq "=") (a :: after_a)) as [before [|e after]];
      [intros H; inversion H; subst; assumption|].
    destruct (trim_whitespace before) as [|k0 k];
      [intros H; inversion H; subst; assumption|].
    unfold bind.
    match goal with
    | |- context [set_pair_in_section ?x ?y ?z ?w] =>
        destruct (set_pair_in_section x y z w) as [[[r1 s1]|] o1] eqn:E;
          [|discriminate]
    end.
    destruct (set_pair_store_step rm _ _ _ _ _ _ _ _ E) as (c1 & St & S1).
    pose proof (reached_step _ _ _ _ _ HR eq_refl S1) as R1.
    destruct c1 as [l1]. cbn [sections] in R1.
    rewrite St.
    destruct (Z.eqb r1 DMINI_OK); intros H; inversion H; subst; exact R1.
Qed.

Lemma parse_string_step rm l ctx data o r o' :
  reached rm l ctx ->
  dmini_parse_string ctx data o = (Returns r, o') ->
  reached rm l (snd r).
Proof.
  intros HR. unfold dmini_parse_string.
  destruct ctx as [c|]; [|intros H; inversion H; subst; assumption].
  destruct data as [d|]; [|intros H; inversion H; subst; assumption].
  unfold bind, string_duplicate, bind, ret.
  destruct (Dmod_Malloc o) as [[[|]|] o1];
    [|intros H; inversion H; subst; assumption|discriminate].
  apply parse_lines_ind; [|assumption].
  intros. eapply parse_line_step; eassumption.
Qed.

Lemma set_string_step rm l ctx section k v o r o' :
  reached rm l ctx ->
  dmini_set_string ctx section k v o = (Returns r, o') ->
  reached rm l (snd r).
Proof.
  intros HR. pose proof HR as (c & -> & S). unfold dmini_set_string.
  destruct k as [k|]; [|intros H; inversion H; subst; assumption].
  destruct v as [v|]; [|intros H; inversion H; subst; assumption].
  unfold bind at 1.
  destruct (get_or_create_section (Some c) section o)
    as [[[ctx1 sec]|] o1] eqn:E; [|discriminate].
  destruct (get_or_create_step rm _ _ _ _ _ _ E) as (c1 & -> & S1).
  pose proof (reached_step _ _ _ _ _ HR eq_refl S1) as R1.
  assert (R1' : reached rm l (Some c1)) by (destruct c1; exact R1).
  destruct sec as [i|]; [|intros H; inversion H; subst; exact R1'].
  unfold bind.
  destruct (set_pair_in_section (load_section (Some c1) (Some i))
              (Some k) (Some v) o1) as [[[r1 s1]|] o2] eqn:P; [|discriminate].
  destruct (set_pair_store_step rm _ _ _ _ _ _ _ _ P) as (c2 & St & S2).
  intros H. inversion H; subst. cbn [snd].
  change (reached rm l (store_section (Some c1) (Some i) s1)). rewrite St.
  pose proof (reached_step _ _ _ _ _ R1' eq_refl S2) as R2. now destruct c2.
Qed.

Lemma remove_section_step l ctx section :
  reached true l ctx ->
  reached true l (snd (dmini_remove_section ctx section)).
Proof.
  intros HR. pose proof HR as (c & -> & S). unfold dmini_remove_section.
  destruct section as [n|]; [|assumption].
  destruct (unlink_section (sections c) n) as [l'|] eqn:U; [|assumption].
  cbn [snd]. eapply reached_step; [exact HR|reflexivity|].
  now apply ss_unlink with (n := n).
Qed.

Lemma remove_key_step l ctx section k :
  reached true l ctx ->
  reached true l (snd (dmini_remove_key ctx section k)).
Proof.
  intros HR. pose proof HR as (c & -> & S). unfold dmini_remove_key.
  destruct k as [k|]; [|assumption].
  destruct (load_section (Some c) (find_section (Some c) section))
    as [s|] eqn:L; [|assumption].
  destruct (unlink_pair (pairs s) k) as [l'|] eqn:U; [|assumption].
  destruct (find_section (Some c) section) as [i|]; [|discriminate].
  cbn [snd store_section]. eapply reached_step; [exact HR|reflexivity|].
  apply ss_store; [exact L|]. now apply ps_unlink with (k := k).
Qed.

Lemma operation_step rm l op ctx o r o' :
  (rm = false -> is_adding op = true) ->
  reached rm l ctx ->
  apply_operation op ctx o = (Returns r, o') ->
  reached rm l (snd r).
Proof.
  intros Hop HR. destruct op; simpl.
  - now apply parse_string_step.
  - now apply set_string_step.
  - unfold dmini_set_int. now apply set_string_step.
  - intros H. inversion H; subst.
    destruct rm; [now apply remove_section_step|].
    discriminate (Hop eq_refl).
  - intros H. inversion H; subst.
    destruct rm; [now apply remove_key_step|].
    discriminate (Hop eq_refl).
Qed.

Lemma run_operations_steps rm l ops : forall ctx o,
  (rm = false -> forallb is_adding ops = true) ->
  reached rm l ctx ->
  exists ctx',
    fst (run_operations ops ctx o) = Returns ctx' /\ reached rm l ctx'.
Proof.
  induction ops as [|op ops IH]; intros ctx o Hops HR; simpl;
    [exists ctx; auto|].
  unfold bind.
  destruct (always_returns_apply_operation op ctx o) as ([r ctx1] & o1 & E).
  rewrite E. apply IH.
  - intros Hrm. specialize (Hops Hrm). simpl in Hops.
    now apply andb_prop in Hops.
  - apply (operation_step rm l op ctx o (r, ctx1) o1); [|assumption|exact E].
    intros Hrm. specialize (Hops Hrm). simpl in Hops.
    now apply andb_prop in Hops.
Qed.

Lemma sections_steps_invariant rm (P : list dmini_section -> Prop) :
  (forall l l', sections_step rm l l' -> P l -> P l') ->
  forall l l', sections_steps rm l l' -> P l -> P l'.
Proof.
  intros H l l' S. induction S as [|a b c Hab Hbc IH]; intros Pa; [exact Pa|].
  apply IH. eapply H; eassumption.
Qed.

(* ====================================================================== *)
(** ** Names and keys stay distinct *)
(* ====================================================================== *)

Lemma map_name_list_store l i s s' :
  nth_error l i = Some s -> name s' = name s ->
  map name (list_store l i s') = map name l.
Proof.
  revert i. induction l as [|q l IH]; intros [|i] H E; simpl in *;
    try discriminate.
  - inversion H; subst. now rewrite E.
  - f_equal. now apply IH.
Qed.

Lemma named_names_of_names l :
  named_names l
  = flat_map (fun n => match n with Some x => [x] | None => [] end)
             (map name l).
Proof.
  unfold named_names. induction l as [|s l IH]; simpl; [reflexivity|].
  now rewrite IH.
Qed.

Lemma named_names_app a b :
  named_names (a ++ b) = named_names a ++ named_names b.
Proof. unfold named_names. apply flat_map_app. Qed.

Lemma in_named_names x l : In x (named_names l) <-> In (Some x) (map name l).
Proof.
  unfold named_names. induction l as [|s l IH]; simpl; [tauto|].
  rewrite in_app_iff, IH. destruct (name s) as [n|]; simpl.
  - split; [intros [[->|[]]|H]; auto|intros [H|H]; [inversion H|]; auto].
  - split; [intros [[]|H]; auto|intros [H|H]; [discriminate|auto]].
Qed.

Lemma Forall_list_store {A} (P : A -> Prop) l i x :
  Forall P l -> P x -> Forall P (list_store l i x).
Proof.
  intros H Px. revert i. induction H as [|y l Py Pl IH]; intros [|i]; simpl;
    constructor; auto.
Qed.

Lemma pairs_step_NoDup rm l l' :
  pairs_step rm l l' -> NoDup (map key l) -> NoDup (map key l').
Proof.
  intros [| j k v' F | k v F | k l1 _ U] H.
  - exact H.
  - now rewrite map_list_alter.
  - rewrite map_app. simpl. apply NoDup_snoc; [exact H|].
    now apply (find_pair_from_none l k 0).
  - destruct (unlink_pair_some _ _ _ U) as (a & p & b & -> & -> & _).
    rewrite map_app in *. simpl in H. now apply NoDup_remove_1 in H.
Qed.

Lemma sections_step_distinct l l' :
  sections_step true l l' ->
  NoDup (named_names l) /\ Forall (fun s => NoDup (map key (pairs s))) l ->
  NoDup (named_names l') /\ Forall (fun s => NoDup (map key (pairs s))) l'.
Proof.
  intros [| n n' F Hn | i s ps' Hi P | n l1 _ U] [Hnames Hkeys].
  - auto.
  - split.
    + rewrite named_names_app. unfold named_names at 2. simpl.
      destruct n' as [x|]; [|now rewrite !app_nil_r].
      destruct Hn as [Hn|Hn]; [|discriminate]. subst n. simpl.
      apply NoDup_snoc; [exact Hnames|].
      rewrite in_named_names. now apply (find_section_from_none l (Some x) 0).
    + apply Forall_app. split; [exact Hkeys|]. repeat constructor.
  - split.
    + rewrite named_names_of_names,
        (map_name_list_store l i s (mkSection (name s) ps') Hi eq_refl),
        <- named_names_of_names. exact Hnames.
    + apply Forall_list_store; [exact Hkeys|]. simpl.
      eapply pairs_step_NoDup; [exact P|].
      apply nth_error_In in Hi.
      exact (proj1 (Forall_forall _ _) Hkeys s Hi).
  - destruct (unlink_section_some _ _ _ U) as (a & s & b & -> & -> & Hs & _).
    split.
    + rewrite !named_names_app in *. unfold named_names at 2 in Hnames.
      simpl in Hnames. rewrite Hs in Hnames. simpl in Hnames.
      now apply NoDup_remove_1 in Hnames.
    + apply Forall_app in Hkeys. destruct Hkeys as [Ha Hb].
      inversion Hb; subst. apply Forall_app. auto.
Qed.

(** X12: in a context made by [dmini_create], after any sequence of parse,
    set and remove calls and whatever the allocator answers, no two sections
    bear the same name and no section holds a key twice. *)
Theorem names_and_keys_stay_distinct
  (o o1 o2 : oracle) (c : dmini_context) (ops : list operation) :
  dmini_create o = (Returns (Some c), o1) ->
  exists c',
    fst (run_operations ops (Some c) o2) = Returns (Some c') /\
    NoDup (named_names (sections c')) /\
    Forall (fun s => NoDup (map key (pairs s))) (sections c').
Proof.
  intros Hc. apply dmini_create_some in Hc. subst c.
  assert (R0 : reached true [mkSection None []]
                 (Some (mkContext [mkSection None []]))).
  { eexists. split; [reflexivity|constructor]. }
  destruct (run_operations_steps true _ ops _ o2 ltac:(discriminate) R0)
    as (ctx' & E & c' & -> & S).
  exists c'. split; [exact E|].
  apply (sections_steps_invariant true _ sections_step_distinct _ _ S).
  split; repeat constructor.
Qed.

(** Two parses that name the same section and key, with one failure of the
    allocator in between. *)
Lemma names_and_keys_stay_distinct_witness :
  exists c',
    fst (run_operations
           [OpParseString (Some (cs "[a]" ++ [LF] ++ cs "k=1" ++ [LF] ++ cs "k=2"));
            OpSetString (Some (cs "a")) (Some (cs "k")) (Some (cs "3"));
            OpRemoveKey (Some (cs "a")) (Some (cs "k"));
            OpParseString (Some (cs "[a]" ++ [LF] ++ cs "k=4"))]
           (Some (mkContext [mkSection None []]))
           [true; true; true; true; true; true; false]) = Returns (Some c') /\
    NoDup (named_names (sections c')) /\
    Forall (fun s => NoDup (map key (pairs s))) (sections c').
Proof.
  exact (names_and_keys_stay_distinct [] [] _ _ _ eq_refl).
Defined.

(* ====================================================================== *)
(** ** Parsing and setting only add *)
(* ====================================================================== *)

Lemma extends_refl l : extends l l.
Proof.
  split; [exists []; now rewrite app_nil_r|].
  intros i s H. exists s, []. rewrite app_nil_r. auto.
Qed.

Lemma extends_trans l1 l2 l3 : extends l1 l2 -> extends l2 l3 -> extends l1 l3.
Proof.
  intros [[m1 N1] S1] [[m2 N2] S2]. split.
  - exists (m1 ++ m2). now rewrite N2, N1, app_assoc.
  - intros i s H. destruct (S1 i s H) as (s' & k1 & H1 & E1 & K1).
    destruct (S2 i s' H1) as (s'' & k2 & H2 & E2 & K2).
    exists s'', (k1 ++ k2). split; [exact H2|]. split; [congruence|].
    now rewrite K2, K1, app_assoc.
Qed.

Lemma pairs_step_keys l l' :
  pairs_step false l l' -> exists more, map key l' = map key l ++ more.
Proof.
  intros [| j k v' F | k v F | k l1 H U].
  - exists []. now rewrite app_nil_r.
  - exists []. rewrite app_nil_r. now apply map_list_alter.
  - exists [k]. now rewrite map_app.
  - discriminate.
Qed.

Lemma sections_step_extends l l' : sections_step false l l' -> extends l l'.
Proof.
  intros [| n n' F Hn | i s ps' Hi P | n l1 H U].
  - apply extends_refl.
  - split; [exists [n']; now rewrite map_app|].
    intros i s H. exists s, []. rewrite app_nil_r.
    split; [|auto]. rewrite nth_error_app1; [exact H|].
    apply nth_error_Some. congruence.
  - split.
    + exists []. rewrite app_nil_r.
      now apply (map_name_list_store l i s).
    + intros j t H. destruct (Nat.eq_dec j i) as [->|Hne].
      * rewrite Hi in H. inversion H; subst t.
        destruct (pairs_step_keys _ _ P) as (more & K).
        exists (mkSection (name s) ps'), more.
        split; [eapply nth_error_list_store_same; exact Hi|]. auto.
      * exists t, []. rewrite app_nil_r.
        split; [|auto]. now rewrite nth_error_list_store_other.
  - discriminate.
Qed.

Lemma sections_steps_extends l l' : sections_steps false l l' -> extends l l'.
Proof.
  induction 1 as [|a b c Hab Hbc IH]; [apply extends_refl|].
  eapply extends_trans; [apply sections_step_extends; exact Hab|exact IH].
Qed.

(** X13: [dmini_parse_string], [dmini_set_string] and [dmini_set_int] only
    add, whether they succeed or fail and whatever the allocator answers:
    after any sequence of them every section is where it was, under its
    name, with its keys in their order, new keys come after the old ones of
    their section and new sections after the old sections. *)
Theorem adding_calls_only_add
  (c : dmini_context) (ops : list operation) (o : oracle) :
  forallb is_adding ops = true ->
  exists c',
    fst (run_operations ops (Some c) o) = Returns (Some c') /\
    extends (sections c) (sections c').
Proof.
  intros Hops.
  assert (R0 : reached false (sections c) (Some c)).
  { exists c. split; [reflexivity|constructor]. }
  destruct (run_operations_steps false _ ops _ o (fun _ => Hops) R0)
    as (ctx' & E & c' & -> & S).
  exists c'. split; [exact E|]. now apply sections_steps_extends.
Qed.

(** A parse that runs out of memory at its third line, then a set. *)
Lemma adding_calls_only_add_witness :
  let c := mkContext [mkSection None [mkPair (cs "g") (Some (cs "1"))];
                      mkSection (Some (cs "s")) [mkPair (cs "k") (Some (cs "v"))]] in
  exists c',
    fst (run_operations
           [OpParseString (Some (cs "x=1" ++ [LF] ++ cs "[s]" ++ [LF] ++
                                 cs "k=2" ++ [LF] ++ cs "y=3"));
            OpSetInt (Some (cs "t")) (Some (cs "n")) 7]
           (Some c) [true; true; true; true; false]) = Returns (Some c') /\
    extends (sections c) (sections c').
Proof.
  intros c.
  exact (adding_calls_only_add c
           [OpParseString (Some (cs "x=1" ++ [LF] ++ cs "[s]" ++ [LF] ++
                                 cs "k=2" ++ [LF] ++ cs "y=3"));
            OpSetInt (Some (cs "t")) (Some (cs "n")) 7]
           [true; true; true; true; false] eq_refl).
Defined.

(* ====================================================================== *)
(** ** What the parser stores reads back *)
(* ====================================================================== *)

Lemma forallb_trim (P : ascii -> bool) s :
  forallb P s = true -> forallb P (trim_whitespace s) = true.
Proof.
  intros H. unfold trim_whitespace.
  destruct (skip_leading_split s) as (ws & _ & Hs & _).
  rewrite Hs, forallb_app in H. apply andb_prop in H. destruct H as [_ H].
  destruct (skip_leading s) as [|c tl]; [reflexivity|].
  simpl in H. apply andb_prop in H. destruct H as [Hc H].
  destruct (strip_trailing_split tl) as (ws2 & _ & Ht & _).
  rewrite Ht, forallb_app in H. apply andb_prop in H. destruct H as [H _].
  simpl. now rewrite Hc, H.
Qed.

Lemma scan_until_split stop l :
  l = fst (scan_until stop l) ++ snd (scan_until stop l) /\
  forallb (fun c => negb (stop c)) (fst (scan_until stop l)) = true.
Proof.
  induction l as [|c l [IH1 IH2]]; simpl; [auto|].
  destruct (stop c) eqn:E; simpl; [auto|].
  destruct (scan_until stop l) as [passed rest]; simpl in *.
  rewrite E, IH2. split; [congruence|reflexivity].
Qed.

Lemma trim_whitespace_head a tl :
  is_space a = false -> exists tl', trim_whitespace (a :: tl) = a :: tl'.
Proof.
  intros H. unfold trim_whitespace. simpl. rewrite H. eexists. reflexivity.
Qed.

Lemma upsert_pair_reads_back ps k v :
  Forall pair_reads_back ps -> pair_reads_back (mkPair k (Some v)) ->
  Forall pair_reads_back (upsert_pair ps k v).
Proof.
  intros H (K1 & K2 & K3 & w & Ew & V1 & V2). simpl in *.
  inversion Ew; subst w.
  induction H as [|p ps Hp Hps IH]; simpl.
  - repeat constructor; simpl; auto. exists v. auto.
  - destruct (strcmp_eq0 (key p) k).
    + constructor; [|exact Hps].
      destruct Hp as (P1 & P2 & P3 & _). repeat split; simpl; auto.
      exists v. auto.
    + constructor; assumption.
Qed.

Lemma reads_back_store l i s ps' :
  reads_back l -> nth_error l i = Some s ->
  (Forall pair_reads_back (pairs s) -> Forall pair_reads_back ps') ->
  (NoDup (map key (pairs s)) -> NoDup (map key ps')) ->
  reads_back (list_store l i (mkSection (name s) ps')).
Proof.
  intros (g & rest & -> & Hg & Hps & Hk & Hrest & Hnd) Hi HP HK.
  assert (N : map name (list_store (g :: rest) i (mkSection (name s) ps'))
              = map name (g :: rest))
    by now apply (map_name_list_store _ i s).
  destruct i as [|j]; simpl in Hi.
  - inversion Hi; subst s. exists (mkSection (name g) ps'), rest.
    simpl. repeat split; auto.
  - exists g, (list_store rest j (mkSection (name s) ps')).
    split; [reflexivity|]. repeat split; auto.
    + apply Forall_list_store; [exact Hrest|].
      apply nth_error_In in Hi.
      destruct (proj1 (Forall_forall _ _) Hrest s Hi) as (Hn & Hp & Hd).
      repeat split; simpl; auto.
    + rewrite <- N in Hnd. exact Hnd.
Qed.

Lemma reads_back_append l n :
  reads_back l -> ~ In (Some n) (map name l) -> name_parses n = true ->
  reads_back (l ++ [mkSection (Some n) []]).
Proof.
  intros (g & rest & -> & Hg & Hps & Hk & Hrest & Hnd) Hnot Hn.
  exists g, (rest ++ [mkSection (Some n) []]).
  split; [reflexivity|]. repeat split; auto.
  - apply Forall_app. split; [exact Hrest|]. constructor; [|constructor].
    split; [exists n; auto|]. simpl. split; constructor.
  - change (NoDup (map name ((g :: rest) ++ [mkSection (Some n) []]))).
    rewrite map_app. now apply NoDup_snoc.
Qed.

(** One turn of the parser's loop, without allocation failure, on a line that
    has no line break in it. *)
Lemma parse_line_reads_back c cur raw :
  no_eol raw = true ->
  valid_pointer (Some c) cur -> reads_back (sections c) ->
  exists c' cur',
    runs_ok (parse_line (Some c) cur raw) (Continue (Some c') cur') /\
    valid_pointer (Some c') cur' /\ reads_back (sections c').
Proof.
  intros Hraw V R.
  pose proof (forallb_trim _ _ Hraw) as Hline. fold (no_eol (trim_whitespace raw)) in Hline.
  pose proof (no_outer_space_trim raw) as Hout.
  unfold parse_line. cbv zeta.
  destruct (trim_whitespace raw) as [|a after_a];
    [exists c, cur; split; [apply runs_ok_ret|auto]|].
  destruct (char_eq a ";" || char_eq a "#") eqn:Ecomment;
    [exists c, cur; split; [apply runs_ok_ret|auto]|].
  apply orb_false_iff in Ecomment. destruct Ecomment as [E1 E2].
  destruct (char_eq a "[") eqn:E3.
  - destruct (scan_until_split (char_eq "]") after_a) as [Sp Sn].
    destruct (scan_until (char_eq "]") after_a) as [inner [|e section_end]];
      [exists c, cur; split; [apply runs_ok_ret|auto]|].
    simpl in Sp, Sn.
    assert (Hname : name_parses (trim_whitespace inner) = true).
    { unfold name_parses. rewrite no_outer_space_trim, andb_true_r.
      apply andb_true_intro. split.
      - apply forallb_trim. change (no_eol (a :: after_a) = true) in Hline.
        simpl in Hline. apply andb_prop in Hline. destruct Hline as [_ Hline].
        fold (no_eol after_a) in Hline. rewrite Sp, no_eol_app in Hline.
        apply andb_prop in Hline. apply Hline.
      - apply forallb_trim. exact Sn. }
    pose proof (runs_ok_get_or_create c (Some (trim_whitespace inner))) as G.
    unfold find_section in G.
    destruct (find_section_from (sections c) (Some (trim_whitespace inner)) 0)
      as [i|] eqn:F.
    + exists c, (Some i). split; [|split; [|exact R]].
      * eapply runs_ok_bind; [exact G|]. apply runs_ok_ret.
      * destruct (find_section_from_found _ _ _ _ F) as [_ [s [Hs _]]].
        rewrite Nat.sub_0_r in Hs. exists s. exact Hs.
    + eexists. eexists. split; [|split].
      * eapply runs_ok_bind; [exact G|]. apply runs_ok_ret.
      * eexists. simpl. apply nth_error_app_last.
      * simpl. apply reads_back_append; [exact R| |exact Hname].
        now apply (find_section_from_none (sections c) _ 0).
  - destruct (scan_until_split (char_eq "=") (a :: after_a)) as [Sp Sn].
    destruct (scan_until (char_eq "=") (a :: after_a)) as [before [|e after]];
      [exists c, cur; split; [apply runs_ok_ret|auto]|].
    simpl fst in Sp, Sn. simpl snd in Sp.
    destruct (trim_whitespace before) as [|k0 k] eqn:Ek;
      [exists c, cur; split; [apply runs_ok_ret|auto]|].
    destruct V as [s Hs]. rewrite Hs.
    destruct cur as [i|]; [|discriminate].
    simpl in Hs.
    assert (Hb : no_eol before = true /\ no_eol after = true).
    { rewrite Sp, no_eol_app in Hline. apply andb_prop in Hline.
      destruct Hline as [H1 H2]. split; [exact H1|].
      simpl in H2. apply andb_prop in H2. apply H2. }
    assert (Hk0 : k0 = a).
    { destruct before as [|b0 before']; [discriminate Ek|].
      inversion Sp; subst b0.
      destruct (trim_whitespace_head a before'
                  (no_outer_space_head _ _ Hout)) as (tl' & T).
      rewrite T in Ek. now inversion Ek. }
    subst k0.
    assert (Hpair : pair_reads_back
                      (mkPair (a :: k) (Some (trim_whitespace after)))).
    { unfold pair_reads_back. simpl key. simpl value. rewrite <- Ek.
      split; [|split; [|split]].
      - unfold key_parses. apply andb_true_intro. split.
        + rewrite Ek, E1, E2, E3. reflexivity.
        + apply forallb_trim. exact Sn.
      - apply forallb_trim. apply Hb.
      - apply no_outer_space_trim.
      - exists (trim_whitespace after). split; [reflexivity|].
        split; [apply forallb_trim; apply Hb|apply no_outer_space_trim]. }
    eexists. exists (Some i). split; [|split].
    + eapply runs_ok_bind; [apply runs_ok_set_pair|]. cbv beta iota.
      simpl Z.eqb. cbv iota. apply runs_ok_ret.
    + eapply valid_pointer_store. exact Hs.
    + simpl. apply (reads_back_store _ _ _ _ R Hs).
      * intros H. now apply upsert_pair_reads_back.
      * apply upsert_pair_NoDup.
Qed.

Lemma parse_lines_reads_back line : forall c cur,
  valid_pointer (Some c) cur -> reads_back (sections c) ->
  exists c',
    runs_ok (parse_lines line (Some c) cur) (DMINI_OK, Some c') /\
    reads_back (sections c').
Proof.
  remember (length line) as n eqn:Hn. revert line Hn.
  induction n as [n IH] using lt_wf_ind.
  intros line Hn c cur V R. destruct line as [|a tl].
  - exists c. split; [|exact R]. intros o Ho. exists o. simp parse_lines. auto.
  - destruct (parse_line_reads_back c cur (fst (scan_until is_eol (a :: tl)))
                (proj2 (scan_until_split is_eol (a :: tl))) V R)
      as (c1 & cur1 & R1 & V1 & B1).
    destruct (IH _ ltac:(subst n; apply (next_line_shorter a tl)) _ eq_refl
                 c1 cur1 V1 B1) as (c2 & R2 & B2).
    exists c2. split; [|exact B2]. intros o Ho. rewrite parse_lines_cons.
    destruct (R1 o Ho) as (o1 & E1 & Ho1). rewrite E1.
    apply R2. exact Ho1.
Qed.

Lemma reads_back_values l : reads_back l -> values_stored l.
Proof.
  intros (g & rest & -> & _ & Hps & _ & Hrest & _).
  assert (P : forall ps, Forall pair_reads_back ps ->
                         Forall (fun p => value p <> None) ps).
  { intros ps H. eapply Forall_impl; [|exact H].
    intros p (_ & _ & _ & v & E & _). congruence. }
  constructor; [now apply P|].
  eapply Forall_impl; [|exact Hrest]. intros s (_ & H & _). now apply P.
Qed.

(** X14: without allocation failure [dmini_parse_string] reads every text in
    a new context into a model that [dmini_generate_string] and
    [dmini_parse_string] give back: the text generated from the parsed
    model, parsed in a new context, is that model again, with its sections,
    keys and values in the same order. *)
Theorem parsed_model_roundtrips (t : cstring) :
  exists m,
    runs_ok (parse_in_new_context t) (DMINI_OK, Some m) /\
    runs_ok (dmini_generate_string (Some m))
            (GenString (ini_text (sections m))) /\
    runs_ok (parse_in_new_context (ini_text (sections m)))
            (DMINI_OK, Some m).
Proof.
  assert (R0 : reads_back [mkSection None []]).
  { exists (mkSection None []), []. simpl.
    repeat split; repeat constructor. intros []. }
  destruct (parse_lines_reads_back t (mkContext [mkSection None []])
              (Some 0%nat) ltac:(eexists; reflexivity) R0)
    as (m & Hm & R).
  exists m. split; [|split].
  - unfold parse_in_new_context.
    eapply runs_ok_bind; [apply runs_ok_create|].
    unfold dmini_parse_string.
    eapply runs_ok_bind; [apply runs_ok_string_duplicate|]. exact Hm.
  - apply runs_ok_generate. now apply reads_back_values.
  - destruct R as (g & rest & E & Hg & Hps & Hk & Hrest & Hnd).
    destruct m as [l]. simpl in *. subst l.
    now apply parse_ini_text.
Qed.

(* ====================================================================== *)
(** ** The stored value as the new value *)
(* ====================================================================== *)

Lemma list_store_same {A} (l : list A) i x :
  nth_error l i = Some x -> list_store l i x = l.
Proof.
  revert i. induction l as [|y l IH]; intros [|i] H; simpl in *;
    try discriminate.
  - now inversion H.
  - f_equal. now apply IH.
Qed.

Lemma list_alter_same {A} (f : A -> A) (l : list A) j x :
  nth_error l j = Some x -> f x = x -> list_alter f l j = l.
Proof.
  revert j. induction l as [|y l IH]; intros [|j] H E; simpl in *;
    try discriminate.
  - inversion H; subst. now rewrite E.
  - f_equal. now apply IH.
Qed.

(** Storing the string that is stored already changes nothing. *)
Lemma upsert_section_stored c section k v :
  stored_value c section k v ->
  upsert_section (sections c) section k v = sections c.
Proof.
  intros (i & s & j & p & Hi & Hs & Hj & Hp & Hv).
  unfold find_section in Hi. simpl in Hs, Hj, Hp.
  pose proof (upsert_section_found (sections c) section k v 0 i s Hi) as U.
  rewrite Nat.sub_0_r in U. rewrite <- (U Hs).
  pose proof (upsert_pair_found (pairs s) k v 0 j Hj) as V.
  rewrite Nat.sub_0_r in V. rewrite <- V.
  rewrite (list_alter_same _ _ _ _ Hp)
    by (destruct p; simpl in *; congruence).
  apply list_store_same. destruct s; exact Hs.
Qed.

(** C9 (the code departs from it): on the update path [set_pair_in_section]
    releases the old value before it reads the new one.  With the pointer
    that [dmini_get_string] returned for the key as the new value, as in
    [dmini_set_string(ctx, NULL, "k", dmini_get_string(ctx, NULL, "k", NULL))],
    the call reads the string that it has just released, which C leaves
    undefined; the specification has the value replaced in place and, the
    new value being the old one, the model unchanged.  A copy of that string in the
    caller's memory is stored without a fault and leaves the context as it
    was, and for a key that is not there yet [create_pair] copies through
    the same pointer before anything is released. *)
Theorem set_string_stored_pointer_faults :
  let s := mkSection None [mkPair (cs "k") (Some (cs "a"));
                           mkPair (cs "other") (Some (cs "b"))] in
  let ctx := Some (mkContext [s]) in
  dmini_get_string ctx None (Some (cs "k")) None = Some (cs "a") /\
  returned_pointer ctx None (Some (cs "k")) = Some (ValueOf 0 0) /\
  set_pair_in_section (Some s) (Some (cs "k")) (Some (ValueOf 0 0)) []
  = (Faults, []) /\
  dmini_set_string ctx None (Some (cs "k"))
    (returned_pointer ctx None (Some (cs "k"))) []
  = (Faults, []) /\
  dmini_set_string ctx None (Some (cs "k")) (Some (Own (cs "a"))) []
  = (Returns (DMINI_OK, ctx), []) /\
  dmini_set_string ctx None (Some (cs "new"))
    (returned_pointer ctx None (Some (cs "k"))) []
  = (Returns
       (DMINI_OK,
        Some (mkContext
                [mkSection None [mkPair (cs "k") (Some (cs "a"));
                                 mkPair (cs "other") (Some (cs "b"));
                                 mkPair (cs "new") (Some (cs "a"))]])),
     []).
Proof. repeat split. Qed.

(** X16: for every key that is stored with a value string, the pointer that
    [dmini_get_string] returns for it makes [dmini_set_string] on that key
    read released memory, whatever the allocator answers, while a copy of
    the same string in the caller's memory is stored without allocation
    failure and leaves the context exactly as it was. *)
Theorem set_string_stored_pointer
  (c : dmini_context) (section : option cstring) (k v : cstring) :
  stored_value c section k v ->
  dmini_get_string (Some c) section (Some k) None = Some v /\
  (forall o,
      dmini_set_string (Some c) section (Some k)
        (returned_pointer (Some c) section (Some k)) o
      = (Faults, o)) /\
  runs_ok (dmini_set_string (Some c) section (Some k) (Some (Own v)))
          (DMINI_OK, Some c).
Proof.
  intros H. split; [|split].
  - destruct H as (i & s & j & p & Hi & Hs & Hj & Hp & Hv).
    unfold dmini_get_string. cbv zeta. now rewrite Hi, Hs, Hj, Hp.
  - intros o. destruct H as (i & s & j & p & Hi & Hs & Hj & Hp & Hv).
    unfold returned_pointer, dmini_set_string. cbv zeta.
    rewrite Hi, Hs, Hj, Hp, Hv.
    unfold get_or_create_section. rewrite Hi.
    unfold bind at 1. unfold ret at 1. cbv iota. rewrite Hs.
    unfold set_pair_in_section. rewrite Hj.
    unfold read_value. rewrite Nat.eqb_refl. reflexivity.
  - pose proof (runs_ok_set_string c section k v) as R.
    rewrite (upsert_section_stored _ _ _ _ H) in R.
    now destruct c.
Qed.

(** The context of the test [test_set_get] after its first call. *)
Lemma set_string_stored_pointer_witness :
  let c := mkContext [mkSection None [];
                      mkSection (Some (cs "section1"))
                        [mkPair (cs "key1") (Some (cs "value1"))]] in
  dmini_get_string (Some c) (Some (cs "section1")) (Some (cs "key1")) None
  = Some (cs "value1") /\
  dmini_set_string (Some c) (Some (cs "section1")) (Some (cs "key1"))
    (returned_pointer (Some c) (Some (cs "section1")) (Some (cs "key1")))
    [true; false]
  = (Faults, [true; false]).
Proof.
  intros c.
  assert (S : stored_value c (Some (cs "section1")) (cs "key1") (cs "value1")).
  { exists 1%nat, (mkSection (Some (cs "section1"))
                     [mkPair (cs "key1") (Some (cs "value1"))]),
      0%nat, (mkPair (cs "key1") (Some (cs "value1"))).
    repeat split. }
  destruct (set_string_stored_pointer c (Some (cs "section1")) (cs "key1")
              (cs "value1") S) as (G & F & _).
  split; [exact G|apply F].
Defined.
